(** * Audio pipeline and resilient remote invocation of the voice translator

    A shallow embedding of [services/geminiService.ts]: the PCM sample codec
    ([decode], [encode], [decodeAudioData], [createPcmBlob]), the WAV
    serialiser ([writeString], [floatTo16BitPCM], [encodeWAV]), the playback
    scheduler ([playAudio], [stopAllAudio]) and the retry executor ([retry])
    with the three remote operations built on it.

    Conventions of the embedding.
    - A JavaScript number that holds an audio sample or a time is a rational
      ([Q]).  Every value the codec computes (a 32-bit float times a power of
      two or times 0x7FFF, a 16-bit integer divided by 32768) is exactly
      representable, so no rounding is lost; NaN and the infinities are not
      sample values of the model.
    - Counters, delays in milliseconds, header fields and sample rates are
      integers ([Z]).
    - A typed array or [ArrayBuffer] is a list; storing through a typed array
      at an index it does not have is dropped, which is what the list insert
      [<[i:=x]>] does; a [DataView] store outside the buffer raises a
      [RangeError] and is modelled with [option].
    - The views [Int16Array] over bytes and [Uint8Array] over 16-bit integers
      use the little-endian byte order of the platforms browsers run on.
    - Platform functions that are not part of the repository ([atob], [btoa],
      the remote [generateContent] call, [JSON.parse]) are section variables.
    - A string is a sequence of 8-bit characters.
    - An asynchronous function is a function of the state of the world that
      returns how the promise settles and the state it leaves; a thrown value
      is an error object.  A call of [playAudio] runs to its end before the
      next one starts, as its callers await it.
    - The [while (true)] loop of [retry] takes a bound on its iterations;
      the theorems show which bound is enough.
    - Console output is not modelled. *)

From Stdlib Require Import ZArith QArith Qround Qabs Qminmax Lia Lqa.
From Stdlib Require Import String Ascii List.
From Stdlib Require Init.Byte Strings.Byte.
From stdpp Require Import base option list gmap.

Import ListNotations.
Local Open Scope Z_scope.

Abbreviation byte := Init.Byte.byte.

(* ===================================================================== *)
(** ** JavaScript number conversions *)
(* ===================================================================== *)

Module Js.

(** Truncation toward zero, the first step of [ToInt16] and of the WebIDL
    conversion to [unsigned long]. *)
Definition trunc (q : Q) : Z := Z.quot (Qnum q) (Zpos (Qden q)).

(** [ToInt16]: truncate, reduce modulo 2^16, read as two's complement. *)
Definition wrap16 (z : Z) : Z := (z + 32768) mod 65536 - 32768.
Definition ToInt16 (q : Q) : Z := wrap16 (trunc q).

Definition ToUint8 (z : Z) : Z := z mod 256.
Definition ToUint16 (z : Z) : Z := z mod 65536.
Definition ToUint32 (z : Z) : Z := z mod 4294967296.

Definition byte_to_Z (b : byte) : Z := Z.of_N (Byte.to_N b).

Definition byte_of_Z (z : Z) : byte :=
  match Byte.of_N (Z.to_N (z mod 256)) with
  | Some b => b
  | None => Byte.x00
  end.

(** The signed 16-bit value of two bytes in little-endian order. *)
Definition le_int16 (lo hi : byte) : Z :=
  let u := byte_to_Z lo + 256 * byte_to_Z hi in
  if u <? 32768 then u else u - 65536.

Definition le_uint16 (b0 b1 : byte) : Z :=
  byte_to_Z b0 + 256 * byte_to_Z b1.

Definition le_uint32 (b0 b1 b2 b3 : byte) : Z :=
  byte_to_Z b0 + 256 * byte_to_Z b1
  + 65536 * byte_to_Z b2 + 16777216 * byte_to_Z b3.

(** The two bytes of a 16-bit value, low byte first. *)
Definition int16_bytes (v : Z) : list byte :=
  [byte_of_Z v; byte_of_Z (v / 256)].

(** [new Int16Array(buffer)]: a [RangeError] when the byte length is odd. *)
Fixpoint int16_pairs (bs : list byte) : list Z :=
  match bs with
  | lo :: hi :: rest => le_int16 lo hi :: int16_pairs rest
  | _ => []
  end.

Definition Int16Array_of_buffer (bs : list byte) : option (list Z) :=
  if Nat.even (length bs) then Some (int16_pairs bs) else None.

(** [new Uint8Array(int16.buffer)]. *)
Definition Uint8Array_of_int16 (vs : list Z) : list byte :=
  flat_map int16_bytes vs.

(** [for (let i = 0; i < n; i++) arr[i] = f(i)] on a typed array. *)
Definition fill {A} (n : nat) (f : nat -> A) (arr : list A) : list A :=
  fold_left (fun a i => <[i := f i]> a) (seq 0 n) arr.

(** [String.prototype.includes]. *)
Fixpoint includes (hay needle : string) : bool :=
  String.prefix needle hay
  || match hay with
     | EmptyString => false
     | String _ rest => includes rest needle
     end.

End Js.

(* ===================================================================== *)
(** ** SampleCodec *)
(* ===================================================================== *)

Module Codec.
Import Js.

Definition LIVE_AUDIO_SAMPLE_RATE : Z := 16000.
Definition TTS_AUDIO_SAMPLE_RATE : Z := 24000.

Inductive AudioError :=
| InvalidCharacterError   (* atob on a string that is not base64 *)
| RangeError              (* Int16Array over an odd number of bytes *)
| NotSupportedError.      (* createBuffer with no channel or no frame *)

Record AudioBuffer := mkAudioBuffer {
  numberOfChannels : nat;
  sampleRate : Z;
  frames : nat;                     (* AudioBuffer.length *)
  channelData : list (list Q)
}.

(** [buffer.getChannelData(c)], for a channel the buffer has (the code asks
    for channel 0 and for channels below the count it created). *)
Definition getChannelData (b : AudioBuffer) (c : nat) : list Q :=
  default [] (channelData b !! c).

(** What the platform guarantees of an [AudioBuffer]: between 1 and 32
    channels, at least one frame, and every channel of that many frames. *)
Definition wf_AudioBuffer (b : AudioBuffer) : Prop :=
  (1 <= numberOfChannels b <= 32)%nat
  /\ (0 < frames b)%nat
  /\ length (channelData b) = numberOfChannels b
  /\ Forall (fun chan => length chan = frames b) (channelData b).

(** [AudioBuffer.duration], in seconds. *)
Definition duration (b : AudioBuffer) : Q :=
  (inject_Z (Z.of_nat (frames b)) / inject_Z (sampleRate b))%Q.

(** [ctx.createBuffer(numChannels, length, sampleRate)]: the length is
    converted to an unsigned integer by truncation; the call raises
    [NotSupportedError] when the channel count is outside 1..32 (the
    counts every implementation supports) or the length is zero.  The
    sample rate is taken to be one the context supports (the repository
    passes 24000). *)
Definition createBuffer (numChannels : nat) (len : Q) (rate : Z)
  : option AudioBuffer :=
  let n := Z.to_nat (trunc len) in
  if ((numChannels =? 0)%nat || (32 <? numChannels)%nat || (n =? 0)%nat)%bool
  then None
  else Some {| numberOfChannels := numChannels;
               sampleRate := rate;
               frames := n;
               channelData := replicate numChannels (replicate n 0%Q) |}.

(** The body of the inner loop of [decodeAudioData]: the value stored at
    index [i] of channel [channel].  Reading [dataInt16] past its end gives
    [undefined], and the quotient is NaN; the model returns 0 there.  Lemma
    [decode_reads_in_range] below shows that this only happens at an index
    the channel does not have, where the store is dropped. *)
Definition decoded_sample (dataInt16 : list Z) (numChannels channel i : nat) : Q :=
  (inject_Z (default 0%Z (dataInt16 !! (i * numChannels + channel)%nat)) / 32768)%Q.

(** Number of iterations of [for (let i = 0; i < frameCount; i++)] for a
    possibly fractional [frameCount]. *)
Definition iterations (frameCount : Q) : nat := Z.to_nat (Qceiling frameCount).

(** [data.buffer] is the array's own buffer, as [decode] allocates it.  With
    no channel the quotient [frameCount] is not a finite number; whatever
    its value, [createBuffer] rejects a channel count of 0. *)
Definition decodeAudioData (data : list byte) (rate : Z) (numChannels : nat)
  : AudioError + AudioBuffer :=
  match Int16Array_of_buffer data with
  | None => inl RangeError
  | Some dataInt16 =>
      let frameCount : Q :=
        (inject_Z (Z.of_nat (length dataInt16)) / inject_Z (Z.of_nat numChannels))%Q in
      match createBuffer numChannels frameCount rate with
      | None => inl NotSupportedError
      | Some buffer =>
          inr {| numberOfChannels := numberOfChannels buffer;
                 sampleRate := sampleRate buffer;
                 frames := frames buffer;
                 channelData :=
                   imap (fun channel chan =>
                           fill (iterations frameCount)
                                (decoded_sample dataInt16 numChannels channel)
                                chan)
                        (channelData buffer) |}
      end
  end.

(** The 16-bit integers [createPcmBlob] stores: [int16[i] = data[i] * 32768]. *)
Definition createPcmBlob_int16 (data : list Q) : list Z :=
  fill (length data)
       (fun i => ToInt16 (nth i data 0%Q * 32768)%Q)
       (replicate (length data) 0).

Definition createPcmBlob_bytes (data : list Q) : list byte :=
  Uint8Array_of_int16 (createPcmBlob_int16 data).

Record GenAI_Blob := mkBlob { blob_data : string; mimeType : string }.

Section Transport.
(** [atob] fails on a string that is not base64; [btoa] is total on
    strings of 8-bit characters. *)
Variable atob : string -> option string.
Variable btoa : string -> string.

(** [decode]: the character codes of [atob(base64)]. *)
Definition decode (base64 : string) : option (list byte) :=
  match atob base64 with
  | None => None
  | Some binaryString => Some (map byte_of_ascii (list_ascii_of_string binaryString))
  end.

(** [encode]: [btoa] of the string of character codes. *)
Definition encode (bytes : list byte) : string :=
  btoa (string_of_list_ascii (map ascii_of_byte bytes)).

(** The MIME type spells out [LIVE_AUDIO_SAMPLE_RATE]. *)
Definition createPcmBlob (data : list Q) : GenAI_Blob :=
  {| blob_data := encode (createPcmBlob_bytes data);
     mimeType := "audio/pcm;rate=16000" |}.
End Transport.

End Codec.


(* ===================================================================== *)
(** ** WavContainer *)
(* ===================================================================== *)

Module Wav.
Import Js Codec.

(** A [DataView] over an [ArrayBuffer]; every store checks its bounds. *)
Definition setUint8 (view : list byte) (offset : nat) (v : Z) : option (list byte) :=
  if (offset + 1 <=? length view)%nat
  then Some (<[offset := byte_of_Z (ToUint8 v)]> view)
  else None.

(** [view.setUint16(offset, v, true)]. *)
Definition setUint16 (view : list byte) (offset : nat) (v : Z) : option (list byte) :=
  if (offset + 2 <=? length view)%nat
  then let u := ToUint16 v in
       Some (<[(offset + 1)%nat := byte_of_Z (u / 256)]>
             (<[offset := byte_of_Z u]> view))
  else None.

(** [view.setUint32(offset, v, true)]. *)
Definition setUint32 (view : list byte) (offset : nat) (v : Z) : option (list byte) :=
  if (offset + 4 <=? length view)%nat
  then let u := ToUint32 v in
       Some (<[(offset + 3)%nat := byte_of_Z (u / 16777216)]>
             (<[(offset + 2)%nat := byte_of_Z (u / 65536)]>
             (<[(offset + 1)%nat := byte_of_Z (u / 256)]>
             (<[offset := byte_of_Z u]> view))))
  else None.

(** [view.setInt16(offset, x, true)] for a number [x]. *)
Definition setInt16 (view : list byte) (offset : nat) (x : Q) : option (list byte) :=
  if (offset + 2 <=? length view)%nat
  then let v := ToInt16 x in
       Some (<[(offset + 1)%nat := byte_of_Z (v / 256)]>
             (<[offset := byte_of_Z v]> view))
  else None.

(** [view.getUint16(offset, true)] and [view.getUint32(offset, true)]. *)
Definition getUint16 (view : list byte) (offset : nat) : option Z :=
  b0 ← view !! offset;
  b1 ← view !! (offset + 1)%nat;
  Some (le_uint16 b0 b1).

Definition getUint32 (view : list byte) (offset : nat) : option Z :=
  b0 ← view !! offset;
  b1 ← view !! (offset + 1)%nat;
  b2 ← view !! (offset + 2)%nat;
  b3 ← view !! (offset + 3)%nat;
  Some (le_uint32 b0 b1 b2 b3).

Fixpoint writeString (view : list byte) (offset : nat) (s : string)
  : option (list byte) :=
  match s with
  | EmptyString => Some view
  | String c rest =>
      view' ← setUint8 view offset (Z.of_N (N_of_ascii c));
      writeString view' (S offset) rest
  end.

(** [Math.max(-1, Math.min(1, x))]. *)
Definition clamp (x : Q) : Q := Qmax (-1) (Qmin 1 x).

(** [s < 0 ? s * 0x8000 : s * 0x7FFF]. *)
Definition scale (s : Q) : Q :=
  match Qcompare s 0 with
  | Lt => (s * 32768)%Q
  | _ => (s * 32767)%Q
  end.

Fixpoint floatTo16BitPCM (output : list byte) (offset : nat) (input : list Q)
  : option (list byte) :=
  match input with
  | [] => Some output
  | x :: rest =>
      let s := clamp x in
      output' ← setInt16 output offset (scale s);
      floatTo16BitPCM output' (offset + 2) rest
  end.

Definition encodeWAV (audioBuffer : AudioBuffer) : option (list byte) :=
  let numChannels := Z.of_nat (numberOfChannels audioBuffer) in
  let sampleRate := sampleRate audioBuffer in
  let samples := getChannelData audioBuffer 0 in
  let dataLength := (length samples * 2)%nat in
  let view := replicate (44 + dataLength) Byte.x00 in
  view ← writeString view 0 "RIFF";
  view ← setUint32 view 4 (36 + Z.of_nat dataLength);
  view ← writeString view 8 "WAVE";
  view ← writeString view 12 "fmt ";
  view ← setUint32 view 16 16;
  view ← setUint16 view 20 1;
  view ← setUint16 view 22 numChannels;
  view ← setUint32 view 24 sampleRate;
  view ← setUint32 view 28 (sampleRate * numChannels * 2);
  view ← setUint16 view 32 (numChannels * 2);
  view ← setUint16 view 34 16;
  view ← writeString view 36 "data";
  view ← setUint32 view 40 (Z.of_nat dataLength);
  floatTo16BitPCM view 44 samples.

End Wav.


(* ===================================================================== *)
(** ** ResilientInvoker *)
(* ===================================================================== *)

Module Retry.
Import Js.

Definition API_MAX_RETRIES : Z := 10.
Definition API_RETRY_INITIAL_DELAY_MS : Z := 1000.
Definition API_RETRY_BACKOFF_FACTOR : Z := 2.

(** The value of an error's [code] property, when it has one. *)
Inductive CodeValue := CodeNum (n : Z) | CodeStr (s : string).

(** One entry of [error.details]. *)
Record Detail := mkDetail {
  at_type : option string;          (* detail['@type'] *)
  retryDelay : option string
}.

(** The fields of a thrown error object that the code inspects. *)
Record JsError := mkError {
  code : option CodeValue;          (* [None]: no 'code' property *)
  status : option string;
  message : option string;
  details : option (list Detail)    (* [Some] when it is an array *)
}.

(** [new Error(msg)]. *)
Definition new_Error (msg : string) : JsError :=
  {| code := None; status := None; message := Some msg; details := None |}.

Definition code_is (e : JsError) (n : Z) : bool :=
  match code e with
  | Some (CodeNum m) => m =? n
  | _ => false
  end.

Definition status_is (e : JsError) (s : string) : bool :=
  match status e with
  | Some t => String.eqb t s
  | None => false
  end.

(** [error.message && error.message.includes(marker)]. *)
Definition message_includes (e : JsError) (marker : string) : bool :=
  match message e with
  | Some m => includes m marker
  | None => false
  end.

Definition isApiError (e : JsError) : bool :=
  match code e with Some _ => true | None => false end.

Definition isRetryableError (e : JsError) : bool :=
  (isApiError e && (code_is e 503 || code_is e 429 || status_is e "RESOURCE_EXHAUSTED"))
  || message_includes e "The model is overloaded"
  || message_includes e "TTS API returned success but no audio data found".

Definition is_digit (c : ascii) : bool :=
  let n := N_of_ascii c in ((48 <=? n) && (n <=? 57))%N.

(** The longest run of digits at the head of a string, and what follows. *)
Fixpoint digit_run (s : string) : string * string :=
  match s with
  | String c rest =>
      if is_digit c
      then let (ds, tl) := digit_run rest in (String c ds, tl)
      else (EmptyString, s)
  | EmptyString => (EmptyString, EmptyString)
  end.

(** The pattern [(\d+)s] tried at the head of the string: the captured
    digits.  The digit run is greedy, and giving digits back cannot help,
    since the character after a shorter run is a digit. *)
Definition match_here (s : string) : option string :=
  match digit_run s with
  | (String c ds, String next _) =>
      if Ascii.eqb next "s" then Some (String c ds) else None
  | _ => None
  end.

(** [s.match(/(\d+)s/)]: group 1 of the leftmost match. *)
Fixpoint regex_digits_s (s : string) : option string :=
  match match_here s with
  | Some ds => Some ds
  | None =>
      match s with
      | String _ rest => regex_digits_s rest
      | EmptyString => None
      end
  end.

(** [parseInt(digits, 10)] on a string of decimal digits. *)
Fixpoint parseInt_from (acc : Z) (digits : string) : Z :=
  match digits with
  | String c rest => parseInt_from (acc * 10 + (Z.of_N (N_of_ascii c) - 48)) rest
  | EmptyString => acc
  end.
Definition parseInt (digits : string) : Z := parseInt_from 0 digits.

(** A string of decimal digits. *)
Fixpoint digits_only (s : string) : bool :=
  match s with
  | EmptyString => true
  | String c rest => is_digit c && digits_only rest
  end.

Definition RETRY_INFO : string := "type.googleapis.com/google.rpc.RetryInfo".

Definition is_retry_info (d : Detail) : bool :=
  match at_type d with
  | Some t => String.eqb t RETRY_INFO
  | None => false
  end.

(** The whole seconds the error suggests: the first detail of type
    [RetryInfo], its [retryDelay] when it is a non-empty string, matched
    against the pattern. *)
Definition suggested_seconds (e : JsError) : option Z :=
  match details e with
  | Some ds =>
      match List.find is_retry_info ds with
      | Some retryInfo =>
          match retryDelay retryInfo with
          | Some (String c r) =>
              match regex_digits_s (String c r) with
              | Some digits => Some (parseInt digits)
              | None => None
              end
          | _ => None
          end
      | None => None
      end
  | None => None
  end.

(** [customRetryDelay], in milliseconds; 0 when nothing was extracted. *)
Definition customRetryDelay (e : JsError) : Z :=
  match suggested_seconds e with
  | Some secs => secs * 1000
  | None => 0
  end.

(** The new value of [delay] after catching [e]. *)
Definition next_delay (e : JsError) (delay factor : Z) : Z :=
  if 0 <? customRetryDelay e then customRetryDelay e else delay * factor.

Inductive Settled (T : Type) :=
| Resolved (v : T)
| Rejected (e : JsError).
Arguments Resolved {T} v.
Arguments Rejected {T} e.

Section Invoke.
(** The state of everything outside the program, which an operation may
    read and change, and what becomes of it while the caller is
    suspended for a number of milliseconds. *)
Context {World : Type}.
Variable elapse : Z -> World -> World.

Definition Operation (T : Type) : Type := World -> Settled T * World.

(** What a call of [retry] did: how it settled, how many times it invoked
    [fn], the errors it caught and the delays it slept, in order. *)
Record Run (T : Type) := mkRun {
  outcome : Settled T;
  calls : nat;
  caught : list JsError;
  sleeps : list Z;
  world_after : World
}.
Arguments outcome {T} r.
Arguments calls {T} r.
Arguments caught {T} r.
Arguments sleeps {T} r.
Arguments world_after {T} r.

(** The [while (true)] loop, with the local variables [retries] and
    [delay] as arguments; [fuel] bounds the number of iterations. *)
Fixpoint retry_loop {T} (fuel : nat) (fn : Operation T)
         (maxRetries factor retries delay : Z) (w : World)
  : option (Run T) :=
  match fuel with
  | O => None
  | S fuel' =>
      match fn w with
      | (Resolved v, w1) =>
          Some {| outcome := Resolved v; calls := 1; caught := [];
                  sleeps := []; world_after := w1 |}
      | (Rejected error, w1) =>
          if negb (isRetryableError error) || (maxRetries <=? retries)
          then Some {| outcome := Rejected error; calls := 1;
                       caught := [error]; sleeps := []; world_after := w1 |}
          else
            let retries := retries + 1 in
            let delay := next_delay error delay factor in
            r ← retry_loop fuel' fn maxRetries factor retries delay
                           (elapse delay w1);
            Some {| outcome := outcome r; calls := S (calls r);
                    caught := error :: caught r;
                    sleeps := delay :: sleeps r;
                    world_after := world_after r |}
      end
  end.

Definition retry {T} (fuel : nat) (fn : Operation T)
           (maxRetries initialDelayMs factor : Z) (w : World)
  : option (Run T) :=
  retry_loop fuel fn maxRetries factor 0 initialDelayMs w.

End Invoke.

Arguments outcome {World T} r.
Arguments calls {World T} r.
Arguments caught {World T} r.
Arguments sleeps {World T} r.
Arguments world_after {World T} r.

End Retry.


(* ===================================================================== *)
(** ** RemoteOperations *)
(* ===================================================================== *)

Module Remote.
Import Js Retry.
Local Open Scope string_scope.

Inductive ModelName :=
| GEMINI_FLASH_LATEST
| GEMINI_PRO_2_5
| GEMINI_FLASH_TTS
| GEMINI_FLASH_LIVE_AUDIO.

Definition THINKING_BUDGET_PRO : Z := 32768.

Record Language := mkLanguage { lang_name : string; lang_code : string }.

Definition SUPPORTED_TRANSLATION_LANGUAGES : list Language :=
  [ mkLanguage "English" "en"; mkLanguage "Spanish" "es";
    mkLanguage "French" "fr"; mkLanguage "German" "de";
    mkLanguage "Italian" "it"; mkLanguage "Japanese" "ja";
    mkLanguage "Korean" "ko"; mkLanguage "Mandarin Chinese" "zh-CN";
    mkLanguage "Portuguese" "pt"; mkLanguage "Russian" "ru";
    mkLanguage "Arabic" "ar"; mkLanguage "Hindi" "hi";
    mkLanguage "Bengali" "bn"; mkLanguage "Dutch" "nl";
    mkLanguage "Swedish" "sv"; mkLanguage "Thai" "th";
    mkLanguage "Vietnamese" "vi"; mkLanguage "Turkish" "tr";
    mkLanguage "Polish" "pl"; mkLanguage "Indonesian" "id";
    mkLanguage "Sinhala" "si" ].

Definition getLanguageNameFromCode (code : string) : string :=
  match List.find (fun l => String.eqb (lang_code l) code)
                  SUPPORTED_TRANSLATION_LANGUAGES with
  | Some lang => lang_name lang
  | None => code
  end.

(** The [config] of a request, by call site. *)
Inductive Config :=
| ConfigEmpty
| ConfigThinking (thinkingBudget : Z)
| ConfigJsonLanguage               (* JSON answer with language and code *)
| ConfigSpeech (voiceName : string).

Inductive Contents :=
| Prompt (s : string)
| Parts (text : string).

Record Request := mkRequest {
  model : ModelName;
  contents : Contents;
  config : Config
}.

(** What the code reads of a [GenerateContentResponse]: [response.text] and
    [response.candidates?.[0]?.content?.parts?.[0]?.inlineData?.data]. *)
Record Response := mkResponse {
  response_text : option string;
  inlineAudio : option string
}.

Record Detected := mkDetected { name : string; iso_code : option string }.

Definition dq : string := String (ascii_of_nat 34) EmptyString.
Definition nl : string := String (ascii_of_nat 10) EmptyString.
Definition bt : string := "`".

Definition detect_prompt (text : string) : string :=
  "Detect the language of the following text. Respond only with the language name and its ISO 639-1 code in JSON format like "
  ++ bt ++ "{" ++ dq ++ "language" ++ dq ++ ": " ++ dq ++ "English" ++ dq
  ++ ", " ++ dq ++ "code" ++ dq ++ ": " ++ dq ++ "en" ++ dq ++ "}" ++ bt
  ++ ". If you cannot confidently detect the language, respond with "
  ++ bt ++ "{" ++ dq ++ "language" ++ dq ++ ": " ++ dq ++ "Unknown" ++ dq
  ++ ", " ++ dq ++ "code" ++ dq ++ ": null}" ++ bt ++ "."
  ++ nl ++ "        " ++ nl ++ nl ++ "Text: " ++ dq ++ text ++ dq.

Definition translate_prompt (sourceLanguageDisplayName targetLanguageName text : string)
  : string :=
  "Translate the following " ++ sourceLanguageDisplayName ++ " text into "
  ++ targetLanguageName ++ ". If the text is already in " ++ targetLanguageName
  ++ ", just confirm it without translating:" ++ nl ++ nl ++ dq ++ text ++ dq.

(** White space removed by [String.prototype.trim], among 8-bit characters. *)
Definition is_space (c : ascii) : bool :=
  let n := N_of_ascii c in
  (((9 <=? n) && (n <=? 13)) || (n =? 32) || (n =? 160))%N.

(** [!text.trim()]. *)
Fixpoint blank (s : string) : bool :=
  match s with
  | EmptyString => true
  | String c rest => is_space c && blank rest
  end.

Definition NO_AUDIO : string :=
  "TTS API returned success but no audio data found in response.".

(** The requests of the three call sites. *)
Definition detect_request (text : string) : Request :=
  {| model := GEMINI_FLASH_LATEST;
     contents := Prompt (detect_prompt text);
     config := ConfigJsonLanguage |}.

Definition translate_request (text targetLanguageName : string)
           (useThinkingMode : bool) (sourceLanguageCode : option string)
  : Request :=
  let model := if useThinkingMode then GEMINI_PRO_2_5 else GEMINI_FLASH_LATEST in
  let config := if useThinkingMode then ConfigThinking THINKING_BUDGET_PRO
                else ConfigEmpty in
  let sourceLanguageDisplayName :=
    match sourceLanguageCode with
    | Some (String c r) =>
        if String.eqb (String c r) "null" then "input"
        else getLanguageNameFromCode (String c r)
    | _ => "input"
    end in
  let prompt := translate_prompt sourceLanguageDisplayName targetLanguageName text in
  {| model := model; contents := Prompt prompt; config := config |}.

Definition speech_request (text : string) : Request :=
  {| model := GEMINI_FLASH_TTS;
     contents := Parts text;
     config := ConfigSpeech "Kore" |}.

Section Operations.
Context {World : Type}.
Variable elapse : Z -> World -> World.

(** [ai.models.generateContent(request)] of the SDK. *)
Variable generateContent : Request -> Operation (World:=World) Response.

(** Lines 309-322 of [detectLanguage]: strip a code fence from
    [response.text], [JSON.parse] it and check its fields; [None] is the
    [null] the function returns, also when one of these steps throws,
    since the same handler catches it. *)
Variable read_detection : Response -> option Detected.

(** A public operation settles with a value or an error, in a world. *)
Definition detectLanguage (fuel : nat) (text : string) (w : World)
  : option (Settled (option Detected) * World) :=
  r ← retry elapse fuel (generateContent (detect_request text))
        API_MAX_RETRIES API_RETRY_INITIAL_DELAY_MS API_RETRY_BACKOFF_FACTOR w;
  match outcome r with
  | Resolved response => Some (Resolved (read_detection response), world_after r)
  | Rejected error => Some (Resolved None, world_after r)
  end.

Definition translateText (fuel : nat) (text targetLanguageName : string)
           (useThinkingMode : bool) (sourceLanguageCode : option string)
           (w : World)
  : option (Settled (option string) * World) :=
  r ← retry elapse fuel
        (generateContent
           (translate_request text targetLanguageName useThinkingMode
                              sourceLanguageCode))
        API_MAX_RETRIES API_RETRY_INITIAL_DELAY_MS API_RETRY_BACKOFF_FACTOR w;
  match outcome r with
  | Resolved response => Some (Resolved (response_text response), world_after r)
  | Rejected error => Some (Rejected error, world_after r)
  end.

(** The operation [generateSpeech] retries: the remote call, then the
    check that the answer holds audio. *)
Definition speech_attempt (text : string) : Operation (World:=World) string :=
  fun w =>
    match generateContent (speech_request text) w with
    | (Resolved response, w1) =>
        match inlineAudio response with
        | Some (String c r) => (Resolved (String c r), w1)
        | _ => (Rejected (new_Error NO_AUDIO), w1)
        end
    | (Rejected error, w1) => (Rejected error, w1)
    end.

Definition generateSpeech (fuel : nat) (text : string) (w : World)
  : option (Settled string * World) :=
  if blank text then Some (Resolved EmptyString, w)
  else
    r ← retry elapse fuel (speech_attempt text)
          API_MAX_RETRIES API_RETRY_INITIAL_DELAY_MS API_RETRY_BACKOFF_FACTOR w;
    match outcome r with
    | Resolved base64Audio => Some (Resolved base64Audio, world_after r)
    | Rejected error => Some (Rejected error, world_after r)
    end.

End Operations.

End Remote.

(* ===================================================================== *)
(** ** PlaybackScheduler *)
(* ===================================================================== *)

Module Playback.
Import Js Codec.

(** One call of [source.start(when)] on a source holding a buffer. *)
Record Scheduled := mkScheduled {
  source : nat;
  startAt : Q;
  playFor : Q
}.

Definition endAt (s : Scheduled) : Q := (startAt s + playFor s)%Q.

(** [nextStartTimeRef.current], the set [audioSources], the chunks handed
    to the device and not cancelled, and the number of source nodes created
    so far, which names the next one. *)
Record Player := mkPlayer {
  nextStartTime : Q;
  audioSources : gset nat;
  started : list Scheduled;
  created : nat
}.

Definition initial : Player :=
  {| nextStartTime := 0; audioSources := ∅; started := []; created := O |}.

Section Play.
Variable atob : string -> option string.

(** [playAudio], with the reading of [audioContext.currentTime] as an
    argument (it is never negative).  The result is the error thrown, if
    any, and the state the call leaves. *)
Definition playAudio (base64Audio : string) (currentTime : Q) (p : Player)
  : option AudioError * Player :=
  match base64Audio with
  | EmptyString => (None, p)
  | _ =>
      let p1 := {| nextStartTime := Qmax (nextStartTime p) currentTime;
                   audioSources := audioSources p;
                   started := started p;
                   created := created p |} in
      match decode atob base64Audio with
      | None => (Some InvalidCharacterError, p1)
      | Some data =>
          match decodeAudioData data TTS_AUDIO_SAMPLE_RATE 1 with
          | inl error => (Some error, p1)
          | inr audioBuffer =>
              let source := created p1 in
              (None,
               {| nextStartTime := (nextStartTime p1 + duration audioBuffer)%Q;
                  audioSources := audioSources p1 ∪ {[ source ]};
                  started := started p1 ++
                             [ {| source := source;
                                  startAt := nextStartTime p1;
                                  playFor := duration audioBuffer |} ];
                  created := S source |})
          end
      end
  end.

(** A sequence of calls, each with its clock reading; a call that throws
    leaves its state to the next one. *)
Definition playAll (callsList : list (string * Q)) (p : Player) : Player :=
  fold_left (fun p c => snd (playAudio (fst c) (snd c) p)) callsList p.

(** At every call of the sequence the device clock has not passed the
    cursor. *)
Fixpoint clock_behind (callsList : list (string * Q)) (p : Player) : Prop :=
  match callsList with
  | [] => True
  | c :: rest =>
      (snd c <= nextStartTime p)%Q
      /\ clock_behind rest (snd (playAudio (fst c) (snd c) p))
  end.

(** The duration of the chunk a call would schedule. *)
Definition chunk_duration (base64Audio : string) : option Q :=
  match base64Audio with
  | EmptyString => None
  | _ =>
      match decode atob base64Audio with
      | None => None
      | Some data =>
          match decodeAudioData data TTS_AUDIO_SAMPLE_RATE 1 with
          | inl _ => None
          | inr audioBuffer => Some (duration audioBuffer)
          end
      end
  end.
End Play.

(** Chunks in call order, each ending before every later one starts. *)
Definition in_order (l : list Scheduled) : Prop :=
  forall i j a b, (i < j)%nat -> l !! i = Some a -> l !! j = Some b ->
                  (endAt a <= startAt b)%Q.

(** The invariant of the schedule: in order, and all ending by the cursor. *)
Definition scheduled_inv (p : Player) : Prop :=
  in_order (started p)
  /\ Forall (fun s => (endAt s <= nextStartTime p)%Q) (started p).

(** Two chunks sound at a common instant. *)
Definition overlap (a b : Scheduled) : Prop :=
  exists t : Q,
    (startAt a <= t)%Q /\ (t < endAt a)%Q /\ (startAt b <= t)%Q /\ (t < endAt b)%Q.

(** Every chunk starts where the one before ended, the first at [from]. *)
Fixpoint back_to_back (from : Q) (l : list Scheduled) : Prop :=
  match l with
  | [] => True
  | s :: rest => (startAt s == from)%Q /\ back_to_back (endAt s) rest
  end.

Definition total (ds : list Q) : Q := fold_right Qplus 0%Q ds.

(** The listener of a source's [ended] event. *)
Definition on_ended (src : nat) (p : Player) : Player :=
  {| nextStartTime := nextStartTime p;
     audioSources := audioSources p ∖ {[ src ]};
     started := started p;
     created := created p |}.

Definition stopAllAudio (p : Player) : Player :=
  {| nextStartTime := 0;
     audioSources := ∅;
     started := filter (fun s => source s ∉ audioSources p) (started p);
     created := created p |}.

End Playback.

(* ===================================================================== *)
(** ** An instance of the platform's base64 functions *)
(* ===================================================================== *)

Module Platform.

Definition b64_value (c : ascii) : option N :=
  let n := N_of_ascii c in
  (if (65 <=? n) && (n <=? 90) then Some (n - 65)
   else if (97 <=? n) && (n <=? 122) then Some (n - 71)
   else if (48 <=? n) && (n <=? 57) then Some (n + 4)
   else if n =? 43 then Some 62
   else if n =? 47 then Some 63
   else None)%N.

Definition is_b64_space (c : ascii) : bool :=
  let n := N_of_ascii c in
  ((n =? 9) || (n =? 10) || (n =? 12) || (n =? 13) || (n =? 32))%N.

(** Drop up to two trailing padding characters of a string whose length is
    a multiple of four. *)
Definition strip_padding (cs : list ascii) : list ascii :=
  if (length cs mod 4 =? 0)%nat then
    match rev cs with
    | "="%char :: "="%char :: r => rev r
    | "="%char :: r => rev r
    | _ => cs
    end
  else cs.

Fixpoint b64_bytes (vs : list N) : list N :=
  match vs with
  | a :: b :: c :: d :: rest =>
      let n := (a * 262144 + b * 4096 + c * 64 + d)%N in
      (n / 65536)%N :: ((n / 256) mod 256)%N :: (n mod 256)%N :: b64_bytes rest
  | [a; b; c] =>
      let n := (a * 4096 + b * 64 + c)%N in
      [(n / 1024)%N; ((n / 4) mod 256)%N]
  | [a; b] => [((a * 64 + b) / 16)%N]
  | _ => []
  end.

(** [atob] as browsers implement it (forgiving base64 decoding). *)
Definition atob (s : string) : option string :=
  let cs := strip_padding (List.filter (fun c => negb (is_b64_space c))
                                       (list_ascii_of_string s)) in
  if (length cs mod 4 =? 1)%nat then None
  else
    match mapM b64_value cs with
    | Some vs => Some (string_of_list_ascii (map ascii_of_N (b64_bytes vs)))
    | None => None
    end.

End Platform.


(* ===================================================================== *)
(** ** Scripted operations and sample errors *)
(* ===================================================================== *)

Module Scripted.
Import Retry.
Local Open Scope string_scope.

(** An operation that settles as a script says, attempt after attempt, and
    as [rest] once the script is over; the world counts its invocations. *)
Definition scripted {T} (script : list (Settled T)) (rest : Settled T)
  : Operation (World:=nat) T :=
  fun w => (nth w script rest, S w).

(** Time passing changes nothing a scripted operation reads. *)
Definition idle : Z -> nat -> nat := fun _ w => w.

Definition overloaded : JsError :=
  {| code := Some (CodeNum 503); status := Some "UNAVAILABLE";
     message := Some "The model is overloaded. Please try again later.";
     details := None |}.

Definition quota (delay : string) : JsError :=
  {| code := Some (CodeNum 429); status := Some "RESOURCE_EXHAUSTED";
     message := Some "You exceeded your current quota.";
     details := Some [ mkDetail (Some "type.googleapis.com/google.rpc.QuotaFailure") None;
                       mkDetail (Some RETRY_INFO) (Some delay) ] |}.

Definition invalid_argument : JsError :=
  {| code := Some (CodeNum 400); status := Some "INVALID_ARGUMENT";
     message := Some "Request contains an invalid argument.";
     details := None |}.

(** A service that rejects every request as invalid. *)
Definition always_invalid
  : Remote.Request -> Operation (World:=nat) Remote.Response :=
  fun _ => scripted [] (Rejected invalid_argument).

End Scripted.

(* ===================================================================== *)
(** ** The behaviour as the specification words it *)
(* ===================================================================== *)

Module Claimed.
Import Js Retry.

(** "Each sample clamped to [-1,1]". *)
Definition clamped (x : Q) : Q :=
  if Qlt_le_dec (-1) x then (if Qlt_le_dec x 1 then x else 1%Q) else (-1)%Q.

(** "Scaled by 0x7FFF for positive, 0x8000 for negative", then cut to an
    integer. *)
Definition pcm16_value (x : Q) : Z :=
  let s := clamped x in
  trunc (if Qlt_le_dec s 0 then s * 32768 else s * 32767)%Q.

(** "Written little-endian, 2 bytes/sample". *)
Definition pcm16 (samples : list Q) : list byte :=
  flat_map (fun x => int16_bytes (pcm16_value x)) samples.

(** "A standard 44-byte header (RIFF/WAVE/fmt /data chunk identifiers,
    little-endian fields) describing PCM format, channel count, sample
    rate, byte rate, block align, bits-per-sample". *)
Definition uint16_bytes (v : Z) : list byte :=
  let u := ToUint16 v in [byte_of_Z u; byte_of_Z (u / 256)].

Definition uint32_bytes (v : Z) : list byte :=
  let u := ToUint32 v in
  [byte_of_Z u; byte_of_Z (u / 256); byte_of_Z (u / 65536); byte_of_Z (u / 16777216)].

Definition ascii_bytes (s : string) : list byte :=
  map (fun c => byte_of_Z (ToUint8 (Z.of_N (N_of_ascii c)))) (list_ascii_of_string s).

Definition wav_header (channels rate dataLength : Z) : list byte :=
  ascii_bytes "RIFF" ++ uint32_bytes (36 + dataLength)
  ++ ascii_bytes "WAVE"
  ++ ascii_bytes "fmt " ++ uint32_bytes 16
  ++ uint16_bytes 1 ++ uint16_bytes channels
  ++ uint32_bytes rate ++ uint32_bytes (rate * channels * 2)
  ++ uint16_bytes (channels * 2) ++ uint16_bytes 16
  ++ ascii_bytes "data" ++ uint32_bytes dataLength.

(** The delay before retry number [k] (counted from 0) when the caught
    error suggests none: "delay *= policy.backoffFactor starting from
    policy.initialDelay", one multiplication per retry. *)
Definition backoff (initialDelayMs factor : Z) (k : nat) : Z :=
  initialDelayMs * factor ^ Z.of_nat (S k).

(** The delay before retry number [k] after catching [e]. *)
Definition delay_after (initialDelayMs factor : Z) (k : nat) (e : JsError) : Z :=
  match suggested_seconds e with
  | Some secs => secs * 1000
  | None => backoff initialDelayMs factor k
  end.

End Claimed.

(* ===================================================================== *)
(** ** An instance of the platform's base64 encoder *)
(* ===================================================================== *)

Module Platform64.

Definition b64_char (v : N) : ascii :=
  (if v <? 26 then ascii_of_N (v + 65)
   else if v <? 52 then ascii_of_N (v + 71)
   else if v <? 62 then ascii_of_N (v - 4)
   else if v =? 62 then "+"%char
   else "/"%char)%N.

Fixpoint b64_chars (codes : list N) : list ascii :=
  match codes with
  | a :: b :: c :: rest =>
      let n := (a * 65536 + b * 256 + c)%N in
      b64_char (n / 262144) :: b64_char ((n / 4096) mod 64)
      :: b64_char ((n / 64) mod 64) :: b64_char (n mod 64) :: b64_chars rest
  | [a; b] =>
      let n := (a * 1024 + b * 4)%N in
      [b64_char (n / 4096); b64_char ((n / 64) mod 64); b64_char (n mod 64);
       "="%char]
  | [a] =>
      let n := (a * 16)%N in
      [b64_char (n / 64); b64_char (n mod 64); "="%char; "="%char]
  | [] => []
  end.

(** [btoa] on a string of 8-bit characters. *)
Definition btoa (s : string) : string :=
  string_of_list_ascii (b64_chars (map N_of_ascii (list_ascii_of_string s))).

End Platform64.

(* ===================================================================== *)
(** ** Bookkeeping invariants *)
(* ===================================================================== *)

Module PlaybackInv.
Import Playback.

(** The sources created so far are 0, 1, 2, ...: the chunks handed to the
    device carry them in order and the active set holds them all. *)
Definition sources_inv (p : Player) : Prop :=
  map source (started p) = seq 0 (created p)
  /\ audioSources p = list_to_set (seq 0 (created p)).

End PlaybackInv.

(* ===================================================================== *)
(** ** Counting remote calls *)
(* ===================================================================== *)

Module Counting.
Import Retry.

(** An operation run in a world that carries a counter of its invocations
    beside the world proper; time passing leaves the counter alone. *)
Definition counted {World T : Type} (op : Operation (World:=World) T)
  : Operation (World:=World * nat) T :=
  fun wn => let (s, w') := op (fst wn) in (s, (w', S (snd wn))).

Definition elapse_counted {World : Type} (elapse : Z -> World -> World)
  : Z -> World * nat -> World * nat :=
  fun d wn => (elapse d (fst wn), snd wn).

End Counting.

(* ===================================================================== *)
(** ** The application's transcript handling *)
(* ===================================================================== *)

Module App.
Import Remote.
Local Open Scope string_scope.

Definition MAX_CHUNKS_FOR_DISPLAY : nat := 10.

(** [String.prototype.trim], on strings of 8-bit characters. *)
Fixpoint trimStart (s : string) : string :=
  match s with
  | String c rest => if is_space c then trimStart rest else s
  | EmptyString => EmptyString
  end.

Fixpoint trimEnd (s : string) : string :=
  match s with
  | String c rest =>
      match trimEnd rest with
      | EmptyString => if is_space c then EmptyString else String c EmptyString
      | String d t => String c (String d t)
      end
  | EmptyString => EmptyString
  end.

Definition trim (s : string) : string := trimEnd (trimStart s).

(** [message.serverContent.inputTranscription] and its optional [text]. *)
Record Transcription := mkTranscription { transcription_text : option string }.

Record ServerContent := mkServerContent {
  inputTranscription : option Transcription;
  outputTranscription : option Transcription;
  turnComplete : bool
}.

Record LiveServerMessage := mkMessage { serverContent : option ServerContent }.

(** What [+=] appends for a text that may be [undefined]. *)
Definition appended (t : Transcription) : string :=
  match transcription_text t with
  | Some text => text
  | None => "undefined"
  end.

(** The three refs and the two pieces of component state that
    [handleLiveMessage] touches. *)
Record Transcript := mkTranscript {
  currentInputTranscription : string;
  accumulatedTranscription : string;
  currentOutputTranscription : string;
  currentTranscriptionChunk : string;
  transcriptionHistory : list string
}.

(** [handleLiveMessage]; [outputReady] says that the output audio context
    and gain node exist. *)
Definition handleLiveMessage (outputReady : bool) (message : LiveServerMessage)
           (st : Transcript) : Transcript :=
  if negb outputReady then st
  else
    let content (f : ServerContent -> option Transcription) :=
      match serverContent message with
      | Some sc => f sc
      | None => None
      end in
    let st1 :=
      match content inputTranscription with
      | Some t =>
          {| currentInputTranscription := currentInputTranscription st ++ appended t;
             accumulatedTranscription := accumulatedTranscription st ++ appended t;
             currentOutputTranscription := currentOutputTranscription st;
             currentTranscriptionChunk := currentInputTranscription st ++ appended t;
             transcriptionHistory := transcriptionHistory st |}
      | None => st
      end in
    let st2 :=
      match content outputTranscription with
      | Some t =>
          {| currentInputTranscription := currentInputTranscription st1;
             accumulatedTranscription := accumulatedTranscription st1;
             currentOutputTranscription := currentOutputTranscription st1 ++ appended t;
             currentTranscriptionChunk := currentTranscriptionChunk st1;
             transcriptionHistory := transcriptionHistory st1 |}
      | None => st1
      end in
    match serverContent message with
    | Some sc =>
        if turnComplete sc then
          let fullInputForTurn := trim (currentInputTranscription st2) in
          {| currentInputTranscription := EmptyString;
             accumulatedTranscription := accumulatedTranscription st2;
             currentOutputTranscription := EmptyString;
             currentTranscriptionChunk := EmptyString;
             transcriptionHistory :=
               match fullInputForTurn with
               | EmptyString => transcriptionHistory st2
               | _ => transcriptionHistory st2 ++ [fullInputForTurn]
               end |}
        else st2
    | None => st2
    end.

(** The messages of a session, in the order they arrive. *)
Definition handleAll (outputReady : bool) (messages : list LiveServerMessage)
           (st : Transcript) : Transcript :=
  fold_left (fun st m => handleLiveMessage outputReady m st) messages st.

(** The text a message adds to the user's transcript. *)
Definition input_text (message : LiveServerMessage) : string :=
  match serverContent message with
  | Some sc =>
      match inputTranscription sc with
      | Some t => appended t
      | None => EmptyString
      end
  | None => EmptyString
  end.

(** The state when recording starts. *)
Definition fresh : Transcript :=
  {| currentInputTranscription := EmptyString;
     accumulatedTranscription := EmptyString;
     currentOutputTranscription := EmptyString;
     currentTranscriptionChunk := EmptyString;
     transcriptionHistory := [] |}.

(** [transcriptionHistory.slice(-MAX_CHUNKS_FOR_DISPLAY)] of
    [TranscriptionDisplay]. *)
Definition displayHistory (transcriptionHistory : list string) : list string :=
  drop (length transcriptionHistory - MAX_CHUNKS_FOR_DISPLAY) transcriptionHistory.

(** [tail] ends [s]. *)
Definition is_suffix (tail s : string) : Prop := exists front, s = front ++ tail.

(** No white space at the front. *)
Definition starts_clean (s : string) : Prop :=
  match s with
  | String c _ => is_space c = false
  | EmptyString => True
  end.

(** The history entries [handleLiveMessage] can add. *)
Definition clean_entry (s : string) : Prop :=
  s <> EmptyString /\ trim s = s /\ blank s = false.

End App.

(* ===================================================================== *)
(** * Properties *)
(* ===================================================================== *)

(** ** Bytes and 16-bit values *)

Section Bytes.
Import Js.

Lemma byte_to_Z_range (b : byte) : 0 <= byte_to_Z b < 256.
Proof.
  unfold byte_to_Z. pose proof (Byte.to_N_bounded b) as H. lia.
Qed.

Lemma byte_to_of_Z (z : Z) : byte_to_Z (byte_of_Z z) = z mod 256.
Proof.
  unfold byte_of_Z, byte_to_Z.
  pose proof (Z.mod_pos_bound z 256 ltac:(lia)) as Hr.
  destruct (Byte.of_N (Z.to_N (z mod 256))) as [b|] eqn:E.
  - apply Byte.to_of_N in E. rewrite E. lia.
  - apply Byte.of_N_None_iff in E. lia.
Qed.

Lemma wrap16_id (v : Z) : -32768 <= v < 32768 -> wrap16 v = v.
Proof.
  intros H. unfold wrap16. rewrite Z.mod_small by lia. lia.
Qed.

Lemma wrap16_range (v : Z) : -32768 <= wrap16 v < 32768.
Proof.
  unfold wrap16. pose proof (Z.mod_pos_bound (v + 32768) 65536 ltac:(lia)). lia.
Qed.

(** Reading back the two bytes stored for a 16-bit value. *)
Lemma le_int16_bytes (v : Z) :
  -32768 <= v < 32768 ->
  le_int16 (byte_of_Z v) (byte_of_Z (v / 256)) = v.
Proof.
  intros H. unfold le_int16. rewrite !byte_to_of_Z.
  pose proof (Z.div_mod v 256 ltac:(lia)) as E.
  pose proof (Z.mod_pos_bound v 256 ltac:(lia)) as Hr.
  set (q := v / 256) in *. set (r := v mod 256) in *.
  assert (Hq : q mod 256 = if q <? 0 then q + 256 else q).
  { destruct (Z.ltb_spec q 0).
    - rewrite <- (Z.mod_add q 1 256) by lia. apply Z.mod_small. lia.
    - apply Z.mod_small. lia. }
  rewrite Hq.
  destruct (Z.ltb_spec q 0);
    match goal with |- context [?a <? 32768] => destruct (Z.ltb_spec a 32768) end; lia.
Qed.

Lemma le_uint16_bytes (u : Z) :
  0 <= u < 65536 ->
  le_uint16 (byte_of_Z u) (byte_of_Z (u / 256)) = u.
Proof.
  intros H. unfold le_uint16. rewrite !byte_to_of_Z.
  rewrite (Z.mod_small (u / 256)).
  - pose proof (Z.div_mod u 256 ltac:(lia)). lia.
  - split; [apply Z.div_pos; lia | apply Z.div_lt_upper_bound; lia].
Qed.

Lemma le_uint32_bytes (u : Z) :
  0 <= u < 4294967296 ->
  le_uint32 (byte_of_Z u) (byte_of_Z (u / 256))
            (byte_of_Z (u / 65536)) (byte_of_Z (u / 16777216)) = u.
Proof.
  intros H. unfold le_uint32. rewrite !byte_to_of_Z.
  assert (D1 : u / 65536 = u / 256 / 256) by (rewrite Z.div_div by lia; reflexivity).
  assert (D2 : u / 16777216 = u / 65536 / 256) by (rewrite Z.div_div by lia; reflexivity).
  pose proof (Z.div_mod u 256 ltac:(lia)) as E0.
  pose proof (Z.div_mod (u / 256) 256 ltac:(lia)) as E1.
  pose proof (Z.div_mod (u / 65536) 256 ltac:(lia)) as E2.
  rewrite <- D1 in E1. rewrite <- D2 in E2.
  rewrite (Z.mod_small (u / 16777216)).
  - lia.
  - split; [apply Z.div_pos; lia | apply Z.div_lt_upper_bound; lia].
Qed.

Lemma int16_pairs_length (bs : list byte) :
  length (int16_pairs bs) = (length bs / 2)%nat.
Proof.
  enough (H : forall n (l : list byte), (length l <= n)%nat ->
               length (int16_pairs l) = (length l / 2)%nat)
    by (apply (H (length bs)); lia).
  clear bs. induction n as [|n IH]; intros bs Hle.
  - destruct bs; [reflexivity | cbn in Hle; lia].
  - destruct bs as [|lo [|hi rest]]; try reflexivity.
    cbn [int16_pairs length] in *. rewrite IH by lia.
    change (S (S (length rest))) with (1 * 2 + length rest)%nat.
    rewrite Nat.div_add_l by lia. lia.
Qed.

Lemma int16_pairs_lookup (bs : list byte) (j : nat) (lo hi : byte) :
  bs !! (2 * j)%nat = Some lo ->
  bs !! (2 * j + 1)%nat = Some hi ->
  int16_pairs bs !! j = Some (le_int16 lo hi).
Proof.
  revert bs. induction j as [|j IH]; intros bs Hlo Hhi.
  - destruct bs as [|a [|b rest]]; cbn in *; congruence.
  - replace (2 * S j)%nat with (S (S (2 * j))) in * by lia.
    destruct bs as [|a [|b rest]]; try (cbn in *; congruence).
    cbn in Hlo, Hhi. cbn [int16_pairs]. cbn. apply IH; assumption.
Qed.

(** The bytes of a list of 16-bit values view back as the values. *)
Lemma int16_pairs_of_bytes (vs : list Z) :
  Forall (fun v => -32768 <= v < 32768) vs ->
  int16_pairs (Uint8Array_of_int16 vs) = vs.
Proof.
  induction 1 as [|v vs Hv _ IH]; [reflexivity|].
  cbn. rewrite le_int16_bytes by assumption. f_equal. exact IH.
Qed.

Lemma Uint8Array_of_int16_length (vs : list Z) :
  length (Uint8Array_of_int16 vs) = (2 * length vs)%nat.
Proof.
  induction vs as [|v vs IH]; [reflexivity|].
  unfold Uint8Array_of_int16 in *.
  cbn [flat_map int16_bytes app length]. rewrite IH. lia.
Qed.

(** The loop that stores [f i] at every index below [n]. *)
Lemma fill_length {A} (n : nat) (f : nat -> A) (arr : list A) :
  length (fill n f arr) = length arr.
Proof.
  unfold fill. generalize 0%nat as s. revert arr.
  induction n as [|n IH]; intros arr s; [reflexivity|].
  cbn. rewrite IH. apply length_insert.
Qed.

Lemma fill_from_lookup {A} (n s : nat) (f : nat -> A) (arr : list A) (i : nat) :
  fold_left (fun a i => <[i := f i]> a) (seq s n) arr !! i =
  if decide (s <= i < s + n)%nat then (fun _ => f i) <$> arr !! i else arr !! i.
Proof.
  revert s arr. induction n as [|n IH]; intros s arr.
  - cbn. destruct (decide _); [lia | reflexivity].
  - cbn [seq fold_left]. rewrite IH.
    destruct (decide (i = s)) as [->|Hne].
    + destruct (decide (S s <= s < S s + n)%nat); [lia|].
      destruct (decide (s <= s < s + S n)%nat); [|lia].
      destruct (decide (s < length arr)%nat) as [Hl|Hl].
      * rewrite list_lookup_insert_eq by assumption.
        destruct (lookup_lt_is_Some_2 arr s Hl) as [x ->]. reflexivity.
      * rewrite list_insert_ge by lia.
        rewrite (lookup_ge_None_2 arr s) by lia. reflexivity.
    + rewrite list_lookup_insert_ne by congruence.
      destruct (decide (S s <= i < S s + n)%nat), (decide (s <= i < s + S n)%nat);
        try lia; reflexivity.
Qed.

Lemma fill_lookup {A} (n : nat) (f : nat -> A) (arr : list A) (i : nat) :
  fill n f arr !! i = if decide (i < n)%nat then (fun _ => f i) <$> arr !! i else arr !! i.
Proof.
  unfold fill. rewrite fill_from_lookup.
  destruct (decide (0 <= i < 0 + n)%nat), (decide (i < n)%nat); try lia; reflexivity.
Qed.

Lemma fill_replicate {A B} (l : list A) (d : A) (z : B) (g : A -> B) :
  fill (length l) (fun i => g (nth i l d)) (replicate (length l) z) = map g l.
Proof.
  apply list_eq. intros i. rewrite fill_lookup, list_lookup_fmap.
  destruct (decide (i < length l)%nat) as [Hl|Hl].
  - rewrite lookup_replicate_2 by assumption.
    destruct (lookup_lt_is_Some_2 l i Hl) as [x Hx]. rewrite Hx. cbn.
    rewrite (nth_lookup_Some l i d x Hx). reflexivity.
  - rewrite (lookup_ge_None_2 l i) by lia. cbn.
    apply lookup_replicate_None. lia.
Qed.

End Bytes.

(** ** Decoding PCM bytes *)

Section Decode.
Import Js Codec.

Lemma trunc_ratio (a b : nat) :
  (0 < b)%nat ->
  trunc (inject_Z (Z.of_nat a) / inject_Z (Z.of_nat b)) = Z.of_nat (a / b).
Proof.
  intros Hb. destruct b as [|b]; [lia|].
  unfold trunc, Qdiv, Qinv, Qmult, inject_Z. cbn [Qnum Qden Z.of_nat].
  rewrite Z.mul_1_r, Pos.mul_1_l.
  rewrite Z.quot_div_nonneg by lia.
  rewrite Nat2Z.inj_div. f_equal.
Qed.

Lemma trunc_floor (q : Q) : 0 <= Qnum q -> trunc q = Qfloor q.
Proof.
  destruct q as [n d]. cbn [Qnum]. intros Hn.
  unfold trunc, Qfloor. cbn [Qnum Qden]. apply Z.quot_div_nonneg; lia.
Qed.

Lemma iterations_ratio (a b : nat) :
  (0 < b)%nat ->
  (a / b <= iterations (inject_Z (Z.of_nat a) / inject_Z (Z.of_nat b)))%nat.
Proof.
  intros Hb. unfold iterations.
  pose proof (trunc_ratio a b Hb) as Ht.
  rewrite trunc_floor in Ht.
  - pose proof (Qle_floor_ceiling
                  (inject_Z (Z.of_nat a) / inject_Z (Z.of_nat b))) as Hle.
    rewrite <- Zle_Qle in Hle. lia.
  - destruct b as [|b]; [lia|].
    unfold Qdiv, Qinv, Qmult, inject_Z.
    change (Z.of_nat (S b)) with (Z.pos (Pos.of_succ_nat b)).
    cbn [Qnum Qden]. lia.
Qed.

(** What [decodeAudioData] returns when the bytes hold at least one frame. *)
Lemma decodeAudioData_inr (data : list byte) (rate : Z) (nc : nat) :
  (1 <= nc <= 32)%nat ->
  Nat.even (length data) = true ->
  (2 * nc <= length data)%nat ->
  exists b,
    decodeAudioData data rate nc = inr b
    /\ numberOfChannels b = nc
    /\ sampleRate b = rate
    /\ frames b = (length data / (2 * nc))%nat
    /\ length (channelData b) = nc
    /\ forall c, (c < nc)%nat ->
         exists chan,
           channelData b !! c = Some chan
           /\ length chan = frames b
           /\ forall i, (i < frames b)%nat ->
                chan !! i = Some (decoded_sample (int16_pairs data) nc c i).
Proof.
  intros Hnc Hev Hlen.
  unfold decodeAudioData, Int16Array_of_buffer. rewrite Hev.
  rewrite int16_pairs_length.
  unfold createBuffer. rewrite trunc_ratio by lia. rewrite Nat2Z.id.
  assert (Hfr : (length data / 2 / nc = length data / (2 * nc))%nat)
    by (rewrite Nat.Div0.div_div; reflexivity).
  assert (Hpos : (0 < length data / (2 * nc))%nat).
  { apply Nat.div_str_pos. lia. }
  destruct (Nat.eqb_spec nc 0) as [?|_]; [lia|].
  destruct (Nat.ltb_spec 32 nc) as [?|_]; [lia|].
  destruct (Nat.eqb_spec (length data / 2 / nc) 0) as [?|_]; [lia|].
  cbn [orb]. eexists. split; [reflexivity|]. cbn [numberOfChannels sampleRate frames channelData].
  repeat split; try assumption; try reflexivity.
  - rewrite length_imap, length_replicate. reflexivity.
  - intros c Hc. eexists. split.
    + rewrite list_lookup_imap, lookup_replicate_2 by assumption. reflexivity.
    + split.
      * rewrite fill_length, length_replicate. reflexivity.
      * intros i Hi. rewrite fill_lookup.
        pose proof (iterations_ratio (length data / 2) nc ltac:(lia)) as Hit.
        destruct (decide _) as [_|Hn]; [|lia].
        rewrite lookup_replicate_2 by assumption. reflexivity.
Qed.

(** A decoded buffer is one the platform could have built. *)
Lemma decodeAudioData_wf (data : list byte) (rate : Z) (nc : nat) (b : AudioBuffer) :
  decodeAudioData data rate nc = inr b -> wf_AudioBuffer b.
Proof.
  unfold decodeAudioData, createBuffer.
  destruct (Int16Array_of_buffer data) as [dataInt16|]; [|discriminate].
  set (fc := (inject_Z (Z.of_nat (length dataInt16)) / inject_Z (Z.of_nat nc))%Q).
  destruct (Nat.eqb_spec nc 0) as [?|Hnz]; [discriminate|].
  destruct (Nat.ltb_spec 32 nc) as [?|Hle]; [discriminate|].
  destruct (Nat.eqb_spec (Z.to_nat (trunc fc)) 0) as [?|Hfr]; [discriminate|].
  cbn [orb]. intros H. injection H as <-.
  unfold wf_AudioBuffer. cbn [numberOfChannels frames channelData].
  split; [lia|]. split; [lia|].
  split; [rewrite length_imap, length_replicate; reflexivity|].
  apply Forall_lookup. intros c chan Hc.
  rewrite list_lookup_imap in Hc.
  destruct (replicate nc (replicate (Z.to_nat (trunc fc)) 0%Q) !! c) as [z|] eqn:Hz;
    [|discriminate].
  apply lookup_replicate in Hz. destruct Hz as [-> _].
  cbn in Hc. injection Hc as <-.
  rewrite fill_length, length_replicate. reflexivity.
Qed.

(** Every read the loop makes below the channel length is inside
    [dataInt16]: the [undefined] case of [decoded_sample] is never stored. *)
Lemma decode_reads_in_range (data : list byte) (nc c i : nat) :
  (c < nc)%nat ->
  (i < length data / (2 * nc))%nat ->
  exists lo hi,
    data !! (2 * (i * nc + c))%nat = Some lo
    /\ data !! (2 * (i * nc + c) + 1)%nat = Some hi
    /\ decoded_sample (int16_pairs data) nc c i
       = (inject_Z (le_int16 lo hi) / 32768)%Q.
Proof.
  intros Hc Hi.
  assert (Hidx : (2 * (i * nc + c) + 1 < length data)%nat).
  { pose proof (Nat.Div0.mul_div_le (length data) (2 * nc)) as Hm.
    nia. }
  destruct (lookup_lt_is_Some_2 data (2 * (i * nc + c)) ltac:(lia)) as [lo Hlo].
  destruct (lookup_lt_is_Some_2 data (2 * (i * nc + c) + 1) ltac:(lia)) as [hi Hhi].
  exists lo, hi. repeat split; try assumption.
  unfold decoded_sample.
  rewrite (int16_pairs_lookup data (i * nc + c) lo hi Hlo Hhi). reflexivity.
Qed.

End Decode.

(** ** Truncation *)

Section Truncation.
Import Js.

Lemma trunc_nonneg (q : Q) :
  (0 <= q)%Q ->
  0 <= trunc q /\ (inject_Z (trunc q) <= q)%Q /\ (q < inject_Z (trunc q) + 1)%Q.
Proof.
  destruct q as [n d]. unfold Qle, Qlt, trunc, Qplus, inject_Z. cbn [Qnum Qden].
  intros Hn. rewrite Z.mul_1_r in Hn. cbn in Hn.
  rewrite Z.quot_div_nonneg by lia.
  pose proof (Z.div_mod n (Z.pos d) ltac:(lia)) as E.
  pose proof (Z.mod_pos_bound n (Z.pos d) ltac:(lia)) as B.
  assert (0 <= n / Z.pos d) by (apply Z.div_pos; lia).
  repeat split; try assumption; cbn; nia.
Qed.

Lemma trunc_nonpos (q : Q) :
  (q <= 0)%Q ->
  trunc q <= 0 /\ (q <= inject_Z (trunc q))%Q /\ (inject_Z (trunc q) - 1 < q)%Q.
Proof.
  destruct q as [n d]. unfold Qle, Qlt, trunc, Qminus, Qplus, Qopp, inject_Z.
  cbn [Qnum Qden].
  intros Hn. rewrite Z.mul_1_r in Hn. cbn in Hn.
  assert (Eq : n ÷ Z.pos d = - ((- n) / Z.pos d)).
  { rewrite <- (Z.opp_involutive n) at 1. rewrite Z.quot_opp_l by lia.
    rewrite Z.quot_div_nonneg by lia. reflexivity. }
  rewrite Eq.
  pose proof (Z.div_mod (- n) (Z.pos d) ltac:(lia)) as E.
  pose proof (Z.mod_pos_bound (- n) (Z.pos d) ltac:(lia)) as B.
  assert (0 <= (- n) / Z.pos d) by (apply Z.div_pos; lia).
  repeat split; cbn; nia.
Qed.

(** Scaling by 32768 and truncating stays within the 16-bit range exactly
    when the sample is below one. *)
Lemma ToInt16_scaled (x : Q) :
  (-1 <= x)%Q -> (x < 1)%Q ->
  ToInt16 (x * 32768) = trunc (x * 32768)
  /\ -32768 <= trunc (x * 32768) < 32768
  /\ (Qabs (inject_Z (ToInt16 (x * 32768)) / 32768 - x) <= 1 # 32768)%Q.
Proof.
  intros Hlo Hhi.
  assert (R : -32768 <= trunc (x * 32768) < 32768
              /\ (inject_Z (trunc (x * 32768)) - 1 < x * 32768)%Q
              /\ (x * 32768 < inject_Z (trunc (x * 32768)) + 1)%Q).
  { destruct (Qlt_le_dec x 0) as [Hneg|Hpos].
    - destruct (trunc_nonpos (x * 32768)) as (T0 & T1 & T2); [lra|].
      assert (B : (inject_Z (-32769) < inject_Z (trunc (x * 32768)))%Q)
        by (change (inject_Z (-32769)) with (-32769 # 1); lra).
      rewrite <- Zlt_Qlt in B.
      repeat split; try lia; try lra.
    - destruct (trunc_nonneg (x * 32768)) as (T0 & T1 & T2); [lra|].
      assert (B : (inject_Z (trunc (x * 32768)) < inject_Z 32768)%Q)
        by (change (inject_Z 32768) with (32768 # 1); lra).
      rewrite <- Zlt_Qlt in B.
      repeat split; try lia; try lra. }
  destruct R as (Rz & R1 & R2).
  unfold ToInt16. rewrite wrap16_id by assumption.
  repeat split; try lia.
  assert (E : (inject_Z (trunc (x * 32768)) / 32768 * 32768
               == inject_Z (trunc (x * 32768)))%Q) by field.
  set (y := (inject_Z (trunc (x * 32768)) / 32768)%Q) in *.
  apply Qabs_Qle_condition. split; lra.
Qed.

End Truncation.

(** ** The PCM decoder *)

Section DecodeContract.
Import Js Codec.

Lemma decodeAudioData_odd (data : list byte) (rate : Z) (nc : nat) :
  Nat.odd (length data) = true ->
  decodeAudioData data rate nc = inl RangeError.
Proof.
  intros Hodd. unfold decodeAudioData, Int16Array_of_buffer.
  rewrite <- Nat.negb_odd, Hodd. reflexivity.
Qed.

Lemma decodeAudioData_no_frame (data : list byte) (rate : Z) (nc : nat) :
  Nat.even (length data) = true ->
  (length data < 2 * nc)%nat ->
  decodeAudioData data rate nc = inl NotSupportedError.
Proof.
  intros Hev Hlt. unfold decodeAudioData, Int16Array_of_buffer. rewrite Hev.
  rewrite int16_pairs_length. unfold createBuffer.
  destruct (Nat.eqb_spec nc 0) as [->|Hnz]; [reflexivity|].
  rewrite trunc_ratio by lia. rewrite Nat2Z.id.
  assert (Hz : (length data / 2 / nc = 0)%nat).
  { apply Nat.div_small. apply Nat.Div0.div_lt_upper_bound. lia. }
  rewrite Hz. cbn. rewrite orb_true_r. reflexivity.
Qed.

(** C8, as the code has it.  For a channel count between 1 and 32:
    an odd byte length fails (the 16-bit view raises [RangeError]); an even
    length that holds no complete frame, the empty sequence included, fails
    ([createBuffer] raises [NotSupportedError]); every other even length is
    decoded, also when it is not a multiple of 2 x channelCount, into a
    buffer of [length / (2 x channelCount)] frames (rounded down) whose
    sample [i] of channel [c] is the little-endian signed 16-bit value at
    bytes [2(i x channelCount + c)] and the next, divided by 32768. *)
Theorem decodeAudioData_contract (data : list byte) (rate : Z) (nc : nat) :
  (1 <= nc <= 32)%nat ->
  (Nat.odd (length data) = true ->
     decodeAudioData data rate nc = inl RangeError)
  /\ (Nat.even (length data) = true -> (length data < 2 * nc)%nat ->
        decodeAudioData data rate nc = inl NotSupportedError)
  /\ (Nat.even (length data) = true -> (2 * nc <= length data)%nat ->
        exists b,
          decodeAudioData data rate nc = inr b
          /\ numberOfChannels b = nc
          /\ frames b = (length data / (2 * nc))%nat
          /\ forall c i, (c < nc)%nat -> (i < frames b)%nat ->
               exists lo hi,
                 data !! (2 * (i * nc + c))%nat = Some lo
                 /\ data !! (2 * (i * nc + c) + 1)%nat = Some hi
                 /\ getChannelData b c !! i
                    = Some (inject_Z (le_int16 lo hi) / 32768)%Q).
Proof.
  intros Hnc. split; [apply decodeAudioData_odd|].
  split; [apply decodeAudioData_no_frame|].
  intros Hev Hlen.
  destruct (decodeAudioData_inr data rate nc Hnc Hev Hlen)
    as (b & Hb & Hn & _ & Hf & _ & Hch).
  exists b. repeat split; try assumption.
  intros c i Hc Hi.
  destruct (Hch c Hc) as (chan & Hchan & _ & Hs).
  rewrite Hf in Hi.
  destruct (decode_reads_in_range data nc c i Hc Hi) as (lo & hi & Hlo & Hhi & E).
  exists lo, hi. repeat split; try assumption.
  unfold getChannelData. rewrite Hchan. cbn.
  rewrite Hs by (rewrite Hf; assumption). rewrite E. reflexivity.
Qed.

(** Four bytes, one channel: two frames, 0 and 32767/32768. *)
Lemma decodeAudioData_contract_witness :
  exists b,
    decodeAudioData [Byte.x00; Byte.x00; Byte.xff; Byte.x7f] 24000 1 = inr b
    /\ frames b = 2%nat
    /\ getChannelData b 0 !! 1%nat = Some (inject_Z 32767 / 32768)%Q.
Proof.
  destruct (decodeAudioData_contract
              [Byte.x00; Byte.x00; Byte.xff; Byte.x7f] 24000 1 ltac:(lia))
    as (_ & _ & H).
  destruct (H eq_refl ltac:(cbn; lia)) as (b & Hb & _ & Hf & Hs).
  exists b. split; [exact Hb|]. split; [exact Hf|].
  destruct (Hs 0%nat 1%nat ltac:(lia) ltac:(rewrite Hf; cbn; lia))
    as (lo & hi & Hlo & Hhi & E).
  cbn in Hlo, Hhi. injection Hlo as <-. injection Hhi as <-. exact E.
Defined.

(** C8 as stated fails twice: six bytes are not a multiple of 2 x 2, yet
    two channels decode them into one frame without an error; and the empty
    sequence, whose length is a multiple of 2 x 1, is rejected. *)
Lemma decodeAudioData_length_not_checked :
  (exists b,
     decodeAudioData [Byte.x01; Byte.x00; Byte.x02; Byte.x00; Byte.x03; Byte.x00]
                     24000 2 = inr b
     /\ frames b = 1%nat)
  /\ (6 mod (2 * 2) <> 0)%nat
  /\ decodeAudioData [] 24000 1 = inl NotSupportedError
  /\ (0 mod (2 * 1) = 0)%nat.
Proof.
  split; [eexists; split; reflexivity|].
  split; [cbn; lia|]. split; reflexivity.
Qed.

End DecodeContract.

(** ** Encoding then decoding *)

Section RoundTrip.
Import Js Codec.

Lemma createPcmBlob_int16_map (data : list Q) :
  createPcmBlob_int16 data = map (fun x => ToInt16 (x * 32768)) data.
Proof.
  unfold createPcmBlob_int16.
  apply (fill_replicate data 0%Q 0 (fun x => ToInt16 (x * 32768))).
Qed.

Lemma createPcmBlob_int16_range (data : list Q) :
  Forall (fun v => -32768 <= v < 32768) (createPcmBlob_int16 data).
Proof.
  rewrite createPcmBlob_int16_map. apply Forall_forall.
  intros v Hv. change (v ∈ (fun x => ToInt16 (x * 32768)) <$> data) in Hv.
  apply list_elem_of_fmap in Hv.
  destruct Hv as (x & -> & _). apply wrap16_range.
Qed.

(** Decoding what [createPcmBlob] encoded, mono: sample by sample, the
    stored 16-bit value over 32768. *)
Lemma decode_createPcmBlob (data : list Q) (rate : Z) :
  data <> [] ->
  exists b,
    decodeAudioData (createPcmBlob_bytes data) rate 1 = inr b
    /\ getChannelData b 0
       = map (fun x => (inject_Z (ToInt16 (x * 32768)) / 32768)%Q) data.
Proof.
  intros Hne.
  assert (Hlen : length (createPcmBlob_bytes data) = (2 * length data)%nat).
  { unfold createPcmBlob_bytes. rewrite Uint8Array_of_int16_length.
    rewrite createPcmBlob_int16_map, length_map. reflexivity. }
  assert (Hpos : (0 < length data)%nat) by (destruct data; [congruence | cbn; lia]).
  destruct (decodeAudioData_inr (createPcmBlob_bytes data) rate 1)
    as (b & Hb & _ & _ & Hf & _ & Hch).
  { lia. }
  { rewrite Hlen. apply Nat.even_spec. exists (length data). lia. }
  { lia. }
  exists b. split; [exact Hb|].
  destruct (Hch 0%nat ltac:(lia)) as (chan & Hchan & Hl & Hs).
  unfold getChannelData. rewrite Hchan. cbn.
  rewrite Hlen in Hf.
  assert (Hfr : frames b = length data).
  { rewrite Hf. change (2 * 1)%nat with 2%nat.
    rewrite Nat.mul_comm. apply Nat.div_mul. lia. }
  apply list_eq. intros i. rewrite list_lookup_fmap.
  destruct (decide (i < length data)%nat) as [Hi|Hi].
  - rewrite Hs by lia. unfold decoded_sample, createPcmBlob_bytes.
    rewrite int16_pairs_of_bytes by apply createPcmBlob_int16_range.
    rewrite createPcmBlob_int16_map, list_lookup_fmap.
    rewrite Nat.mul_1_r, Nat.add_0_r.
    destruct (lookup_lt_is_Some_2 data i Hi) as [x ->]. reflexivity.
  - rewrite (lookup_ge_None_2 chan i) by lia.
    rewrite (lookup_ge_None_2 data i) by lia. reflexivity.
Qed.

(** Below one the round trip is within a quantisation step. *)
Lemma roundtrip_below_one (data : list Q) (rate : Z) :
  data <> [] ->
  Forall (fun x => (-1 <= x)%Q /\ (x < 1)%Q) data ->
  exists b,
    decodeAudioData (createPcmBlob_bytes data) rate 1 = inr b
    /\ length (getChannelData b 0) = length data
    /\ forall i x y, data !! i = Some x -> getChannelData b 0 !! i = Some y ->
         (Qabs (y - x) <= 1 # 32768)%Q.
Proof.
  intros Hne Hrange.
  destruct (decode_createPcmBlob data rate Hne) as (b & Hb & Hch).
  exists b. split; [exact Hb|]. rewrite Hch. split; [apply length_map|].
  intros i x y Hx Hy. rewrite list_lookup_fmap, Hx in Hy. cbn in Hy.
  injection Hy as <-.
  rewrite Forall_lookup in Hrange.
  destruct (Hrange i x Hx) as [Hlo Hhi].
  apply (ToInt16_scaled x Hlo Hhi).
Qed.

(** C6 fails at the sample 1.0, which lies in [-1, 1]: [createPcmBlob]
    computes 1.0 x 32768 = 32768, the 16-bit store wraps it to -32768, and
    decoding gives -1.0, two whole units away from the input. *)
Theorem roundtrip_breaks_at_one :
  createPcmBlob_bytes [1%Q] = [Byte.x00; Byte.x80]
  /\ exists b y,
       decodeAudioData (createPcmBlob_bytes [1%Q]) LIVE_AUDIO_SAMPLE_RATE 1 = inr b
       /\ getChannelData b 0 = [y]
       /\ (y == -1)%Q
       /\ ~ (Qabs (y - 1) <= 1 # 32768)%Q.
Proof.
  split; [reflexivity|].
  exists {| numberOfChannels := 1; sampleRate := 16000; frames := 1;
            channelData := [[(-32768 # 32768)%Q]] |}, (-32768 # 32768)%Q.
  split; [reflexivity|]. split; [reflexivity|]. split; [reflexivity|].
  intros H. apply Qabs_Qle_condition in H. destruct H as [H _].
  revert H. unfold Qle. cbn. lia.
Qed.

End RoundTrip.

(** ** The 16-bit PCM writer *)

Section PcmWriter.
Import Js Codec Wav.

Lemma clamp_clamped (x : Q) : clamp x = Claimed.clamped x.
Proof.
  unfold clamp, Claimed.clamped, Qmax, Qmin, GenericMinMax.gmax, GenericMinMax.gmin.
  destruct (Qlt_le_dec (-1) x) as [L|L]; [destruct (Qlt_le_dec x 1) as [U|U]|].
  - assert (E1 : (1 ?= x)%Q = Gt) by (apply Qgt_alt; exact U). rewrite E1.
    assert (E2 : (-1 ?= x)%Q = Lt) by (apply Qlt_alt; exact L). rewrite E2.
    reflexivity.
  - destruct (1 ?= x)%Q eqn:E1;
      try (apply Qgt_alt in E1; lra); reflexivity.
  - assert (E1 : (1 ?= x)%Q = Gt) by (apply Qgt_alt; lra). rewrite E1.
    destruct (-1 ?= x)%Q eqn:E2;
      try (apply Qlt_alt in E2; lra); reflexivity.
Qed.

Lemma clamped_range (x : Q) : (-1 <= Claimed.clamped x <= 1)%Q.
Proof.
  unfold Claimed.clamped.
  destruct (Qlt_le_dec (-1) x); [destruct (Qlt_le_dec x 1)|]; lra.
Qed.

Lemma scale_cases (s : Q) :
  scale s = if Qlt_le_dec s 0 then (s * 32768)%Q else (s * 32767)%Q.
Proof.
  unfold scale. destruct (Qlt_le_dec s 0) as [L|L].
  - assert (E : (s ?= 0)%Q = Lt) by (apply Qlt_alt; exact L). rewrite E. reflexivity.
  - destruct (s ?= 0)%Q eqn:E; try (apply Qlt_alt in E; lra); reflexivity.
Qed.

Lemma pcm16_value_range (x : Q) : -32768 <= Claimed.pcm16_value x <= 32767.
Proof.
  unfold Claimed.pcm16_value. cbv zeta.
  pose proof (clamped_range x) as [Hlo Hhi].
  set (s := Claimed.clamped x) in *.
  destruct (Qlt_le_dec s 0) as [L|L].
  - destruct (trunc_nonpos (s * 32768)) as (T0 & T1 & T2); [lra|].
    assert (B : (inject_Z (-32769) < inject_Z (trunc (s * 32768)))%Q)
      by (change (inject_Z (-32769)) with (-32769 # 1); lra).
    rewrite <- Zlt_Qlt in B. lia.
  - destruct (trunc_nonneg (s * 32767)) as (T0 & T1 & T2); [lra|].
    assert (B : (inject_Z (trunc (s * 32767)) <= inject_Z 32767)%Q)
      by (change (inject_Z 32767) with (32767 # 1); lra).
    rewrite <- Zle_Qle in B. lia.
Qed.

(** The integer [setInt16] stores for a sample. *)
Lemma ToInt16_scale_clamp (x : Q) :
  ToInt16 (scale (clamp x)) = Claimed.pcm16_value x.
Proof.
  rewrite clamp_clamped, scale_cases.
  change (wrap16 (Claimed.pcm16_value x) = Claimed.pcm16_value x).
  apply wrap16_id. pose proof (pcm16_value_range x) as H. lia.
Qed.

Lemma setInt16_zone (pre post : list byte) (a b : byte) (x : Q) :
  setInt16 (pre ++ a :: b :: post) (length pre) x
  = Some (pre ++ int16_bytes (ToInt16 x) ++ post).
Proof.
  unfold setInt16.
  destruct (Nat.leb_spec (length pre + 2) (length (pre ++ a :: b :: post))) as [_|H].
  - f_equal.
    rewrite <- (Nat.add_0_r (length pre)) at 2.
    rewrite !insert_app_r. reflexivity.
  - rewrite length_app in H. cbn in H. lia.
Qed.

(** [floatTo16BitPCM] over a region of the right size replaces it with the
    encoded samples and touches nothing else. *)
Lemma floatTo16BitPCM_zone (input : list Q) :
  forall (pre zone post : list byte),
    length zone = (2 * length input)%nat ->
    floatTo16BitPCM (pre ++ zone ++ post) (length pre) input
    = Some (pre ++ Claimed.pcm16 input ++ post).
Proof.
  induction input as [|x rest IH]; intros pre zone post Hlen.
  - destruct zone; [reflexivity | cbn in Hlen; lia].
  - destruct zone as [|a [|b zone]]; try (cbn in Hlen; lia).
    cbn [floatTo16BitPCM app].
    rewrite setInt16_zone. cbn [mbind option_bind].
    rewrite ToInt16_scale_clamp.
    replace (length pre + 2)%nat
      with (length (pre ++ int16_bytes (Claimed.pcm16_value x)))
      by (rewrite length_app; reflexivity).
    replace (pre ++ int16_bytes (Claimed.pcm16_value x) ++ zone ++ post)
      with ((pre ++ int16_bytes (Claimed.pcm16_value x)) ++ zone ++ post)
      by (rewrite <- app_assoc; reflexivity).
    rewrite IH by (cbn in Hlen; lia).
    rewrite <- app_assoc. reflexivity.
Qed.

Lemma pcm16_length (input : list Q) :
  length (Claimed.pcm16 input) = (2 * length input)%nat.
Proof.
  induction input as [|x rest IH]; [reflexivity|].
  unfold Claimed.pcm16 in *. cbn [flat_map int16_bytes app length].
  rewrite IH. lia.
Qed.

Lemma createPcmBlob_bytes_flat (data : list Q) :
  createPcmBlob_bytes data
  = flat_map (fun x => int16_bytes (ToInt16 (x * 32768))) data.
Proof.
  unfold createPcmBlob_bytes. rewrite createPcmBlob_int16_map.
  unfold Uint8Array_of_int16.
  induction data as [|x rest IH]; [reflexivity|].
  cbn [map flat_map]. rewrite IH. reflexivity.
Qed.

End PcmWriter.

Section PcmEncodings.
Import Js Codec Wav.

(** C7, as the code has it.  [floatTo16BitPCM] (the WAV path) clamps each
    sample to [-1, 1], scales it by 0x7FFF when it is non-negative and by
    0x8000 when it is negative, cuts the product to an integer and writes it
    little-endian as a signed 16-bit value, two bytes per sample, leaving
    the rest of the buffer as it was.  [createPcmBlob] (the capture path)
    also writes two bytes per sample, little-endian, but has no clamping
    step and one scale: for a sample in [-1, 1) it stores the sample times
    0x8000, cut to an integer. *)
Theorem float_to_pcm16_encodings :
  (forall (input : list Q) (pre zone post : list byte),
      length zone = (2 * length input)%nat ->
      floatTo16BitPCM (pre ++ zone ++ post) (length pre) input
      = Some (pre ++ Claimed.pcm16 input ++ post))
  /\ (forall input : list Q,
        length (Claimed.pcm16 input) = (2 * length input)%nat)
  /\ (forall x : Q,
        -32768 <= Claimed.pcm16_value x <= 32767
        /\ exists lo hi, int16_bytes (Claimed.pcm16_value x) = [lo; hi]
                         /\ le_int16 lo hi = Claimed.pcm16_value x)
  /\ (forall data : list Q,
        createPcmBlob_bytes data
        = flat_map (fun x => int16_bytes (ToInt16 (x * 32768))) data
        /\ length (createPcmBlob_bytes data) = (2 * length data)%nat)
  /\ (forall x : Q, (-1 <= x)%Q -> (x < 1)%Q ->
        ToInt16 (x * 32768) = trunc (x * 32768)
        /\ exists lo hi, int16_bytes (ToInt16 (x * 32768)) = [lo; hi]
                         /\ le_int16 lo hi = trunc (x * 32768)).
Proof.
  split; [intros; apply floatTo16BitPCM_zone; assumption|].
  split; [apply pcm16_length|].
  split.
  { intros x. pose proof (pcm16_value_range x) as R. split; [exact R|].
    eexists _, _. split; [reflexivity|]. apply le_int16_bytes. lia. }
  split.
  { intros data. split; [apply createPcmBlob_bytes_flat|].
    unfold createPcmBlob_bytes. rewrite Uint8Array_of_int16_length.
    rewrite createPcmBlob_int16_map, length_map. reflexivity. }
  intros x Hlo Hhi.
  destruct (ToInt16_scaled x Hlo Hhi) as (E & R & _).
  split; [exact E|]. eexists _, _. split; [reflexivity|].
  rewrite E. apply le_int16_bytes. exact R.
Qed.

(** Two samples written into a buffer of six bytes, from offset 1. *)
Lemma float_to_pcm16_encodings_witness :
  floatTo16BitPCM
    ([Byte.xaa] ++ [Byte.x00; Byte.x00; Byte.x00; Byte.x00] ++ [Byte.xbb])
    (length [Byte.xaa]) [1%Q; (-1)%Q]
  = Some ([Byte.xaa] ++ Claimed.pcm16 [1%Q; (-1)%Q] ++ [Byte.xbb])
  /\ ToInt16 ((-1 # 3) * 32768) = trunc ((-1 # 3) * 32768).
Proof.
  split.
  - apply (proj1 float_to_pcm16_encodings
             [1%Q; (-1)%Q] [Byte.xaa]
             [Byte.x00; Byte.x00; Byte.x00; Byte.x00] [Byte.xbb]).
    reflexivity.
  - apply (proj2 (proj2 (proj2 (proj2 float_to_pcm16_encodings))) (-1 # 3)%Q).
    + unfold Qle. cbn. lia.
    + unfold Qlt. cbn. lia.
Defined.

(** C7 as stated fails on the capture path: for the sample 1/2 the claimed
    encoding is 16383 (bytes ff 3f) and [createPcmBlob] stores 16384
    (bytes 00 40). *)
Lemma createPcmBlob_other_scale :
  Claimed.pcm16 [(1 # 2)%Q] = [Byte.xff; Byte.x3f]
  /\ createPcmBlob_bytes [(1 # 2)%Q] = [Byte.x00; Byte.x40]
  /\ createPcmBlob_bytes [(1 # 2)%Q] <> Claimed.pcm16 [(1 # 2)%Q].
Proof.
  split; [reflexivity|]. split; [reflexivity|].
  intros H. vm_compute in H. discriminate H.
Qed.

End PcmEncodings.

(** ** The WAV container *)

Section WavLayout.
Import Js Codec Wav.

Lemma wf_channel_length (b : AudioBuffer) :
  wf_AudioBuffer b -> length (getChannelData b 0) = frames b.
Proof.
  intros (Hnc & _ & Hlen & Hall). unfold getChannelData.
  destruct (channelData b) as [|chan rest]; [cbn in Hlen; lia|].
  cbn. inversion Hall; assumption.
Qed.

(** The bytes [encodeWAV] produces: the header, then the samples of
    channel 0. *)
Lemma encodeWAV_bytes (b : AudioBuffer) :
  encodeWAV b
  = Some (Claimed.wav_header (Z.of_nat (numberOfChannels b)) (sampleRate b)
                             (Z.of_nat (length (getChannelData b 0) * 2))
          ++ Claimed.pcm16 (getChannelData b 0)).
Proof.
  pose proof (floatTo16BitPCM_zone (getChannelData b 0)
                (Claimed.wav_header (Z.of_nat (numberOfChannels b)) (sampleRate b)
                   (Z.of_nat (length (getChannelData b 0) * 2)))
                (replicate (length (getChannelData b 0) * 2) Byte.x00) [])
    as H.
  rewrite !app_nil_r in H.
  rewrite length_replicate in H. specialize (H ltac:(lia)).
  unfold encodeWAV. cbv zeta.
  set (samples := getChannelData b 0) in *.
  set (nc := Z.of_nat (numberOfChannels b)) in *.
  set (rate := sampleRate b) in *.
  set (n := (length samples * 2)%nat) in *.
  set (v1 := 36 + Z.of_nat n) in *.
  set (v2 := rate * nc * 2) in *.
  set (v3 := nc * 2) in *.
  set (v4 := Z.of_nat n) in *.
  change (replicate (44 + n) Byte.x00)
    with (replicate 44 Byte.x00 ++ replicate n Byte.x00).
  cbn -[byte_of_Z ToUint32 ToUint16 ToUint8 Z.div floatTo16BitPCM N_of_ascii
        Claimed.pcm16].
  exact H.
Qed.

(** C9.  For an audio buffer as the platform builds them, whose sizes fit
    the 32-bit fields of the format, [encodeWAV] emits a header of exactly
    44 bytes followed by the 16-bit PCM encoding of channel 0 only; the
    little-endian field at offset 4 holds 36 + dataLength, the one at
    offset 40 holds dataLength = 2 x frameCount, the byte rate at offset 28
    is sampleRate x channels x 2, the block align at offset 32 is
    channels x 2 and the bits per sample at offset 34 are 16. *)
Theorem encodeWAV_layout (b : AudioBuffer) :
  wf_AudioBuffer b ->
  0 <= sampleRate b ->
  sampleRate b * Z.of_nat (numberOfChannels b) * 2 < 4294967296 ->
  36 + 2 * Z.of_nat (frames b) < 4294967296 ->
  exists header : list byte,
    encodeWAV b = Some (header ++ Claimed.pcm16 (getChannelData b 0))
    /\ length header = 44%nat
    /\ length (Claimed.pcm16 (getChannelData b 0)) = (2 * frames b)%nat
    /\ getUint32 header 4 = Some (36 + 2 * Z.of_nat (frames b))
    /\ getUint32 header 40 = Some (2 * Z.of_nat (frames b))
    /\ getUint32 header 28 = Some (sampleRate b * Z.of_nat (numberOfChannels b) * 2)
    /\ getUint16 header 32 = Some (Z.of_nat (numberOfChannels b) * 2)
    /\ getUint16 header 34 = Some 16.
Proof.
  intros Hwf Hrate Hbyte Hlen.
  pose proof (wf_channel_length b Hwf) as Hch.
  destruct Hwf as (Hnc & Hfr & _ & _).
  eexists. split; [apply encodeWAV_bytes|].
  rewrite Hch.
  replace (Z.of_nat (frames b * 2)) with (2 * Z.of_nat (frames b)) by lia.
  split; [reflexivity|].
  split; [rewrite pcm16_length, Hch; reflexivity|].
  unfold getUint32, getUint16, Claimed.wav_header, Claimed.uint32_bytes,
    Claimed.uint16_bytes.
  cbn -[byte_of_Z ToUint32 ToUint16 ToUint8 Z.div N_of_ascii Z.mul Z.add Z.of_nat].
  unfold ToUint32, ToUint16.
  repeat split; f_equal.
  - rewrite le_uint32_bytes by (apply Z.mod_pos_bound; lia).
    apply Z.mod_small. lia.
  - rewrite le_uint32_bytes by (apply Z.mod_pos_bound; lia).
    apply Z.mod_small. lia.
  - rewrite le_uint32_bytes by (apply Z.mod_pos_bound; lia).
    apply Z.mod_small. lia.
  - rewrite le_uint16_bytes by (apply Z.mod_pos_bound; lia).
    apply Z.mod_small. lia.
Qed.

End WavLayout.

Lemma encodeWAV_layout_witness :
  exists header : list byte,
    Wav.encodeWAV {| Codec.numberOfChannels := 1; Codec.sampleRate := 24000;
                     Codec.frames := 3;
                     Codec.channelData := [[1%Q; (-1)%Q; (1 # 2)%Q]] |}
    = Some (header ++ [Byte.xff; Byte.x7f; Byte.x00; Byte.x80; Byte.xff; Byte.x3f])
    /\ length header = 44%nat
    /\ Wav.getUint32 header 4 = Some 42
    /\ Wav.getUint32 header 40 = Some 6
    /\ Wav.getUint32 header 28 = Some 48000
    /\ Wav.getUint16 header 32 = Some 2
    /\ Wav.getUint16 header 34 = Some 16.
Proof.
  destruct (encodeWAV_layout
              {| Codec.numberOfChannels := 1; Codec.sampleRate := 24000;
                 Codec.frames := 3;
                 Codec.channelData := [[1%Q; (-1)%Q; (1 # 2)%Q]] |})
    as (header & H0 & H1 & _ & H2 & H3 & H4 & H5 & H6).
  - repeat split; cbn; try lia. repeat constructor.
  - cbn. lia.
  - cbn. lia.
  - cbn. lia.
  - exists header. repeat split; assumption.
Defined.

(** ** The playback scheduler *)

Section Scheduler.
Import Js Codec Playback.
Variable atob : string -> option string.

Lemma Qmax_behind (c now : Q) : (now <= c)%Q -> Qmax c now = c.
Proof.
  intros H. unfold Qmax, GenericMinMax.gmax.
  destruct (c ?= now)%Q eqn:E; try reflexivity.
  apply Qlt_alt in E. lra.
Qed.

Lemma decodeAudioData_rate (data : list byte) (rate : Z) (nc : nat) (b : AudioBuffer) :
  decodeAudioData data rate nc = inr b -> sampleRate b = rate.
Proof.
  unfold decodeAudioData, createBuffer.
  destruct (Int16Array_of_buffer data); [|discriminate].
  destruct (_ || _)%bool; [discriminate|].
  intros H. injection H as <-. reflexivity.
Qed.

Lemma chunk_duration_nonneg (audio : string) (d : Q) :
  chunk_duration atob audio = Some d -> (0 <= d)%Q.
Proof.
  unfold chunk_duration. destruct audio as [|c r]; [discriminate|].
  destruct (decode atob (String c r)) as [data|]; [|discriminate].
  destruct (decodeAudioData data TTS_AUDIO_SAMPLE_RATE 1) as [|b] eqn:E; [discriminate|].
  intros H. injection H as <-.
  unfold duration. rewrite (decodeAudioData_rate _ _ _ _ E).
  unfold TTS_AUDIO_SAMPLE_RATE, Qdiv, Qmult, Qinv, Qle, inject_Z. cbn. lia.
Qed.

(** The three ways a call can go. *)
Lemma playAudio_empty (now : Q) (p : Player) :
  playAudio atob EmptyString now p = (None, p).
Proof. reflexivity. Qed.

Lemma playAudio_scheduled (audio : string) (now : Q) (p : Player) (d : Q) :
  chunk_duration atob audio = Some d ->
  playAudio atob audio now p
  = (None,
     {| nextStartTime := (Qmax (nextStartTime p) now + d)%Q;
        audioSources := audioSources p ∪ {[ created p ]};
        started := started p ++ [ {| source := created p;
                                     startAt := Qmax (nextStartTime p) now;
                                     playFor := d |} ];
        created := S (created p) |}).
Proof.
  unfold chunk_duration, playAudio. destruct audio as [|c r]; [discriminate|].
  destruct (decode atob (String c r)) as [data|]; [|discriminate].
  destruct (decodeAudioData data TTS_AUDIO_SAMPLE_RATE 1) as [|b]; [discriminate|].
  intros H. injection H as <-. reflexivity.
Qed.

Lemma playAudio_failed (audio : string) (now : Q) (p : Player) :
  audio <> EmptyString ->
  chunk_duration atob audio = None ->
  exists error,
    playAudio atob audio now p
    = (Some error,
       {| nextStartTime := Qmax (nextStartTime p) now;
          audioSources := audioSources p;
          started := started p;
          created := created p |}).
Proof.
  unfold chunk_duration, playAudio. destruct audio as [|c r]; [congruence|].
  intros _.
  destruct (decode atob (String c r)) as [data|];
    [|intros _; eexists; reflexivity].
  destruct (decodeAudioData data TTS_AUDIO_SAMPLE_RATE 1) as [e|b]; [|discriminate].
  intros _. eexists; reflexivity.
Qed.

Lemma in_order_snoc (l : list Scheduled) (s : Scheduled) :
  in_order l ->
  Forall (fun a => (endAt a <= startAt s)%Q) l ->
  in_order (l ++ [s]).
Proof.
  intros Hord Hall i j a b Hij Ha Hb.
  destruct (decide (j < length l)%nat) as [Hj|Hj].
  - rewrite lookup_app_l in Ha, Hb by lia. exact (Hord i j a b Hij Ha Hb).
  - assert (Hi : (i < length l)%nat).
    { apply lookup_lt_Some in Hb. rewrite length_app in Hb. cbn in Hb. lia. }
    rewrite lookup_app_l in Ha by lia.
    rewrite lookup_app_r in Hb by lia.
    destruct (j - length l)%nat as [|k] eqn:Ek; cbn in Hb; [|destruct k; discriminate].
    injection Hb as <-.
    rewrite Forall_lookup in Hall. exact (Hall i a Ha).
Qed.

Lemma playAudio_inv (audio : string) (now : Q) (p : Player) :
  scheduled_inv p -> scheduled_inv (snd (playAudio atob audio now p)).
Proof.
  intros [Hord Hend].
  destruct (chunk_duration atob audio) as [d|] eqn:Hd.
  - rewrite (playAudio_scheduled audio now p d Hd). cbn [snd].
    pose proof (chunk_duration_nonneg audio d Hd) as Hpos.
    pose proof (Q.le_max_l (nextStartTime p) now) as Hmax.
    split; cbn [started nextStartTime].
    + apply in_order_snoc; [assumption|].
      eapply Forall_impl; [exact Hend|]. cbn. intros a Ha. lra.
    + apply Forall_app. split.
      * eapply Forall_impl; [exact Hend|]. cbn. intros a Ha. lra.
      * constructor; [|constructor]. unfold endAt. cbn. lra.
  - destruct (decide (audio = EmptyString)) as [->|Hne].
    + rewrite playAudio_empty. split; assumption.
    + destruct (playAudio_failed audio now p Hne Hd) as [e ->]. cbn [snd].
      pose proof (Q.le_max_l (nextStartTime p) now) as Hmax.
      split; cbn [started nextStartTime]; [assumption|].
      eapply Forall_impl; [exact Hend|]. cbn. intros a Ha. lra.
Qed.

Lemma playAll_cons (c : string * Q) (rest : list (string * Q)) (p : Player) :
  playAll atob (c :: rest) p
  = playAll atob rest (snd (playAudio atob (fst c) (snd c) p)).
Proof. reflexivity. Qed.

Lemma playAll_inv (callsList : list (string * Q)) (p : Player) :
  scheduled_inv p -> scheduled_inv (playAll atob callsList p).
Proof.
  revert p. induction callsList as [|c rest IH]; intros p Hp; [exact Hp|].
  rewrite playAll_cons. apply IH, playAudio_inv, Hp.
Qed.

Lemma in_order_no_overlap (a b : Scheduled) :
  (endAt a <= startAt b)%Q -> ~ overlap a b.
Proof.
  intros H (t & _ & H1 & H2 & _). lra.
Qed.

(** Calls that all decode, made while the clock is behind the cursor. *)
Lemma playAll_back_to_back (callsList : list (string * Q)) (ds : list Q) :
  Forall2 (fun c d => chunk_duration atob (fst c) = Some d) callsList ds ->
  forall p : Player,
    clock_behind atob callsList p ->
    exists new : list Scheduled,
      started (playAll atob callsList p) = started p ++ new
      /\ map playFor new = ds
      /\ back_to_back (nextStartTime p) new
      /\ (nextStartTime (playAll atob callsList p) == nextStartTime p + total ds)%Q.
Proof.
  induction 1 as [|c d rest ds' Hd _ IH]; intros p Hclock.
  - exists []. cbn. rewrite app_nil_r. repeat split; try reflexivity. lra.
  - destruct Hclock as [Hnow Hrest].
    rewrite playAll_cons.
    rewrite (playAudio_scheduled (fst c) (snd c) p d Hd) in *. cbn [snd] in *.
    rewrite (Qmax_behind _ _ Hnow) in *.
    destruct (IH _ Hrest) as (new & Hst & Hmap & Hbb & Hcur).
    cbn [started nextStartTime] in *.
    exists ({| source := created p; startAt := nextStartTime p; playFor := d |} :: new).
    split; [rewrite Hst, <- app_assoc; reflexivity|].
    split; [cbn; rewrite Hmap; reflexivity|].
    split; [cbn; split; [reflexivity | exact Hbb]|].
    rewrite Hcur. change (total (d :: ds')) with (d + total ds')%Q. lra.
Qed.

(** C4.  A call that decodes starts its chunk at max(cursor, device clock
    now) and moves the cursor to the chunk's end.  Starting from cursor 0,
    under every clock behaviour (and whatever calls fail in between), a chunk
    scheduled later starts no earlier than the end of every chunk scheduled
    before it, so no two chunks sound at a common instant.  When all N calls
    decode, with durations d1..dN, and the device clock never passes the
    cursor, the chunks play back to back from 0 and the cursor ends at
    d1 + ... + dN. *)
Theorem playAudio_schedule :
  (forall (audio : string) (now : Q) (p : Player) (d : Q),
      chunk_duration atob audio = Some d ->
      exists p' : Player,
        playAudio atob audio now p = (None, p')
        /\ started p' = started p ++ [ {| source := created p;
                                          startAt := Qmax (nextStartTime p) now;
                                          playFor := d |} ]
        /\ nextStartTime p' = (Qmax (nextStartTime p) now + d)%Q)
  /\ (forall (callsList : list (string * Q)) (i j : nat) (a b : Scheduled),
        (i < j)%nat ->
        started (playAll atob callsList initial) !! i = Some a ->
        started (playAll atob callsList initial) !! j = Some b ->
        (endAt a <= startAt b)%Q /\ ~ overlap a b)
  /\ (forall (callsList : list (string * Q)) (ds : list Q),
        Forall2 (fun c d => chunk_duration atob (fst c) = Some d) callsList ds ->
        clock_behind atob callsList initial ->
        (nextStartTime (playAll atob callsList initial) == total ds)%Q
        /\ map playFor (started (playAll atob callsList initial)) = ds
        /\ back_to_back 0 (started (playAll atob callsList initial))).
Proof.
  split.
  { intros audio now p d Hd. eexists. split; [apply playAudio_scheduled, Hd|].
    split; reflexivity. }
  split.
  { intros callsList i j a b Hij Ha Hb.
    assert (Hinv : scheduled_inv (playAll atob callsList initial)).
    { apply playAll_inv. split; [intros ? ? ? ? _ H; cbn in H; discriminate|].
      constructor. }
    destruct Hinv as [Hord _].
    pose proof (Hord i j a b Hij Ha Hb) as Hle.
    split; [exact Hle | apply in_order_no_overlap, Hle]. }
  intros callsList ds Hds Hclock.
  destruct (playAll_back_to_back callsList ds Hds initial Hclock)
    as (new & Hst & Hmap & Hbb & Hcur).
  cbn [initial started nextStartTime app] in *.
  rewrite Hst. repeat split; try assumption.
  rewrite Hcur. lra.
Qed.


(** C10.  A call with the empty string returns without an error and leaves
    the whole scheduler state (cursor, active sources, started chunks) as it
    was. *)
Theorem playAudio_empty_noop (now : Q) (p : Player) :
  playAudio atob EmptyString now p = (None, p).
Proof.
  apply playAudio_empty.
Qed.

End Scheduler.

Section SchedulerExamples.
Import Codec Playback.
Local Open Scope string_scope.

(** Eight base64 characters that decode to six bytes of PCM: three frames. *)
Lemma playAudio_schedule_witness :
  (nextStartTime
     (playAll Platform.atob [("AAD/fwCA", 0%Q); ("AAD/fwCA", (1 # 16000)%Q)] initial)
   == total [(3 # 24000)%Q; (3 # 24000)%Q])%Q
  /\ back_to_back 0
       (started (playAll Platform.atob
                   [("AAD/fwCA", 0%Q); ("AAD/fwCA", (1 # 16000)%Q)] initial)).
Proof.
  destruct (playAudio_schedule Platform.atob) as (_ & _ & H).
  destruct (H [("AAD/fwCA", 0%Q); ("AAD/fwCA", (1 # 16000)%Q)]
              [(3 # 24000)%Q; (3 # 24000)%Q]) as (H1 & _ & H3).
  - repeat constructor.
  - cbn [clock_behind fst snd]. repeat split; apply Qle_bool_iff; vm_compute; reflexivity.
  - split; assumption.
Defined.



End SchedulerExamples.

(** ** The retry loop *)

Section RetryLoop.
Import Js Retry.
Context {World T : Type}.
Variable elapse : Z -> World -> World.
Variable fn : Operation (World:=World) T.
Variables maxRetries factor : Z.

(** One iteration, read off the definition. *)
Lemma retry_loop_resolved (fuel : nat) (retries delay : Z) (w w1 : World) (v : T) :
  fn w = (Resolved v, w1) ->
  retry_loop elapse (S fuel) fn maxRetries factor retries delay w
  = Some {| outcome := Resolved v; calls := 1; caught := [];
            sleeps := []; world_after := w1 |}.
Proof.
  intros H. cbn [retry_loop]. rewrite H. reflexivity.
Qed.

Lemma retry_loop_give_up (fuel : nat) (retries delay : Z) (w w1 : World) (e : JsError) :
  fn w = (Rejected e, w1) ->
  isRetryableError e = false \/ maxRetries <= retries ->
  retry_loop elapse (S fuel) fn maxRetries factor retries delay w
  = Some {| outcome := Rejected e; calls := 1; caught := [e];
            sleeps := []; world_after := w1 |}.
Proof.
  intros H Hstop. cbn [retry_loop]. rewrite H.
  destruct Hstop as [-> | Hmax]; [reflexivity|].
  apply Z.leb_le in Hmax. rewrite Hmax, orb_true_r. reflexivity.
Qed.

Lemma retry_loop_again (fuel : nat) (retries delay : Z) (w w1 : World) (e : JsError) :
  fn w = (Rejected e, w1) ->
  isRetryableError e = true ->
  retries < maxRetries ->
  retry_loop elapse (S fuel) fn maxRetries factor retries delay w
  = r ← retry_loop elapse fuel fn maxRetries factor (retries + 1)
                   (next_delay e delay factor)
                   (elapse (next_delay e delay factor) w1);
    Some {| outcome := outcome r; calls := S (calls r);
            caught := e :: caught r;
            sleeps := next_delay e delay factor :: sleeps r;
            world_after := world_after r |}.
Proof.
  intros H Hre Hlt. cbn [retry_loop]. rewrite H, Hre.
  apply Z.leb_gt in Hlt. rewrite Hlt. reflexivity.
Qed.

(** The loop ends within [maxRetries - retries + 1] iterations. *)
Lemma retry_loop_terminates (fuel : nat) :
  forall (retries delay : Z) (w : World),
    (Z.to_nat (maxRetries - retries) < fuel)%nat ->
    exists r,
      retry_loop elapse fuel fn maxRetries factor retries delay w = Some r
      /\ (calls r <= Z.to_nat (maxRetries - retries) + 1)%nat.
Proof.
  induction fuel as [|fuel IH]; intros retries delay w Hfuel; [lia|].
  destruct (fn w) as [[v|e] w1] eqn:Hfn.
  - rewrite (retry_loop_resolved _ _ _ _ _ _ Hfn). eexists. split; [reflexivity|].
    cbn. lia.
  - destruct (isRetryableError e) eqn:Hre.
    + destruct (Z_lt_le_dec retries maxRetries) as [Hlt|Hge].
      * rewrite (retry_loop_again _ _ _ _ _ _ Hfn Hre Hlt).
        destruct (IH (retries + 1) (next_delay e delay factor)
                     (elapse (next_delay e delay factor) w1)) as (r & Hr & Hc).
        { lia. }
        rewrite Hr. cbn. eexists. split; [reflexivity|]. cbn. lia.
      * rewrite (retry_loop_give_up _ _ _ _ _ _ Hfn (or_intror Hge)).
        eexists. split; [reflexivity|]. cbn. lia.
    + rewrite (retry_loop_give_up _ _ _ _ _ _ Hfn (or_introl Hre)).
      eexists. split; [reflexivity|]. cbn. lia.
Qed.

Lemma retry_loop_calls_pos (fuel : nat) (retries delay : Z) (w : World) (r : Run T) :
  retry_loop elapse fuel fn maxRetries factor retries delay w = Some r ->
  (1 <= calls r)%nat.
Proof.
  destruct fuel as [|fuel]; [discriminate|]. intros Hr.
  destruct (fn w) as [[v|e] w1] eqn:Hfn.
  - rewrite (retry_loop_resolved _ _ _ _ _ _ Hfn) in Hr. injection Hr as <-. cbn. lia.
  - destruct (isRetryableError e) eqn:Hre.
    + destruct (Z_lt_le_dec retries maxRetries) as [Hlt|Hge].
      * rewrite (retry_loop_again _ _ _ _ _ _ Hfn Hre Hlt) in Hr.
        destruct (retry_loop _ _ _ _ _ _ _ _) as [r'|]; [|discriminate].
        cbn in Hr. injection Hr as <-. cbn. lia.
      * rewrite (retry_loop_give_up _ _ _ _ _ _ Hfn (or_intror Hge)) in Hr.
        injection Hr as <-. cbn. lia.
    + rewrite (retry_loop_give_up _ _ _ _ _ _ Hfn (or_introl Hre)) in Hr.
      injection Hr as <-. cbn. lia.
Qed.

(** What a finished run recorded. *)
Lemma retry_loop_record (fuel : nat) :
  forall (retries delay : Z) (w : World) (r : Run T),
    retry_loop elapse fuel fn maxRetries factor retries delay w = Some r ->
    length (sleeps r) = pred (calls r)
    /\ (forall i e d,
          caught r !! i = Some e -> sleeps r !! i = Some d ->
          isRetryableError e = true
          /\ d = next_delay e (match i with
                               | O => delay
                               | S j => default 0 (sleeps r !! j)
                               end) factor)
    /\ match outcome r with
       | Resolved _ => length (caught r) = pred (calls r)
       | Rejected e =>
           length (caught r) = calls r
           /\ last (caught r) = Some e
           /\ (isRetryableError e = false
               \/ maxRetries <= retries + Z.of_nat (length (sleeps r)))
       end.
Proof.
  induction fuel as [|fuel IH]; intros retries delay w r Hr; [discriminate|].
  destruct (fn w) as [[v|e] w1] eqn:Hfn.
  - rewrite (retry_loop_resolved _ _ _ _ _ _ Hfn) in Hr. injection Hr as <-. cbn.
    repeat split; try reflexivity; intros; discriminate.
  - destruct (isRetryableError e) eqn:Hre.
    + destruct (Z_lt_le_dec retries maxRetries) as [Hlt|Hge].
      * rewrite (retry_loop_again _ _ _ _ _ _ Hfn Hre Hlt) in Hr.
        destruct (retry_loop elapse fuel fn maxRetries factor (retries + 1)
                    (next_delay e delay factor)
                    (elapse (next_delay e delay factor) w1)) as [r'|] eqn:Hr';
          [|discriminate].
        cbn in Hr. injection Hr as <-. cbn [outcome calls caught sleeps].
        destruct (IH _ _ _ _ Hr') as (Hlen & Hstep & Hout).
        pose proof (retry_loop_calls_pos _ _ _ _ _ Hr') as Hcalls.
        split; [cbn; lia|]. split.
        { intros i e0 d Hc Hs. destruct i as [|i]; cbn in Hc, Hs.
          - injection Hc as <-. injection Hs as <-. split; [exact Hre | reflexivity].
          - destruct (Hstep i e0 d Hc Hs) as [Hre0 Hd]. split; [exact Hre0|].
            rewrite Hd. destruct i as [|i]; reflexivity. }
        destruct (outcome r') as [v|e'].
        { cbn. lia. }
        destruct Hout as (Hl & Hlast & Hstop).
        split; [cbn; lia|]. split.
        { destruct (caught r') as [|c cs]; [discriminate | exact Hlast]. }
        destruct Hstop as [Hstop|Hstop]; [left; exact Hstop | right; cbn; lia].
      * rewrite (retry_loop_give_up _ _ _ _ _ _ Hfn (or_intror Hge)) in Hr.
        injection Hr as <-. cbn.
        repeat split; try reflexivity; try (intros; discriminate).
        right. lia.
    + rewrite (retry_loop_give_up _ _ _ _ _ _ Hfn (or_introl Hre)) in Hr.
      injection Hr as <-. cbn.
      repeat split; try reflexivity; try (intros; discriminate).
      left. exact Hre.
Qed.

End RetryLoop.

(** ** The retry ceiling *)

Section RetryCeiling.
Import Js Retry.
Context {World T : Type}.
Variable elapse : Z -> World -> World.

(** C1.  With [maxRetries = n >= 0] and any fuel above [n], [retry] returns
    and has invoked the operation at most [n + 1] times.  An operation that
    fails twice with a retryable error and then succeeds is, with
    [maxRetries = 3], invoked exactly 3 times and the call succeeds with its
    value.  An operation whose every attempt fails with a retryable error is,
    with [maxRetries = 1], invoked exactly twice and the call fails with the
    error the second invocation raised. *)
Theorem retry_hard_ceiling :
  (forall (fn : Operation T) (n initialDelayMs factor : Z) (w : World) (fuel : nat),
      0 <= n -> (Z.to_nat n < fuel)%nat ->
      exists r,
        retry elapse fuel fn n initialDelayMs factor w = Some r
        /\ Z.of_nat (calls r) <= n + 1)
  /\ (forall (fn : Operation T) (d f : Z) (w w1 w2 w3 : World) (fuel : nat)
             (e1 e2 : JsError) (v : T),
        (3 <= fuel)%nat ->
        fn w = (Rejected e1, w1) -> isRetryableError e1 = true ->
        fn (elapse (next_delay e1 d f) w1) = (Rejected e2, w2) ->
        isRetryableError e2 = true ->
        fn (elapse (next_delay e2 (next_delay e1 d f) f) w2) = (Resolved v, w3) ->
        exists r,
          retry elapse fuel fn 3 d f w = Some r
          /\ outcome r = Resolved v /\ calls r = 3%nat)
  /\ (forall (fn : Operation T) (d f : Z) (w : World) (fuel : nat),
        (2 <= fuel)%nat ->
        (forall w', exists e w'', fn w' = (Rejected e, w'')
                                  /\ isRetryableError e = true) ->
        exists r e1 w1 e2 w2,
          fn w = (Rejected e1, w1)
          /\ fn (elapse (next_delay e1 d f) w1) = (Rejected e2, w2)
          /\ retry elapse fuel fn 1 d f w = Some r
          /\ calls r = 2%nat
          /\ caught r = [e1; e2]
          /\ outcome r = Rejected e2).
Proof.
  split.
  { intros fn n d f w fuel Hn Hfuel.
    destruct (retry_loop_terminates elapse fn n f fuel 0 d w) as (r & Hr & Hc).
    { rewrite Z.sub_0_r. exact Hfuel. }
    exists r. split; [exact Hr|]. rewrite Z.sub_0_r in Hc. lia. }
  split.
  { intros fn d f w w1 w2 w3 fuel e1 e2 v Hfuel H1 R1 H2 R2 H3.
    destruct fuel as [|[|[|fuel]]]; try lia.
    unfold retry.
    rewrite (retry_loop_again elapse fn 3 f _ 0 d w w1 e1 H1 R1 ltac:(lia)).
    rewrite (retry_loop_again elapse fn 3 f _ (0 + 1) _ _ w2 e2 H2 R2 ltac:(lia)).
    rewrite (retry_loop_resolved elapse fn 3 f _ _ _ _ w3 v H3).
    cbn. eexists. repeat split; reflexivity. }
  intros fn d f w fuel Hfuel Hall.
  destruct (Hall w) as (e1 & w1 & H1 & R1).
  destruct (Hall (elapse (next_delay e1 d f) w1)) as (e2 & w2 & H2 & R2).
  destruct fuel as [|[|fuel]]; try lia.
  unfold retry.
  rewrite (retry_loop_again elapse fn 1 f _ 0 d w w1 e1 H1 R1 ltac:(lia)).
  rewrite (retry_loop_give_up elapse fn 1 f _ (0 + 1) _ _ w2 e2 H2 ltac:(right; lia)).
  cbn. eexists. exists e1, w1, e2, w2.
  split; [exact H1|]. split; [exact H2|]. split; [reflexivity|].
  repeat split.
Qed.

End RetryCeiling.

Section RetryCeilingExample.
Import Retry Scripted.

(** Under [maxRetries = 3]: two overloads, then the value 7.  Under
    [maxRetries = 1]: nothing but overloads. *)
Lemma retry_hard_ceiling_witness :
  (exists r,
     retry idle 5 (scripted [Rejected overloaded; Rejected overloaded] (Resolved 7%nat))
           3 1000 2 0%nat = Some r
     /\ Z.of_nat (calls r) <= 3 + 1)
  /\ (exists r,
        retry idle 5 (scripted [Rejected overloaded; Rejected overloaded] (Resolved 7%nat))
              3 1000 2 0%nat = Some r
        /\ outcome r = Resolved 7%nat /\ calls r = 3%nat)
  /\ (exists r e1 w1 e2 w2,
        scripted (T:=nat) [] (Rejected overloaded) 0%nat = (Rejected e1, w1)
        /\ scripted (T:=nat) [] (Rejected overloaded) (idle (next_delay e1 1000 2) w1)
           = (Rejected e2, w2)
        /\ retry idle 5 (scripted (T:=nat) [] (Rejected overloaded)) 1 1000 2 0%nat
           = Some r
        /\ calls r = 2%nat
        /\ caught r = [e1; e2]
        /\ outcome r = Rejected e2).
Proof.
  split; [|split].
  - apply (proj1 (retry_hard_ceiling idle)
             (scripted [Rejected overloaded; Rejected overloaded] (Resolved 7%nat))
             3 1000 2 0%nat 5%nat); [lia | cbn; lia].
  - apply (proj1 (proj2 (retry_hard_ceiling idle))
             (scripted [Rejected overloaded; Rejected overloaded] (Resolved 7%nat))
             1000 2 0%nat 1%nat 2%nat 3%nat 5%nat overloaded overloaded 7%nat);
      [lia | reflexivity ..].
  - apply (proj2 (proj2 (retry_hard_ceiling idle))
             (scripted (T:=nat) [] (Rejected overloaded)) 1000 2 0%nat 5%nat);
      [lia|].
    intros w'. exists overloaded, (S w'). split; [|reflexivity].
    unfold scripted. destruct w'; reflexivity.
Defined.

End RetryCeilingExample.

(** ** The delay before a retry *)

Section RetryDelay.
Import Js Retry.
Local Open Scope string_scope.

Lemma digit_run_whole (digits tail : string) :
  digits_only digits = true ->
  digit_run (digits ++ String "s" tail) = (digits, String "s" tail).
Proof.
  induction digits as [|c rest IH]; intros H.
  - reflexivity.
  - cbn in H. apply andb_true_iff in H. destruct H as [Hc Hrest].
    simpl. rewrite Hc, (IH Hrest). reflexivity.
Qed.

Lemma regex_here (s digits : string) :
  match_here s = Some digits -> regex_digits_s s = Some digits.
Proof.
  intros H. destruct s; cbn [regex_digits_s]; rewrite H; reflexivity.
Qed.

(** On a whole-second duration the pattern captures all the digits. *)
Lemma regex_whole_seconds (digits tail : string) :
  digits <> EmptyString ->
  digits_only digits = true ->
  regex_digits_s (digits ++ String "s" tail) = Some digits.
Proof.
  intros Hne Hd.
  assert (Hm : match_here (digits ++ String "s" tail) = Some digits).
  { unfold match_here. rewrite (digit_run_whole digits tail Hd).
    destruct digits; [congruence | reflexivity]. }
  apply regex_here, Hm.
Qed.

Lemma suggested_whole_seconds (e : JsError) (ds : list Detail) (info : Detail)
      (digits : string) :
  details e = Some ds ->
  List.find is_retry_info ds = Some info ->
  retryDelay info = Some (digits ++ "s") ->
  digits <> EmptyString ->
  digits_only digits = true ->
  suggested_seconds e = Some (parseInt digits).
Proof.
  intros Hds Hfind Hdelay Hne Hd. unfold suggested_seconds.
  rewrite Hds, Hfind, Hdelay.
  pose proof (regex_whole_seconds digits EmptyString Hne Hd) as Hre.
  destruct digits as [|c rest]; [congruence|].
  change (String c rest ++ "s") with (String c (rest ++ "s")) in *.
  cbv iota. rewrite Hre. reflexivity.
Qed.

Lemma next_delay_cases (e : JsError) (delay factor : Z) :
  (forall secs, suggested_seconds e = Some secs -> 0 < secs ->
                next_delay e delay factor = secs * 1000)
  /\ (forall secs, suggested_seconds e = Some secs -> secs <= 0 ->
                   next_delay e delay factor = delay * factor)
  /\ (suggested_seconds e = None -> next_delay e delay factor = delay * factor).
Proof.
  unfold next_delay, customRetryDelay.
  repeat split.
  - intros secs -> Hpos. destruct (Z.ltb_spec 0 (secs * 1000)); [reflexivity | lia].
  - intros secs -> Hle. destruct (Z.ltb_spec 0 (secs * 1000)); [lia | reflexivity].
  - intros ->. reflexivity.
Qed.

Context {World T : Type}.
Variable elapse : Z -> World -> World.

(** C2, as the code has it.  For every retry of a run, with [e] the error
    caught and [d] the delay slept before the next attempt: when [e] carries
    a suggested delay of a positive whole number of seconds, [d] is exactly
    that many seconds; otherwise (no suggestion, or one of zero seconds) [d]
    is the previous value of the delay times the backoff factor, where the
    previous value is [initialDelayMs] before the first retry and the delay
    of the retry before afterwards, whichever way that one was obtained.  An
    error whose first [RetryInfo] detail has a [retryDelay] of decimal digits
    followed by [s] suggests the number the digits denote. *)
Theorem retry_delay_rule :
  (forall (fn : Operation (World:=World) T) (fuel : nat)
          (maxRetries initialDelayMs factor : Z) (w : World) (r : Run T)
          (i : nat) (e : JsError) (d : Z),
      retry elapse fuel fn maxRetries initialDelayMs factor w = Some r ->
      caught r !! i = Some e ->
      sleeps r !! i = Some d ->
      (forall secs, suggested_seconds e = Some secs -> 0 < secs -> d = secs * 1000)
      /\ (suggested_seconds e = None \/ suggested_seconds e = Some 0 ->
          d = match i with
              | O => initialDelayMs
              | S j => default 0 (sleeps r !! j)
              end * factor))
  /\ (forall (e : JsError) (ds : list Detail) (info : Detail) (digits : string),
        details e = Some ds ->
        List.find is_retry_info ds = Some info ->
        retryDelay info = Some (digits ++ "s") ->
        digits <> EmptyString ->
        digits_only digits = true ->
        suggested_seconds e = Some (parseInt digits)).
Proof.
  split; [|apply suggested_whole_seconds].
  intros fn fuel maxRetries d0 factor w r i e d Hr He Hd.
  destruct (retry_loop_record elapse fn maxRetries factor fuel 0 d0 w r Hr)
    as (_ & Hstep & _).
  destruct (Hstep i e d He Hd) as [_ ->].
  destruct (next_delay_cases e (match i with
                                | O => d0
                                | S j => default 0 (sleeps r !! j)
                                end) factor) as (Hpos & Hzero & Hnone).
  split.
  - intros secs Hs Hp. apply Hpos; assumption.
  - intros [Hn | Hz]; [apply Hnone, Hn | apply (Hzero 0 Hz); lia].
Qed.

End RetryDelay.

Section RetryDelayExamples.
Import Retry Scripted.
Local Open Scope string_scope.

(** A quota error that suggests 5 seconds, then an overload, then success:
    the delays are 5000 ms, then 5000 x 2 ms. *)
Lemma retry_delay_rule_witness :
  exists r,
    retry idle 5 (scripted [Rejected (quota "5s"); Rejected overloaded] (Resolved tt))
          3 1000 2 0%nat = Some r
    /\ sleeps r = [5000; 10000]
    /\ (forall secs, suggested_seconds (quota "5s") = Some secs -> 0 < secs ->
                     5000 = secs * 1000)
    /\ (suggested_seconds overloaded = None \/ suggested_seconds overloaded = Some 0 ->
        10000 = 5000 * 2).
Proof.
  eexists. split; [reflexivity|]. split; [reflexivity|].
  split.
  - apply (proj1 (proj1 (retry_delay_rule idle)
                    (scripted [Rejected (quota "5s"); Rejected overloaded] (Resolved tt))
                    5%nat 3 1000 2 0%nat _ 0%nat (quota "5s") 5000
                    eq_refl eq_refl eq_refl)).
  - apply (proj2 (proj1 (retry_delay_rule idle)
                    (scripted [Rejected (quota "5s"); Rejected overloaded] (Resolved tt))
                    5%nat 3 1000 2 0%nat _ 1%nat overloaded 10000
                    eq_refl eq_refl eq_refl)).
Defined.

(** C2 as stated fails twice.  After a retry that used a suggested delay of
    5 seconds, the delay of the next retry, whose error suggests nothing, is
    5000 x 2 = 10000 ms, which no number of multiplications of the initial
    1000 ms by 2 gives (the claimed value is 4000).  And an error that
    suggests 0 seconds is followed by the backoff delay 2000 ms, not by
    0 ms. *)
Lemma retry_delay_departs_from_claim :
  (exists r,
     retry idle 5 (scripted [Rejected (quota "5s"); Rejected overloaded] (Resolved tt))
           3 1000 2 0%nat = Some r
     /\ caught r = [quota "5s"; overloaded]
     /\ sleeps r = [5000; 10000]
     /\ Claimed.delay_after 1000 2 1 overloaded = 4000
     /\ forall k : nat, 10000 <> Claimed.backoff 1000 2 k)
  /\ (exists r,
        retry idle 5 (scripted [Rejected (quota "0s")] (Resolved tt))
              3 1000 2 0%nat = Some r
        /\ caught r = [quota "0s"]
        /\ sleeps r = [2000]
        /\ Claimed.delay_after 1000 2 0 (quota "0s") = 0).
Proof.
  split.
  - eexists. repeat split; try reflexivity.
    intros k. unfold Claimed.backoff.
    destruct k as [|[|[|k]]]; try (cbn; lia).
    assert (H : 2 ^ 4 <= 2 ^ Z.of_nat (S (S (S (S k)))))
      by (apply Z.pow_le_mono_r; lia).
    change (2 ^ 4) with 16 in H. lia.
  - eexists. repeat split; reflexivity.
Qed.

End RetryDelayExamples.

(** ** Terminal failures *)

Section TerminalFailure.
Import Js Retry Remote.
Context {World : Type}.
Variable elapse : Z -> World -> World.
Variable generateContent : Request -> Operation (World:=World) Response.
Variable read_detection : Response -> option Detected.

(** The public operations never run out of fuel above the shared ceiling. *)
Lemma public_operations_return (fuel : nat) (w : World) :
  (10 < fuel)%nat ->
  (forall text, exists res, detectLanguage elapse generateContent read_detection
                              fuel text w = Some res)
  /\ (forall text target thinking source,
        exists res, translateText elapse generateContent fuel text target
                      thinking source w = Some res)
  /\ (forall text, exists res, generateSpeech elapse generateContent fuel text w
                               = Some res).
Proof.
  intros Hfuel.
  assert (Hret : forall T (fn : Operation T),
             exists r, retry elapse fuel fn API_MAX_RETRIES
                         API_RETRY_INITIAL_DELAY_MS API_RETRY_BACKOFF_FACTOR w
                       = Some r).
  { intros T fn.
    destruct (retry_loop_terminates elapse fn API_MAX_RETRIES
                API_RETRY_BACKOFF_FACTOR fuel 0 API_RETRY_INITIAL_DELAY_MS w)
      as (r & Hr & _); [exact Hfuel|].
    exists r. exact Hr. }
  repeat split.
  - intros text. unfold detectLanguage.
    destruct (Hret _ (generateContent (detect_request text))) as [r ->]. cbn.
    destruct (outcome r); eexists; reflexivity.
  - intros text target thinking source. unfold translateText.
    destruct (Hret _ (generateContent
                        (translate_request text target thinking source))) as [r ->].
    cbn. destruct (outcome r); eexists; reflexivity.
  - intros text. unfold generateSpeech. destruct (blank text); [eexists; reflexivity|].
    destruct (Hret _ (speech_attempt generateContent text)) as [r ->]. cbn.
    destruct (outcome r); eexists; reflexivity.
Qed.

(** Where a caught error comes from: the error caught at position [i] of a
    run was raised by an invocation made while the counter [retries] stood
    [i] above its starting value, and the run from there on is the loop
    started in that state. *)
Lemma retry_loop_from_attempt {T} (fn : Operation (World:=World) T)
      (maxRetries factor : Z) (fuel : nat) :
  forall (retries delay : Z) (w : World) (r : Run T) (i : nat) (e : JsError),
    retry_loop elapse fuel fn maxRetries factor retries delay w = Some r ->
    caught r !! i = Some e ->
    exists (fuel' : nat) (delay' : Z) (w' w1 : World) (rest : Run T),
      fn w' = (Rejected e, w1)
      /\ retry_loop elapse fuel' fn maxRetries factor (retries + Z.of_nat i) delay' w'
         = Some rest
      /\ outcome rest = outcome r
      /\ world_after rest = world_after r
      /\ caught rest = drop i (caught r).
Proof.
  induction fuel as [|fuel IH]; intros retries delay w r i e Hr Hi; [discriminate|].
  assert (Hhere : forall err w1, fn w = (Rejected err, w1) ->
            caught r !! 0%nat = Some err ->
            exists (fuel' : nat) (delay' : Z) (w' w1 : World) (rest : Run T),
              fn w' = (Rejected err, w1)
              /\ retry_loop elapse fuel' fn maxRetries factor
                            (retries + Z.of_nat 0) delay' w' = Some rest
              /\ outcome rest = outcome r
              /\ world_after rest = world_after r
              /\ caught rest = drop 0 (caught r)).
  { intros err w1 Hfn _. exists (S fuel), delay, w, w1, r.
    rewrite Z.add_0_r. repeat split; [exact Hfn | exact Hr]. }
  destruct (fn w) as [[v|err] w1] eqn:Hfn.
  - rewrite (retry_loop_resolved _ _ _ _ _ _ _ _ _ _ Hfn) in Hr.
    injection Hr as <-. discriminate Hi.
  - destruct (isRetryableError err) eqn:Hre.
    + destruct (Z_lt_le_dec retries maxRetries) as [Hlt|Hge].
      * pose proof Hr as Hr'.
        rewrite (retry_loop_again _ _ _ _ _ _ _ _ _ _ Hfn Hre Hlt) in Hr'.
        destruct (retry_loop elapse fuel fn maxRetries factor (retries + 1)
                    (next_delay err delay factor)
                    (elapse (next_delay err delay factor) w1)) as [r'|] eqn:Hrec;
          [|discriminate].
        cbn in Hr'. injection Hr' as Hr'.
        destruct i as [|j].
        { assert (e = err) by (rewrite <- Hr' in Hi; cbn in Hi; congruence).
          subst e. apply (Hhere err w1 eq_refl Hi). }
        assert (Hj : caught r' !! j = Some e) by (rewrite <- Hr' in Hi; exact Hi).
        destruct (IH _ _ _ _ _ _ Hrec Hj)
          as (fuel' & delay' & w' & w1' & rest & H1 & H2 & H3 & H4 & H5).
        exists fuel', delay', w', w1', rest.
        replace (retries + Z.of_nat (S j)) with (retries + 1 + Z.of_nat j) by lia.
        rewrite <- Hr'. cbn [outcome world_after caught drop].
        repeat split; assumption.
      * pose proof Hr as Hr'.
        rewrite (retry_loop_give_up _ _ _ _ _ _ _ _ _ _ Hfn (or_intror Hge)) in Hr'.
        injection Hr' as Hr'.
        destruct i as [|j]; [|rewrite <- Hr' in Hi; discriminate Hi].
        assert (e = err) by (rewrite <- Hr' in Hi; cbn in Hi; congruence).
        subst e. apply (Hhere err w1 eq_refl Hi).
    + pose proof Hr as Hr'.
      rewrite (retry_loop_give_up _ _ _ _ _ _ _ _ _ _ Hfn (or_introl Hre)) in Hr'.
      injection Hr' as Hr'.
      destruct i as [|j]; [|rewrite <- Hr' in Hi; discriminate Hi].
      assert (e = err) by (rewrite <- Hr' in Hi; cbn in Hi; congruence).
      subst e. apply (Hhere err w1 eq_refl Hi).
Qed.

(** A terminal failure ends the run: a caught error that is fatal, or that
    was caught with the counter at [maxRetries] or beyond, is the error the
    run throws, and nothing is invoked or slept after it. *)
Lemma retry_loop_terminal {T} (fn : Operation (World:=World) T)
      (maxRetries factor : Z) (fuel : nat) :
  forall (retries delay : Z) (w : World) (r : Run T) (i : nat) (e : JsError),
    retry_loop elapse fuel fn maxRetries factor retries delay w = Some r ->
    caught r !! i = Some e ->
    isRetryableError e = false \/ maxRetries <= retries + Z.of_nat i ->
    outcome r = Rejected e
    /\ calls r = S i
    /\ length (caught r) = S i
    /\ length (sleeps r) = i.
Proof.
  induction fuel as [|fuel IH]; intros retries delay w r i e Hr Hi Hstop;
    [discriminate|].
  destruct (fn w) as [[v|err] w1] eqn:Hfn.
  - rewrite (retry_loop_resolved _ _ _ _ _ _ _ _ _ _ Hfn) in Hr.
    injection Hr as <-. discriminate Hi.
  - destruct (isRetryableError err) eqn:Hre.
    + destruct (Z_lt_le_dec retries maxRetries) as [Hlt|Hge].
      * rewrite (retry_loop_again _ _ _ _ _ _ _ _ _ _ Hfn Hre Hlt) in Hr.
        destruct (retry_loop elapse fuel fn maxRetries factor (retries + 1)
                    (next_delay err delay factor)
                    (elapse (next_delay err delay factor) w1)) as [r'|] eqn:Hrec;
          [|discriminate].
        cbn in Hr. injection Hr as <-. cbn [outcome calls caught sleeps length].
        destruct i as [|j].
        { cbn in Hi. injection Hi as <-.
          destruct Hstop as [Hf | Hmax]; [congruence | lia]. }
        destruct (IH _ _ _ _ j e Hrec Hi) as (H1 & H2 & H3 & H4).
        { destruct Hstop as [Hf | Hmax]; [left; exact Hf | right; lia]. }
        rewrite H1, H2, H3, H4. repeat split.
      * rewrite (retry_loop_give_up _ _ _ _ _ _ _ _ _ _ Hfn (or_intror Hge)) in Hr.
        injection Hr as <-.
        destruct i as [|j]; [|discriminate Hi].
        cbn in Hi. injection Hi as <-. repeat split.
    + rewrite (retry_loop_give_up _ _ _ _ _ _ _ _ _ _ Hfn (or_introl Hre)) in Hr.
      injection Hr as <-.
      destruct i as [|j]; [|discriminate Hi].
      cbn in Hi. injection Hi as <-. repeat split.
Qed.

(** The run of [retry] behind a public operation exists above the shared
    ceiling of ten retries. *)
Lemma retry_policy_returns {T} (fn : Operation (World:=World) T) (fuel : nat)
      (w : World) :
  (10 < fuel)%nat ->
  exists r, retry elapse fuel fn API_MAX_RETRIES API_RETRY_INITIAL_DELAY_MS
              API_RETRY_BACKOFF_FACTOR w = Some r.
Proof.
  intros Hfuel.
  destruct (retry_loop_terminates elapse fn API_MAX_RETRIES
              API_RETRY_BACKOFF_FACTOR fuel 0 API_RETRY_INITIAL_DELAY_MS w)
    as (r & Hr & _); [exact Hfuel|].
  exists r. exact Hr.
Qed.

(** C3, as the code has it.  A terminal failure is an invocation of the
    operation that raises an error [e] while [e] is not retryable or the
    counter [retries] has reached [maxRetries].

    - At whatever state of the loop variables it happens, the loop stops
      there: it throws [e] itself, with the world as the failed invocation
      left it, without a sleep and without another invocation.
    - In a whole run of [retry], which exists for every iteration bound
      above [maxRetries], the error caught at position [i] was raised by an
      invocation made with the counter at [i]; when that failure is
      terminal, the run throws this very error, after exactly [i + 1]
      invocations and [i] sleeps.
    - [translateText] and [generateSpeech] (for a text that is not blank)
      return, and every terminal failure of their remote call reaches the
      caller as a rejection with the error unchanged.
    - [detectLanguage] returns too, but on every terminal failure of its
      remote call it resolves with [null]. *)
Theorem terminal_failure_propagation :
  (forall (T : Type) (fn : Operation (World:=World) T) (fuel : nat)
          (maxRetries factor retries delay : Z) (w w1 : World) (e : JsError),
      fn w = (Rejected e, w1) ->
      isRetryableError e = false \/ maxRetries <= retries ->
      retry_loop elapse (S fuel) fn maxRetries factor retries delay w
      = Some {| outcome := Rejected e; calls := 1; caught := [e];
                sleeps := []; world_after := w1 |})
  /\ (forall (T : Type) (fn : Operation (World:=World) T) (fuel : nat)
             (maxRetries initialDelayMs factor : Z) (w : World),
        (Z.to_nat maxRetries < fuel)%nat ->
        exists r : Run T,
          retry elapse fuel fn maxRetries initialDelayMs factor w = Some r
          /\ forall (i : nat) (e : JsError),
               caught r !! i = Some e ->
               (exists (fuel' : nat) (delay' : Z) (w' w1 : World) (rest : Run T),
                   fn w' = (Rejected e, w1)
                   /\ retry_loop elapse fuel' fn maxRetries factor
                                 (Z.of_nat i) delay' w' = Some rest
                   /\ outcome rest = outcome r
                   /\ world_after rest = world_after r
                   /\ (isRetryableError e = false \/ maxRetries <= Z.of_nat i ->
                       world_after r = w1))
               /\ (isRetryableError e = false \/ maxRetries <= Z.of_nat i ->
                   outcome r = Rejected e
                   /\ last (caught r) = Some e
                   /\ calls r = S i
                   /\ length (sleeps r) = i))
  /\ (forall (fuel : nat) (text target : string) (thinking : bool)
             (source : option string) (w : World),
        (10 < fuel)%nat ->
        exists r : Run Response,
          retry elapse fuel
                (generateContent (translate_request text target thinking source))
                API_MAX_RETRIES API_RETRY_INITIAL_DELAY_MS API_RETRY_BACKOFF_FACTOR w
          = Some r
          /\ forall (i : nat) (e : JsError),
               caught r !! i = Some e ->
               isRetryableError e = false \/ API_MAX_RETRIES <= Z.of_nat i ->
               translateText elapse generateContent fuel text target thinking source w
               = Some (Rejected e, world_after r))
  /\ (forall (fuel : nat) (text : string) (w : World),
        (10 < fuel)%nat ->
        blank text = false ->
        exists r : Run string,
          retry elapse fuel (speech_attempt generateContent text)
                API_MAX_RETRIES API_RETRY_INITIAL_DELAY_MS API_RETRY_BACKOFF_FACTOR w
          = Some r
          /\ forall (i : nat) (e : JsError),
               caught r !! i = Some e ->
               isRetryableError e = false \/ API_MAX_RETRIES <= Z.of_nat i ->
               generateSpeech elapse generateContent fuel text w
               = Some (Rejected e, world_after r))
  /\ (forall (fuel : nat) (text : string) (w : World),
        (10 < fuel)%nat ->
        exists r : Run Response,
          retry elapse fuel (generateContent (detect_request text))
                API_MAX_RETRIES API_RETRY_INITIAL_DELAY_MS API_RETRY_BACKOFF_FACTOR w
          = Some r
          /\ forall (i : nat) (e : JsError),
               caught r !! i = Some e ->
               isRetryableError e = false \/ API_MAX_RETRIES <= Z.of_nat i ->
               detectLanguage elapse generateContent read_detection fuel text w
               = Some (Resolved None, world_after r)).
Proof.
  split.
  { intros T fn fuel maxRetries factor retries delay w w1 e Hfn Hstop.
    apply retry_loop_give_up; assumption. }
  split.
  { intros T fn fuel maxRetries d0 factor w Hfuel.
    destruct (retry_loop_terminates elapse fn maxRetries factor fuel 0 d0 w)
      as (r & Hr & _).
    { rewrite Z.sub_0_r. exact Hfuel. }
    exists r. split; [exact Hr|]. intros i e Hi.
    destruct (retry_loop_from_attempt fn maxRetries factor fuel 0 d0 w r i e Hr Hi)
      as (fuel' & delay' & w' & w1 & rest & Hfn & Hrest & Hout & Hworld & _).
    rewrite Z.add_0_l in Hrest.
    split.
    - exists fuel', delay', w', w1, rest.
      split; [exact Hfn|]. split; [exact Hrest|]. split; [exact Hout|].
      split; [exact Hworld|].
      intros Hstop. destruct fuel' as [|fuel']; [discriminate Hrest|].
      rewrite (retry_loop_give_up elapse fn maxRetries factor fuel' _ _ _ _ _
                 Hfn Hstop) in Hrest.
      injection Hrest as <-. symmetry. exact Hworld.
    - intros Hstop.
      destruct (retry_loop_terminal fn maxRetries factor fuel 0 d0 w r i e Hr Hi)
        as (H1 & H2 & H3 & H4); [rewrite Z.add_0_l; exact Hstop|].
      split; [exact H1|]. split; [|split; assumption].
      rewrite last_lookup, H3. exact Hi. }
  split.
  { intros fuel text target thinking source w Hfuel.
    destruct (retry_policy_returns
                (generateContent (translate_request text target thinking source))
                fuel w Hfuel) as [r Hr].
    exists r. split; [exact Hr|]. intros i e Hi Hstop.
    destruct (retry_loop_terminal _ _ _ fuel 0 _ w r i e Hr Hi) as (Hout & _);
      [rewrite Z.add_0_l; exact Hstop|].
    unfold translateText. rewrite Hr. cbn. rewrite Hout. reflexivity. }
  split.
  { intros fuel text w Hfuel Hblank.
    destruct (retry_policy_returns (speech_attempt generateContent text)
                fuel w Hfuel) as [r Hr].
    exists r. split; [exact Hr|]. intros i e Hi Hstop.
    destruct (retry_loop_terminal _ _ _ fuel 0 _ w r i e Hr Hi) as (Hout & _);
      [rewrite Z.add_0_l; exact Hstop|].
    unfold generateSpeech. rewrite Hblank, Hr. cbn. rewrite Hout. reflexivity. }
  intros fuel text w Hfuel.
  destruct (retry_policy_returns (generateContent (detect_request text))
              fuel w Hfuel) as [r Hr].
  exists r. split; [exact Hr|]. intros i e Hi Hstop.
  destruct (retry_loop_terminal _ _ _ fuel 0 _ w r i e Hr Hi) as (Hout & _);
    [rewrite Z.add_0_l; exact Hstop|].
  unfold detectLanguage. rewrite Hr. cbn. rewrite Hout. reflexivity.
Qed.

End TerminalFailure.

Section TerminalFailureExamples.
Import Retry Remote Scripted.
Local Open Scope string_scope.

(** The service rejects the translation request as invalid: the caller of
    [translateText] receives that error after one call. *)
Lemma terminal_failure_propagation_witness :
  translateText idle always_invalid 11 "hola" "English" false None 0%nat
  = Some (Rejected invalid_argument, 1%nat).
Proof.
  destruct (proj1 (proj2 (proj2 (terminal_failure_propagation idle always_invalid
                                   (fun _ => None))))
              11%nat "hola" "English" false None 0%nat)
    as (r & Hr & Hthrow).
  - apply Nat.ltb_lt. reflexivity.
  - change (Some {| outcome := Rejected invalid_argument; calls := 1;
                    caught := [invalid_argument]; sleeps := [];
                    world_after := 1%nat |} = Some r) in Hr.
    injection Hr as <-.
    apply (Hthrow 0%nat invalid_argument eq_refl (or_introl eq_refl)).
Defined.

(** C3 as stated fails for [detectLanguage]: the service rejects the request
    with a fatal error, and the caller receives [null], not the error. *)
Lemma detectLanguage_swallows_error :
  retry idle 11 (always_invalid (detect_request "hola"))
        API_MAX_RETRIES API_RETRY_INITIAL_DELAY_MS API_RETRY_BACKOFF_FACTOR 0%nat
  = Some {| outcome := Rejected invalid_argument; calls := 1;
            caught := [invalid_argument]; sleeps := [];
            world_after := 1%nat |}
  /\ isRetryableError invalid_argument = false
  /\ detectLanguage idle always_invalid (fun _ => None) 11 "hola" 0%nat
     = Some (Resolved None, 1%nat)
  /\ detectLanguage idle always_invalid (fun _ => None) 11 "hola" 0%nat
     <> Some (Rejected invalid_argument, 1%nat).
Proof.
  repeat split; try reflexivity. discriminate.
Qed.

End TerminalFailureExamples.

(** * Further properties *)

(** ** The transport encoding *)

Section TransportRoundTrip.
Import Js Codec.
Variable atob : string -> option string.
Variable btoa : string -> string.

(** The binary string [encode] hands to [btoa]. *)
Lemma decode_of_binary (bytes : list byte) (base64 : string) :
  atob base64 = Some (string_of_list_ascii (map ascii_of_byte bytes)) ->
  decode atob base64 = Some bytes.
Proof.
  intros H. unfold decode. rewrite H. f_equal.
  rewrite list_ascii_of_string_of_list_ascii, map_map.
  rewrite <- (map_id bytes) at 2. apply map_ext.
  intros b. apply byte_of_ascii_of_byte.
Qed.

(** X1.  When the platform's [atob] undoes [btoa] on the binary string of a
    byte sequence, [decode] undoes [encode] on that sequence: the two
    character-code loops are inverse to each other. *)
Theorem decode_encode (bytes : list byte) :
  atob (btoa (string_of_list_ascii (map ascii_of_byte bytes)))
  = Some (string_of_list_ascii (map ascii_of_byte bytes)) ->
  decode atob (encode btoa bytes) = Some bytes.
Proof.
  intros H. apply decode_of_binary. exact H.
Qed.

End TransportRoundTrip.

Lemma decode_encode_witness :
  Codec.decode Platform.atob
    (Codec.encode Platform64.btoa [Byte.x00; Byte.x80; Byte.xff; Byte.x7f; Byte.x41])
  = Some [Byte.x00; Byte.x80; Byte.xff; Byte.x7f; Byte.x41].
Proof.
  apply (decode_encode Platform.atob Platform64.btoa). reflexivity.
Defined.

(** ** More on the sample codec *)

Section CodecMore.
Import Js Codec.

Lemma byte_of_to_Z (b : byte) : byte_of_Z (byte_to_Z b) = b.
Proof.
  unfold byte_of_Z, byte_to_Z.
  rewrite Z.mod_small by apply byte_to_Z_range.
  rewrite N2Z.id, Byte.of_to_N. reflexivity.
Qed.

Lemma le_int16_range (lo hi : byte) : -32768 <= le_int16 lo hi < 32768.
Proof.
  unfold le_int16.
  pose proof (byte_to_Z_range lo). pose proof (byte_to_Z_range hi).
  destruct (Z.ltb_spec (byte_to_Z lo + 256 * byte_to_Z hi) 32768); lia.
Qed.

(** The two bytes a 16-bit value was read from are the bytes it is written
    as. *)
Lemma int16_bytes_le_int16 (lo hi : byte) :
  int16_bytes (le_int16 lo hi) = [lo; hi].
Proof.
  unfold int16_bytes, le_int16.
  pose proof (byte_to_Z_range lo) as Hlo. pose proof (byte_to_Z_range hi) as Hhi.
  set (l := byte_to_Z lo) in *. set (h := byte_to_Z hi) in *.
  assert (E : forall v, v = l + 256 * h \/ v = l + 256 * h - 65536 ->
                        byte_of_Z v = lo /\ byte_of_Z (v / 256) = hi).
  { intros v Hv.
    assert (Hm : v mod 256 = l).
    { destruct Hv as [-> | ->].
      - rewrite Z.mul_comm, Z.mod_add by lia. apply Z.mod_small. lia.
      - replace (l + 256 * h - 65536) with (l + (h - 256) * 256) by lia.
        rewrite Z.mod_add by lia. apply Z.mod_small. lia. }
    assert (Hd : (v / 256) mod 256 = h).
    { destruct Hv as [-> | ->].
      - rewrite Z.mul_comm, Z.div_add by lia. rewrite Z.div_small by lia.
        apply Z.mod_small. lia.
      - replace (l + 256 * h - 65536) with (l + (h - 256) * 256) by lia.
        rewrite Z.div_add by lia. rewrite Z.div_small by lia.
        replace (0 + (h - 256)) with (h + (-1) * 256) by lia.
        rewrite Z.mod_add by lia. apply Z.mod_small. lia. }
    split.
    - rewrite <- (byte_of_to_Z lo). fold l. unfold byte_of_Z.
      rewrite Hm, (Z.mod_small l) by lia. reflexivity.
    - rewrite <- (byte_of_to_Z hi). fold h. unfold byte_of_Z.
      rewrite Hd, (Z.mod_small h) by lia. reflexivity. }
  destruct (Z.ltb_spec (l + 256 * h) 32768);
    [destruct (E (l + 256 * h)) as [-> ->] | destruct (E (l + 256 * h - 65536)) as [-> ->]];
    auto.
Qed.

Lemma int16_pairs_range (bs : list byte) :
  Forall (fun v => -32768 <= v < 32768) (int16_pairs bs).
Proof.
  enough (H : forall n (l : list byte), (length l <= n)%nat ->
               Forall (fun v => -32768 <= v < 32768) (int16_pairs l))
    by (apply (H (length bs)); lia).
  clear bs. induction n as [|n IH]; intros bs Hle.
  - destruct bs; [constructor | cbn in Hle; lia].
  - destruct bs as [|lo [|hi rest]]; try constructor.
    + apply le_int16_range.
    + apply IH. cbn in Hle. lia.
Qed.

Lemma int16_pairs_bytes (bs : list byte) :
  Nat.even (length bs) = true ->
  Uint8Array_of_int16 (int16_pairs bs) = bs.
Proof.
  enough (H : forall n (l : list byte), (length l <= n)%nat ->
               Nat.even (length l) = true ->
               Uint8Array_of_int16 (int16_pairs l) = l)
    by (apply (H (length bs)); lia).
  clear bs. induction n as [|n IH]; intros bs Hle Hev.
  - destruct bs; [reflexivity | cbn in Hle; lia].
  - destruct bs as [|lo [|hi rest]]; [reflexivity | discriminate |].
    cbn [int16_pairs]. unfold Uint8Array_of_int16 in *. cbn [flat_map].
    rewrite int16_bytes_le_int16. cbn [app]. f_equal. f_equal.
    apply IH; [cbn in Hle; lia | exact Hev].
Qed.

(** The single channel of a mono decode, sample by sample. *)
Lemma decode_mono (data : list byte) (rate : Z) (b : AudioBuffer) :
  decodeAudioData data rate 1 = inr b ->
  getChannelData b 0
  = map (fun v => (inject_Z v / 32768)%Q) (int16_pairs data)
  /\ frames b = (length data / 2)%nat
  /\ Nat.even (length data) = true
  /\ (2 <= length data)%nat.
Proof.
  intros Hb.
  assert (Hev : Nat.even (length data) = true).
  { destruct (Nat.even (length data)) eqn:E; [reflexivity|].
    rewrite decodeAudioData_odd in Hb; [discriminate|].
    rewrite <- Nat.negb_even, E. reflexivity. }
  assert (Hlen : (2 <= length data)%nat).
  { destruct (le_lt_dec 2 (length data)) as [H|H]; [exact H|].
    rewrite decodeAudioData_no_frame in Hb; [discriminate | exact Hev | lia]. }
  destruct (decodeAudioData_inr data rate 1 ltac:(lia) Hev ltac:(lia))
    as (b' & Hb' & _ & _ & Hf & _ & Hch).
  rewrite Hb in Hb'. injection Hb' as <-.
  change (2 * 1)%nat with 2%nat in Hf.
  repeat split; try assumption.
  destruct (Hch 0%nat ltac:(lia)) as (chan & Hchan & Hl & Hs).
  unfold getChannelData. rewrite Hchan. change (default [] (Some chan)) with chan.
  apply list_eq. intros i. rewrite list_lookup_fmap.
  destruct (decide (i < frames b)%nat) as [Hi|Hi].
  - rewrite (Hs i Hi). unfold decoded_sample.
    rewrite Nat.mul_1_r, Nat.add_0_r.
    destruct (lookup_lt_is_Some_2 (int16_pairs data) i) as [v Hv].
    { rewrite int16_pairs_length. lia. }
    rewrite Hv. reflexivity.
  - rewrite (lookup_ge_None_2 chan i) by lia.
    rewrite (lookup_ge_None_2 (int16_pairs data) i)
      by (rewrite int16_pairs_length; lia).
    reflexivity.
Qed.

(** Scaling a decoded sample back gives the 16-bit value it came from. *)
Lemma ToInt16_of_decoded (v : Z) :
  -32768 <= v < 32768 ->
  ToInt16 (inject_Z v / 32768 * 32768) = v.
Proof.
  intros Hv. unfold ToInt16.
  assert (E : trunc (inject_Z v / 32768 * 32768) = v).
  { unfold trunc, Qdiv, Qmult, Qinv, inject_Z. cbn [Qnum Qden].
    rewrite Z.mul_1_r.
    change (Z.pos (1 * 32768 * 1)) with 32768.
    apply Z.quot_mul. lia. }
  rewrite E. apply wrap16_id, Hv.
Qed.

(** X2.  [createPcmBlob] encodes sample by sample: the bytes of two blocks
    put end to end are the bytes of the first followed by the bytes of the
    second, two bytes per sample. *)
Theorem createPcmBlob_bytes_app (a b : list Q) :
  createPcmBlob_bytes (a ++ b) = createPcmBlob_bytes a ++ createPcmBlob_bytes b
  /\ length (createPcmBlob_bytes (a ++ b)) = (2 * length a + 2 * length b)%nat.
Proof.
  rewrite !createPcmBlob_bytes_flat. split; [apply flat_map_app|].
  rewrite <- createPcmBlob_bytes_flat.
  unfold createPcmBlob_bytes. rewrite Uint8Array_of_int16_length.
  rewrite createPcmBlob_int16_map, length_map, length_app. lia.
Qed.

(** X4.  Every sample of every channel of a decoded buffer lies in [-1, 1)
    ("convert to float range [-1, 1]"): the value 1 itself is never
    produced. *)
Theorem decoded_samples_in_range (data : list byte) (rate : Z) (nc : nat)
        (b : AudioBuffer) (c i : nat) (chan : list Q) (s : Q) :
  decodeAudioData data rate nc = inr b ->
  channelData b !! c = Some chan ->
  chan !! i = Some s ->
  (-1 <= s)%Q /\ (s < 1)%Q.
Proof.
  unfold decodeAudioData, createBuffer.
  destruct (Int16Array_of_buffer data) as [dataInt16|] eqn:Hview; [|discriminate].
  destruct (_ || _)%bool; [discriminate|].
  intros Hb Hchan Hs. injection Hb as <-. cbn [channelData] in Hchan.
  rewrite list_lookup_imap in Hchan.
  destruct (replicate nc _ !! c) as [z|] eqn:Hz; [|discriminate].
  apply lookup_replicate in Hz. destruct Hz as [-> _].
  cbn in Hchan. injection Hchan as <-.
  rewrite fill_lookup in Hs.
  assert (Hin : forall v : Z, -32768 <= v < 32768 ->
                  (-1 <= inject_Z v / 32768)%Q /\ (inject_Z v / 32768 < 1)%Q).
  { intros v Hv. unfold Qdiv, Qmult, Qinv, Qle, Qlt, inject_Z. cbn. lia. }
  destruct (decide _) as [_|_].
  - destruct (replicate _ _ !! i); [|discriminate].
    cbn in Hs. injection Hs as <-. unfold decoded_sample. apply Hin.
    unfold Int16Array_of_buffer in Hview.
    destruct (Nat.even (length data)); [|discriminate].
    injection Hview as <-.
    destruct (int16_pairs data !! _) as [v|] eqn:Hv; cbn; [|lia].
    pose proof (int16_pairs_range data) as Hr.
    rewrite Forall_lookup in Hr. exact (Hr _ _ Hv).
  - apply lookup_replicate in Hs. destruct Hs as [-> _].
    split; unfold Qle, Qlt; cbn; lia.
Qed.

(** X5.  Decoding PCM bytes into one channel and encoding that channel with
    [createPcmBlob] gives back exactly the bytes decoded: in this direction
    the round trip loses nothing. *)
Theorem encode_decoded_bytes (data : list byte) (rate : Z) (b : AudioBuffer) :
  decodeAudioData data rate 1 = inr b ->
  createPcmBlob_bytes (getChannelData b 0) = data.
Proof.
  intros Hb. destruct (decode_mono data rate b Hb) as (Hch & _ & Hev & _).
  rewrite Hch, createPcmBlob_bytes_flat.
  rewrite <- (int16_pairs_bytes data Hev) at 2.
  unfold Uint8Array_of_int16.
  pose proof (int16_pairs_range data) as Hr. clear Hch.
  induction Hr as [|v vs Hv _ IH]; [reflexivity|].
  cbn [map flat_map]. rewrite ToInt16_of_decoded by exact Hv.
  f_equal. exact IH.
Qed.

End CodecMore.

Lemma decoded_samples_in_range_witness :
  ((-1 <= inject_Z (-32768) / 32768)%Q /\ (inject_Z (-32768) / 32768 < 1)%Q).
Proof.
  apply (decoded_samples_in_range
           [Byte.x00; Byte.x80; Byte.xff; Byte.x7f] 24000 1
           {| Codec.numberOfChannels := 1; Codec.sampleRate := 24000;
              Codec.frames := 2;
              Codec.channelData :=
                [[(inject_Z (-32768) / 32768)%Q; (inject_Z 32767 / 32768)%Q]] |}
           0%nat 0%nat
           [(inject_Z (-32768) / 32768)%Q; (inject_Z 32767 / 32768)%Q]);
    reflexivity.
Defined.

Lemma encode_decoded_bytes_witness :
  Codec.createPcmBlob_bytes
    (Codec.getChannelData
       {| Codec.numberOfChannels := 1; Codec.sampleRate := 24000;
          Codec.frames := 2;
          Codec.channelData :=
            [[(inject_Z (-32768) / 32768)%Q; (inject_Z 32767 / 32768)%Q]] |} 0)
  = [Byte.x00; Byte.x80; Byte.xff; Byte.x7f].
Proof.
  apply (encode_decoded_bytes [Byte.x00; Byte.x80; Byte.xff; Byte.x7f] 24000).
  reflexivity.
Defined.

(** ** Capture, transport and playback together *)

Section CaptureToPlayback.
Import Js Codec Playback.
Variable atob : string -> option string.
Variable btoa : string -> string.

(** X3.  A block of samples in [-1, 1) that is captured with
    [createPcmBlob], carried as the blob's string and decoded again with
    [decode] and [decodeAudioData] comes back with as many samples, each
    within one quantisation step of the original, provided the platform's
    [atob] undoes [btoa] on the blob's binary string. *)
Theorem capture_transport_roundtrip (data : list Q) (rate : Z) :
  data <> [] ->
  Forall (fun x => (-1 <= x)%Q /\ (x < 1)%Q) data ->
  atob (btoa (string_of_list_ascii (map ascii_of_byte (createPcmBlob_bytes data))))
  = Some (string_of_list_ascii (map ascii_of_byte (createPcmBlob_bytes data))) ->
  exists (bytes : list byte) (b : AudioBuffer),
    decode atob (blob_data (createPcmBlob btoa data)) = Some bytes
    /\ length bytes = (2 * length data)%nat
    /\ decodeAudioData bytes rate 1 = inr b
    /\ length (getChannelData b 0) = length data
    /\ forall i x y, data !! i = Some x -> getChannelData b 0 !! i = Some y ->
         (Qabs (y - x) <= 1 # 32768)%Q.
Proof.
  intros Hne Hrange Hplat.
  destruct (roundtrip_below_one data rate Hne Hrange) as (b & Hb & Hlen & Hq).
  exists (createPcmBlob_bytes data), b.
  split; [apply decode_of_binary; exact Hplat|].
  split.
  { unfold createPcmBlob_bytes. rewrite Uint8Array_of_int16_length.
    rewrite createPcmBlob_int16_map, length_map. reflexivity. }
  repeat split; assumption.
Qed.

(** X6.  A chunk whose base64 text decodes to an even, non-zero number of
    bytes is scheduled, and moves the cursor from max(cursor, now) by half
    that number of bytes over 24000 seconds; the new source joins the
    active set. *)
Theorem playAudio_advance (audio : string) (now : Q) (p : Player)
        (data : list byte) :
  audio <> EmptyString ->
  decode atob audio = Some data ->
  Nat.even (length data) = true ->
  (2 <= length data)%nat ->
  exists p' : Player,
    playAudio atob audio now p = (None, p')
    /\ nextStartTime p'
       = (Qmax (nextStartTime p) now
          + inject_Z (Z.of_nat (length data / 2)) / inject_Z 24000)%Q
    /\ audioSources p' = audioSources p ∪ {[ created p ]}
    /\ created p' = S (created p).
Proof.
  intros Hne Hdec Hev Hlen.
  destruct (decodeAudioData_inr data TTS_AUDIO_SAMPLE_RATE 1 ltac:(lia) Hev ltac:(lia))
    as (b & Hb & _ & Hrate & Hf & _).
  change (2 * 1)%nat with 2%nat in Hf.
  unfold playAudio. destruct audio as [|c r]; [congruence|].
  rewrite Hdec, Hb. eexists. split; [reflexivity|].
  cbn [nextStartTime audioSources created]. unfold duration.
  rewrite Hf, Hrate. repeat split.
Qed.

End CaptureToPlayback.

Lemma capture_transport_roundtrip_witness :
  exists (bytes : list byte) (b : Codec.AudioBuffer),
    Codec.decode Platform.atob
      (Codec.blob_data (Codec.createPcmBlob Platform64.btoa
                          [(1 # 2)%Q; (-1)%Q; (-1 # 3)%Q]))
    = Some bytes
    /\ length bytes = 6%nat
    /\ Codec.decodeAudioData bytes 16000 1 = inr b
    /\ length (Codec.getChannelData b 0) = 3%nat.
Proof.
  destruct (capture_transport_roundtrip Platform.atob Platform64.btoa
              [(1 # 2)%Q; (-1)%Q; (-1 # 3)%Q] 16000)
    as (bytes & b & H1 & H2 & H3 & H4 & _).
  - discriminate.
  - repeat constructor; unfold Qle, Qlt; cbn; lia.
  - reflexivity.
  - exists bytes, b. repeat split; assumption.
Defined.

Lemma playAudio_advance_witness :
  exists p' : Playback.Player,
    Playback.playAudio Platform.atob "AAD/fwCA" (1 # 2) Playback.initial = (None, p')
    /\ Playback.nextStartTime p'
       = (Qmax 0 (1 # 2) + inject_Z (Z.of_nat (6 / 2)) / inject_Z 24000)%Q.
Proof.
  destruct (playAudio_advance Platform.atob "AAD/fwCA" (1 # 2) Playback.initial
              [Byte.x00; Byte.x00; Byte.xff; Byte.x7f; Byte.x00; Byte.x80])
    as (p' & H1 & H2 & _).
  - discriminate.
  - reflexivity.
  - reflexivity.
  - cbn. lia.
  - exists p'. split; assumption.
Defined.

(** ** More on the playback scheduler *)

Section SchedulerMore.
Import Js Codec Playback PlaybackInv.
Variable atob : string -> option string.

(** The state a call of [playAudio] leaves, whatever its outcome. *)
Lemma playAudio_state (audio : string) (now : Q) (p : Player) :
  (audio = EmptyString /\ snd (playAudio atob audio now p) = p)
  \/ (audio <> EmptyString
      /\ snd (playAudio atob audio now p)
         = {| nextStartTime := Qmax (nextStartTime p) now;
              audioSources := audioSources p;
              started := started p;
              created := created p |})
  \/ (audio <> EmptyString
      /\ exists d, (0 <= d)%Q
         /\ snd (playAudio atob audio now p)
            = {| nextStartTime := (Qmax (nextStartTime p) now + d)%Q;
                 audioSources := audioSources p ∪ {[ created p ]};
                 started := started p ++ [ {| source := created p;
                                              startAt := Qmax (nextStartTime p) now;
                                              playFor := d |} ];
                 created := S (created p) |}).
Proof.
  destruct (decide (audio = EmptyString)) as [->|Hne]; [left; split; reflexivity|].
  right. destruct (chunk_duration atob audio) as [d|] eqn:Hd.
  - right. split; [exact Hne|]. exists d.
    split; [apply (chunk_duration_nonneg atob audio d Hd)|].
    rewrite (playAudio_scheduled atob audio now p d Hd). reflexivity.
  - left. split; [exact Hne|].
    destruct (playAudio_failed atob audio now p Hne Hd) as [e ->]. reflexivity.
Qed.

(** X7.  No call of [playAudio] moves the cursor back, whatever the audio
    and the clock; and after a call with a non-empty string, failed or not,
    the cursor is not behind the clock reading of that call. *)
Theorem playAudio_cursor_monotone (audio : string) (now : Q) (p : Player) :
  (nextStartTime p <= nextStartTime (snd (playAudio atob audio now p)))%Q
  /\ (audio <> EmptyString ->
      (now <= nextStartTime (snd (playAudio atob audio now p)))%Q).
Proof.
  pose proof (Q.le_max_l (nextStartTime p) now) as Hl.
  pose proof (Q.le_max_r (nextStartTime p) now) as Hr.
  destruct (playAudio_state audio now p) as [[-> E] | [[Hne E] | (Hne & d & Hd & E)]];
    rewrite E; cbn [nextStartTime].
  - split; [lra | congruence].
  - split; [lra | intros _; lra].
  - split; [lra | intros _; lra].
Qed.

Lemma playAudio_sources_inv (audio : string) (now : Q) (p : Player) :
  sources_inv p -> sources_inv (snd (playAudio atob audio now p)).
Proof.
  intros [Hst Hset].
  destruct (playAudio_state audio now p) as [[-> E] | [[Hne E] | (Hne & d & Hd & E)]];
    rewrite E; try (split; assumption).
  split; cbn [started audioSources created].
  - rewrite map_app, Hst, seq_S. reflexivity.
  - rewrite Hset, seq_S, list_to_set_app_L. cbn [list_to_set Nat.add].
    rewrite (right_id_L ∅ (∪)). reflexivity.
Qed.

Lemma playAll_sources_inv (callsList : list (string * Q)) (p : Player) :
  sources_inv p -> sources_inv (playAll atob callsList p).
Proof.
  revert p. induction callsList as [|c rest IH]; intros p Hp; [exact Hp|].
  rewrite playAll_cons. apply IH, playAudio_sources_inv, Hp.
Qed.

(** X8.  Along any sequence of calls from the initial state, the chunks
    handed to the device carry the sources 0, 1, 2, ... in call order, one
    new source per scheduled chunk and none for a failed or empty call, and
    the active set holds exactly those sources: no source is registered
    twice and none is lost. *)
Theorem playAll_sources (callsList : list (string * Q)) :
  map source (started (playAll atob callsList initial))
  = seq 0 (created (playAll atob callsList initial))
  /\ audioSources (playAll atob callsList initial)
     = list_to_set (seq 0 (created (playAll atob callsList initial)))
  /\ NoDup (map source (started (playAll atob callsList initial)))
  /\ length (started (playAll atob callsList initial))
     = created (playAll atob callsList initial)
  /\ (created (playAll atob callsList initial) <= length callsList)%nat.
Proof.
  assert (Hinv : sources_inv (playAll atob callsList initial)).
  { apply playAll_sources_inv. split; reflexivity. }
  destruct Hinv as [Hst Hset].
  split; [exact Hst|]. split; [exact Hset|].
  split; [rewrite Hst; apply NoDup_ListNoDup, seq_NoDup|].
  split.
  { rewrite <- (length_map source), Hst. apply length_seq. }
  enough (H : forall l p, (created (playAll atob l p) <= created p + length l)%nat)
    by (apply (H callsList initial)).
  induction l as [|c rest IH]; intros p; [cbn; lia|].
  rewrite playAll_cons.
  pose proof (IH (snd (playAudio atob (fst c) (snd c) p))) as Hle.
  destruct (playAudio_state (fst c) (snd c) p)
    as [[_ E] | [[_ E] | (_ & d & _ & E)]]; rewrite E in Hle |- *;
    cbn [created length] in *; lia.
Qed.

(** The [ended] listeners of all the sources in a list, one after the
    other. *)
Lemma on_ended_all (srcs : list nat) (p : Player) :
  audioSources (fold_right on_ended p srcs) = audioSources p ∖ list_to_set srcs
  /\ nextStartTime (fold_right on_ended p srcs) = nextStartTime p
  /\ started (fold_right on_ended p srcs) = started p.
Proof.
  induction srcs as [|s rest (IH1 & IH2 & IH3)]; cbn [fold_right list_to_set].
  - rewrite difference_empty_L. repeat split.
  - cbn [on_ended audioSources nextStartTime started]. rewrite IH1.
    split; [|split; assumption].
    apply set_eq. intros x.
    rewrite !elem_of_difference, elem_of_union, elem_of_singleton. tauto.
Qed.

(** X9.  Once the [ended] event of every scheduled chunk has fired, in
    whatever order the list gives them, the active set is empty again; the
    cursor and the schedule are untouched by the listeners. *)
Theorem all_ended_empties_active_set (callsList : list (string * Q))
        (order : list nat) :
  (forall s, s ∈ map source (started (playAll atob callsList initial)) -> s ∈ order) ->
  audioSources (fold_right on_ended (playAll atob callsList initial) order) = ∅
  /\ nextStartTime (fold_right on_ended (playAll atob callsList initial) order)
     = nextStartTime (playAll atob callsList initial)
  /\ started (fold_right on_ended (playAll atob callsList initial) order)
     = started (playAll atob callsList initial).
Proof.
  intros Hall.
  assert (Hinv : sources_inv (playAll atob callsList initial)).
  { apply playAll_sources_inv. split; reflexivity. }
  destruct Hinv as [Hst Hset].
  destruct (on_ended_all order (playAll atob callsList initial)) as (H1 & H2 & H3).
  split; [|split; assumption].
  rewrite H1, Hset, <- Hst.
  apply set_eq. intros s. rewrite elem_of_difference, !elem_of_list_to_set.
  split; [intros [Hin Hnot]; exfalso; apply Hnot, Hall, Hin|].
  intros Hin. exfalso. exact (not_elem_of_empty s Hin).
Qed.

Lemma filter_everything {A} (P : A -> Prop) `{forall x, Decision (P x)}
      (l : list A) :
  (forall x, P x) -> filter P l = l.
Proof.
  intros HP. induction l as [|x l IH]; [reflexivity|].
  rewrite filter_cons_True by apply HP. rewrite IH. reflexivity.
Qed.

(** X10.  After [stopAllAudio], stopping again changes nothing, a late
    [ended] event of a stopped source changes nothing, and the next chunk
    that decodes starts at the device clock of its call (for a clock that is
    not negative), whatever was queued before, with its source as the only
    active one. *)
Theorem stopAllAudio_then_play (p : Player) (audio : string) (now d : Q) (s : nat) :
  (0 <= now)%Q ->
  chunk_duration atob audio = Some d ->
  stopAllAudio (stopAllAudio p) = stopAllAudio p
  /\ on_ended s (stopAllAudio p) = stopAllAudio p
  /\ exists p' chunk,
       playAudio atob audio now (stopAllAudio p) = (None, p')
       /\ last (started p') = Some chunk
       /\ (startAt chunk == now)%Q
       /\ (nextStartTime p' == now + d)%Q
       /\ audioSources p' = {[ created p ]}.
Proof.
  intros Hnow Hd.
  split.
  { unfold stopAllAudio. cbn [audioSources started created nextStartTime].
    f_equal. apply filter_everything. intros c. apply not_elem_of_empty. }
  split.
  { unfold on_ended, stopAllAudio. cbn. f_equal.
    apply set_eq. intros x. rewrite elem_of_difference.
    split; [intros [Hx _]; exact Hx|].
    intros Hx. exfalso. exact (not_elem_of_empty x Hx). }
  rewrite (playAudio_scheduled atob audio now (stopAllAudio p) d Hd).
  eexists _, _. split; [reflexivity|].
  cbn [started stopAllAudio nextStartTime audioSources created].
  split; [apply last_snoc|].
  cbn [startAt].
  assert (Hmax : (Qmax 0 now == now)%Q) by (apply Q.max_r; exact Hnow).
  split; [exact Hmax|]. split; [rewrite Hmax; reflexivity|].
  apply (left_id_L ∅ (∪)).
Qed.

End SchedulerMore.

(** ** More on the WAV container *)

Section WavMore.
Import Js Codec Wav.

Lemma wav_header_length (channels rate dataLength : Z) :
  length (Claimed.wav_header channels rate dataLength) = 44%nat.
Proof. reflexivity. Qed.

(** X11.  [encodeWAV] never runs into the [RangeError] of a [DataView]
    store: for every audio buffer it returns a byte stream of exactly
    44 + 2 x (number of samples of channel 0) bytes. *)
Theorem encodeWAV_size (b : AudioBuffer) :
  exists out : list byte,
    encodeWAV b = Some out
    /\ length out = (44 + 2 * length (getChannelData b 0))%nat.
Proof.
  eexists. split; [apply encodeWAV_bytes|].
  rewrite length_app, wav_header_length, pcm16_length. reflexivity.
Qed.

(** X12.  The stream [encodeWAV] returns starts with the chunk identifiers
    of a canonical WAV file: "RIFF" at offset 0, "WAVE" at 8, "fmt " at 12
    and "data" at 36; the format chunk is 16 bytes long, its sample format
    is 1 (PCM), and it records the buffer's channel count at offset 22 and
    its sample rate at offset 24, for a rate that fits 32 bits. *)
Theorem encodeWAV_identifiers (b : AudioBuffer) :
  (numberOfChannels b <= 32)%nat ->
  0 <= sampleRate b < 4294967296 ->
  exists out : list byte,
    encodeWAV b = Some out
    /\ take 4 out = [Byte.x52; Byte.x49; Byte.x46; Byte.x46]
    /\ take 4 (drop 8 out) = [Byte.x57; Byte.x41; Byte.x56; Byte.x45]
    /\ take 4 (drop 12 out) = [Byte.x66; Byte.x6d; Byte.x74; Byte.x20]
    /\ take 4 (drop 36 out) = [Byte.x64; Byte.x61; Byte.x74; Byte.x61]
    /\ getUint32 out 16 = Some 16
    /\ getUint16 out 20 = Some 1
    /\ getUint16 out 22 = Some (Z.of_nat (numberOfChannels b))
    /\ getUint32 out 24 = Some (sampleRate b).
Proof.
  intros Hnc Hrate.
  eexists. split; [apply encodeWAV_bytes|].
  unfold getUint32, getUint16, Claimed.wav_header, Claimed.uint32_bytes,
    Claimed.uint16_bytes.
  cbn -[byte_of_Z ToUint32 ToUint16 Z.div Z.mul Z.add Z.of_nat Claimed.pcm16].
  unfold ToUint32, ToUint16.
  repeat split; f_equal.
  - rewrite le_uint16_bytes by (apply Z.mod_pos_bound; lia).
    apply Z.mod_small. lia.
  - rewrite le_uint32_bytes by (apply Z.mod_pos_bound; lia).
    apply Z.mod_small. lia.
Qed.

(** What the WAV path stores for a sample that was decoded from the 16-bit
    value [v]. *)
Lemma pcm16_value_of_decoded (v : Z) :
  -32768 <= v < 32768 ->
  ToInt16 (scale (clamp (inject_Z v / 32768))) = if 0 <? v then v - 1 else v.
Proof.
  intros Hv. rewrite ToInt16_scale_clamp.
  unfold Claimed.pcm16_value, Claimed.clamped. cbv zeta.
  assert (Hsign : ((inject_Z v / 32768 < 0)%Q -> v < 0)
                  /\ ((0 <= inject_Z v / 32768)%Q -> 0 <= v)
                  /\ ((1 <= inject_Z v / 32768)%Q -> 32768 <= v)
                  /\ ((inject_Z v / 32768 <= -1)%Q -> v <= -32768)).
  { unfold Qdiv, Qmult, Qinv, Qlt, Qle, inject_Z. cbn [Qnum Qden].
    repeat split; lia. }
  destruct Hsign as (S0 & S1 & S2 & S3).
  assert (Hneg : forall z : Z, trunc (inject_Z z / 32768 * 32768) = z).
  { intros z. unfold trunc, Qdiv, Qmult, Qinv, inject_Z. cbn [Qnum Qden].
    rewrite Z.mul_1_r. change (Z.pos (1 * 32768 * 1)) with 32768.
    apply Z.quot_mul. lia. }
  assert (Hpos : 0 <= v -> trunc (inject_Z v / 32768 * 32767)
                           = if 0 <? v then v - 1 else v).
  { intros H0. unfold trunc, Qdiv, Qmult, Qinv, inject_Z. cbn [Qnum Qden].
    rewrite Z.mul_1_r. change (Z.pos (1 * 32768 * 1)) with 32768.
    rewrite Z.quot_div_nonneg by lia.
    destruct (Z.ltb_spec 0 v).
    - symmetry. apply (Z.div_unique _ _ _ (32768 - v)); lia.
    - replace v with 0 by lia. reflexivity. }
  destruct (Qlt_le_dec (-1) (inject_Z v / 32768)) as [L|L].
  - destruct (Qlt_le_dec (inject_Z v / 32768) 1) as [U|U].
    + destruct (Qlt_le_dec (inject_Z v / 32768) 0) as [N|N].
      * apply S0 in N. rewrite Hneg.
        destruct (Z.ltb_spec 0 v); [lia | reflexivity].
      * apply S1 in N. apply Hpos, N.
    + apply S2 in U. lia.
  - apply S3 in L. replace v with (-32768) by lia. reflexivity.
Qed.

(** X13.  The download path: PCM bytes decoded into one channel and
    serialised by [encodeWAV] give a 44-byte header followed by the same
    16-bit samples, except that every positive sample is one less: negative
    samples and zero are kept exactly, positive ones lose one unit (the
    decoder divides by 32768, the writer multiplies positives by 32767). *)
Theorem wav_of_decoded_pcm (data : list byte) (rate : Z) (b : AudioBuffer) :
  decodeAudioData data rate 1 = inr b ->
  exists header : list byte,
    encodeWAV b
    = Some (header
            ++ flat_map (fun v => int16_bytes (if 0 <? v then v - 1 else v))
                        (int16_pairs data))
    /\ length header = 44%nat.
Proof.
  intros Hb. destruct (decode_mono data rate b Hb) as (Hch & _ & _ & _).
  exists (Claimed.wav_header (Z.of_nat (numberOfChannels b)) (sampleRate b)
                             (Z.of_nat (length (getChannelData b 0) * 2))).
  split; [|apply wav_header_length].
  rewrite encodeWAV_bytes. apply f_equal, f_equal.
  rewrite Hch. unfold Claimed.pcm16. clear Hch.
  pose proof (int16_pairs_range data) as Hr.
  induction Hr as [|v vs Hv _ IH]; [reflexivity|].
  cbn [map flat_map]. rewrite IH.
  rewrite <- ToInt16_scale_clamp, (pcm16_value_of_decoded v Hv). reflexivity.
Qed.

Lemma setInt16_cases (view : list byte) (offset : nat) (x : Q) :
  ((offset + 2 <= length view)%nat ->
   exists view', setInt16 view offset x = Some view'
                 /\ length view' = length view)
  /\ ((length view < offset + 2)%nat -> setInt16 view offset x = None).
Proof.
  unfold setInt16. split; intros H.
  - destruct (Nat.leb_spec (offset + 2) (length view)); [|lia].
    eexists. split; [reflexivity|]. rewrite !length_insert. reflexivity.
  - destruct (Nat.leb_spec (offset + 2) (length view)); [lia | reflexivity].
Qed.

(** X14.  [floatTo16BitPCM] needs two bytes per sample from its offset on:
    when the buffer has them it succeeds and returns a buffer of the same
    length, and when it lacks them (and there is a sample to write) it stops
    with the [RangeError] of the store that falls outside. *)
Theorem floatTo16BitPCM_bounds (input : list Q) (output : list byte) (offset : nat) :
  ((offset + 2 * length input <= length output)%nat ->
   exists out, floatTo16BitPCM output offset input = Some out
               /\ length out = length output)
  /\ (input <> [] -> (length output < offset + 2 * length input)%nat ->
      floatTo16BitPCM output offset input = None).
Proof.
  revert output offset.
  induction input as [|x rest IH]; intros output offset.
  - split; [intros _; exists output; split; reflexivity | congruence].
  - cbn [floatTo16BitPCM length].
    destruct (setInt16_cases output offset (scale (clamp x))) as [Hfit Hout].
    split.
    + intros Hlen. destruct Hfit as (view' & -> & Hl); [lia|].
      cbn [mbind option_bind].
      destruct (proj1 (IH view' (offset + 2)%nat)) as (out & -> & Ho); [lia|].
      exists out. split; [reflexivity | lia].
    + intros _ Hlen.
      destruct (le_lt_dec (offset + 2) (length output)) as [Hok|Hbad].
      * destruct Hfit as (view' & -> & Hl); [lia|].
        cbn [mbind option_bind].
        apply (proj2 (IH view' (offset + 2)%nat)); [|lia].
        destruct rest; [cbn in Hlen; lia | congruence].
      * rewrite Hout by lia. reflexivity.
Qed.

Lemma trunc_monotone (q r : Q) : (q <= r)%Q -> trunc q <= trunc r.
Proof.
  intros Hqr.
  destruct (Qlt_le_dec q 0) as [Hq|Hq]; destruct (Qlt_le_dec r 0) as [Hr|Hr].
  - destruct (trunc_nonpos q) as (_ & _ & Q2); [lra|].
    destruct (trunc_nonpos r) as (_ & R1 & _); [lra|].
    assert (B : (inject_Z (trunc q) < inject_Z (trunc r + 1))%Q).
    { rewrite inject_Z_plus. change (inject_Z 1) with 1%Q. lra. }
    rewrite <- Zlt_Qlt in B. lia.
  - destruct (trunc_nonpos q) as (Q0 & _ & _); [lra|].
    destruct (trunc_nonneg r) as (R0 & _ & _); [lra|]. lia.
  - lra.
  - destruct (trunc_nonneg q) as (_ & Q1 & _); [lra|].
    destruct (trunc_nonneg r) as (_ & _ & R2); [lra|].
    assert (B : (inject_Z (trunc q) < inject_Z (trunc r + 1))%Q).
    { rewrite inject_Z_plus. change (inject_Z 1) with 1%Q. lra. }
    rewrite <- Zlt_Qlt in B. lia.
Qed.

(** X15.  The WAV path never wraps around: the 16-bit value it stores for a
    sample is 32767 for every sample of 1 or more, -32768 for every sample
    of -1 or less, 0 for 0, and grows with the sample in between. *)
Theorem floatTo16BitPCM_saturates (x y : Q) :
  ((1 <= x)%Q -> ToInt16 (scale (clamp x)) = 32767)
  /\ ((x <= -1)%Q -> ToInt16 (scale (clamp x)) = -32768)
  /\ ((x == 0)%Q -> ToInt16 (scale (clamp x)) = 0)
  /\ ((x <= y)%Q -> ToInt16 (scale (clamp x)) <= ToInt16 (scale (clamp y))).
Proof.
  rewrite !ToInt16_scale_clamp.
  unfold Claimed.pcm16_value, Claimed.clamped. cbv zeta.
  repeat split.
  - intros Hx.
    destruct (Qlt_le_dec (-1) x); [|lra]. destruct (Qlt_le_dec x 1); [lra|].
    reflexivity.
  - intros Hx. destruct (Qlt_le_dec (-1) x); [lra|]. reflexivity.
  - intros Hx.
    destruct (Qlt_le_dec (-1) x); [|lra]. destruct (Qlt_le_dec x 1); [|lra].
    destruct (Qlt_le_dec x 0); [lra|].
    destruct (trunc_nonneg (x * 32767)) as (T0 & T1 & _); [lra|].
    assert (B : (inject_Z (trunc (x * 32767)) <= inject_Z 0)%Q)
      by (change (inject_Z 0) with 0%Q; lra).
    rewrite <- Zle_Qle in B. lia.
  - intros Hxy. apply trunc_monotone.
    destruct (Qlt_le_dec (-1) x); [destruct (Qlt_le_dec x 1)|];
      (destruct (Qlt_le_dec (-1) y); [destruct (Qlt_le_dec y 1)|]);
      repeat match goal with
             | |- context [Qlt_le_dec ?a 0] => destruct (Qlt_le_dec a 0)
             end; lra.
Qed.

End WavMore.

Section WavMoreExamples.
Import Js Codec Wav.

Lemma encodeWAV_identifiers_witness :
  exists out : list byte,
    encodeWAV {| numberOfChannels := 1; sampleRate := 24000; frames := 1;
                 channelData := [[(1 # 2)%Q]] |} = Some out
    /\ take 4 out = [Byte.x52; Byte.x49; Byte.x46; Byte.x46]
    /\ getUint32 out 24 = Some 24000.
Proof.
  destruct (encodeWAV_identifiers
              {| numberOfChannels := 1; sampleRate := 24000; frames := 1;
                 channelData := [[(1 # 2)%Q]] |})
    as (out & H0 & H1 & _ & _ & _ & _ & _ & _ & H2).
  - cbn. lia.
  - cbn. lia.
  - exists out. repeat split; assumption.
Defined.

(** The samples -32768, 32767, 0 and 1 come out as -32768, 32766, 0 and 0. *)
Lemma wav_of_decoded_pcm_witness :
  exists header : list byte,
    encodeWAV {| numberOfChannels := 1; sampleRate := 24000; frames := 4;
                 channelData := [[(inject_Z (-32768) / 32768)%Q;
                                  (inject_Z 32767 / 32768)%Q;
                                  (inject_Z 0 / 32768)%Q;
                                  (inject_Z 1 / 32768)%Q]] |}
    = Some (header ++ [Byte.x00; Byte.x80; Byte.xfe; Byte.x7f;
                       Byte.x00; Byte.x00; Byte.x00; Byte.x00])
    /\ length header = 44%nat.
Proof.
  apply (wav_of_decoded_pcm
           [Byte.x00; Byte.x80; Byte.xff; Byte.x7f;
            Byte.x00; Byte.x00; Byte.x01; Byte.x00] 24000).
  reflexivity.
Defined.

Lemma floatTo16BitPCM_bounds_witness :
  (exists out,
     floatTo16BitPCM [Byte.x00; Byte.x00; Byte.x00; Byte.x00; Byte.x00] 1
                     [(1 # 2)%Q; (-1 # 2)%Q] = Some out
     /\ length out = 5%nat)
  /\ floatTo16BitPCM [Byte.x00; Byte.x00; Byte.x00; Byte.x00; Byte.x00] 2
                     [(1 # 2)%Q; (-1 # 2)%Q] = None.
Proof.
  split.
  - apply (proj1 (floatTo16BitPCM_bounds [(1 # 2)%Q; (-1 # 2)%Q]
                    [Byte.x00; Byte.x00; Byte.x00; Byte.x00; Byte.x00] 1)).
    cbn. lia.
  - apply (proj2 (floatTo16BitPCM_bounds [(1 # 2)%Q; (-1 # 2)%Q]
                    [Byte.x00; Byte.x00; Byte.x00; Byte.x00; Byte.x00] 2)).
    + discriminate.
    + cbn. lia.
Defined.

Lemma floatTo16BitPCM_saturates_witness :
  ToInt16 (scale (clamp (3 # 2))) = 32767
  /\ ToInt16 (scale (clamp (-1 # 4))) <= ToInt16 (scale (clamp (1 # 3))).
Proof.
  split.
  - apply (proj1 (floatTo16BitPCM_saturates (3 # 2) 0)). unfold Qle. cbn. lia.
  - apply (proj2 (proj2 (proj2 (floatTo16BitPCM_saturates (-1 # 4) (1 # 3))))).
    unfold Qle. cbn. lia.
Defined.

End WavMoreExamples.

(** ** More on the retry loop *)

Section RetryMore.
Import Js Retry.
Context {World T : Type}.
Variable elapse : Z -> World -> World.

(** Whatever [retry] returns or catches, the operation produced. *)
Lemma retry_loop_provenance (fn : Operation (World:=World) T)
      (maxRetries factor : Z) (fuel : nat) :
  forall (retries delay : Z) (w : World) (r : Run T),
    retry_loop elapse fuel fn maxRetries factor retries delay w = Some r ->
    (forall e, e ∈ caught r -> exists w0 w1, fn w0 = (Rejected e, w1))
    /\ (forall v, outcome r = Resolved v -> exists w0 w1, fn w0 = (Resolved v, w1))
    /\ (exists w0 s, fn w0 = (s, world_after r)).
Proof.
  induction fuel as [|fuel IH]; intros retries delay w r Hr; [discriminate|].
  destruct (fn w) as [[v|e] w1] eqn:Hfn.
  - rewrite (retry_loop_resolved _ _ _ _ _ _ _ _ _ _ Hfn) in Hr.
    injection Hr as <-. cbn. repeat split.
    + intros e He. inversion He.
    + intros v0 Hv. injection Hv as <-. eauto.
    + eauto.
  - assert (Hstop : forall Hc,
               retry_loop elapse (S fuel) fn maxRetries factor retries delay w
               = Some {| outcome := Rejected e; calls := 1; caught := [e];
                         sleeps := []; world_after := w1 |} ->
               Hc = r ->
               (forall e0, e0 ∈ caught r -> exists w0 w2, fn w0 = (Rejected e0, w2))
               /\ (forall v, outcome r = Resolved v ->
                             exists w0 w2, fn w0 = (Resolved v, w2))
               /\ (exists w0 s, fn w0 = (s, world_after r))).
    { intros Hc Heq <-. rewrite Heq in Hr. injection Hr as Hr. subst Hc. cbn.
      repeat split.
      - intros e0 He0. apply list_elem_of_singleton in He0. subst e0. eauto.
      - intros v Hv. discriminate.
      - eauto. }
    destruct (isRetryableError e) eqn:Hre.
    + destruct (Z_lt_le_dec retries maxRetries) as [Hlt|Hge].
      * rewrite (retry_loop_again _ _ _ _ _ _ _ _ _ _ Hfn Hre Hlt) in Hr.
        destruct (retry_loop elapse fuel fn maxRetries factor (retries + 1)
                    (next_delay e delay factor)
                    (elapse (next_delay e delay factor) w1)) as [r'|] eqn:Hr';
          [|discriminate].
        cbn in Hr. injection Hr as <-. cbn [outcome caught world_after].
        destruct (IH _ _ _ _ Hr') as (Hc & Hv & Hw).
        repeat split; try assumption.
        intros e0 He0. apply elem_of_cons in He0. destruct He0 as [->|He0]; eauto.
      * apply (Hstop r); [|reflexivity].
        apply (retry_loop_give_up _ _ _ _ _ _ _ _ _ _ Hfn (or_intror Hge)).
    + apply (Hstop r); [|reflexivity].
      apply (retry_loop_give_up _ _ _ _ _ _ _ _ _ _ Hfn (or_introl Hre)).
Qed.

(** X16.  [retry] makes nothing up: the value it resolves with is a value
    the operation resolved with, and every error it caught, the one it
    finally throws included, is an error the operation raised. *)
Theorem retry_provenance (fn : Operation (World:=World) T) (fuel : nat)
        (maxRetries initialDelayMs factor : Z) (w : World) (r : Run T) :
  retry elapse fuel fn maxRetries initialDelayMs factor w = Some r ->
  (forall v, outcome r = Resolved v -> exists w0 w1, fn w0 = (Resolved v, w1))
  /\ (forall e, outcome r = Rejected e -> exists w0 w1, fn w0 = (Rejected e, w1))
  /\ (forall e, e ∈ caught r -> exists w0 w1, fn w0 = (Rejected e, w1)).
Proof.
  intros Hr.
  destruct (retry_loop_provenance fn maxRetries factor fuel 0 initialDelayMs w r Hr)
    as (Hc & Hv & _).
  destruct (retry_loop_record elapse fn maxRetries factor fuel 0 initialDelayMs w r Hr)
    as (_ & _ & Hout).
  repeat split; try assumption.
  intros e He. rewrite He in Hout. destruct Hout as (_ & Hlast & _).
  apply Hc. apply last_Some in Hlast. destruct Hlast as [l' ->].
  apply elem_of_app. right. apply list_elem_of_singleton. reflexivity.
Qed.

(** X17.  The accounting of a run: [retry] sleeps exactly once between two
    consecutive invocations and never after the last one; every error that
    was followed by a sleep was classified retryable; a successful run
    caught one error per sleep, a failed one caught one more, the error it
    throws. *)
Theorem retry_accounting (fn : Operation (World:=World) T) (fuel : nat)
        (maxRetries initialDelayMs factor : Z) (w : World) (r : Run T) :
  retry elapse fuel fn maxRetries initialDelayMs factor w = Some r ->
  calls r = S (length (sleeps r))
  /\ (forall i e, caught r !! i = Some e -> (i < length (sleeps r))%nat ->
                  isRetryableError e = true)
  /\ match outcome r with
     | Resolved _ => length (caught r) = length (sleeps r)
     | Rejected e => length (caught r) = S (length (sleeps r))
                     /\ last (caught r) = Some e
     end.
Proof.
  intros Hr.
  destruct (retry_loop_record elapse fn maxRetries factor fuel 0 initialDelayMs w r Hr)
    as (Hlen & Hstep & Hout).
  pose proof (retry_loop_calls_pos elapse fn maxRetries factor fuel 0
                initialDelayMs w r Hr) as Hpos.
  split; [lia|]. split.
  - intros i e He Hi.
    destruct (lookup_lt_is_Some_2 (sleeps r) i Hi) as [d Hd].
    exact (proj1 (Hstep i e d He Hd)).
  - destruct (outcome r) as [v|e].
    + lia.
    + destruct Hout as (Hl & Hlast & _). split; [lia | exact Hlast].
Qed.

(** X18.  When the operation fails with a retryable error at every attempt,
    [retry] with [maxRetries = n >= 0] invokes it exactly [n + 1] times,
    sleeps exactly [n] times and throws the error of the last attempt. *)
Theorem retry_exhausts (fn : Operation (World:=World) T) (fuel : nat)
        (n initialDelayMs factor : Z) (w : World) :
  0 <= n ->
  (Z.to_nat n < fuel)%nat ->
  (forall w', exists e w'', fn w' = (Rejected e, w'') /\ isRetryableError e = true) ->
  exists r e,
    retry elapse fuel fn n initialDelayMs factor w = Some r
    /\ outcome r = Rejected e
    /\ last (caught r) = Some e
    /\ Z.of_nat (calls r) = n + 1
    /\ Z.of_nat (length (sleeps r)) = n.
Proof.
  intros Hn Hfuel Hall.
  destruct (retry_loop_terminates elapse fn n factor fuel 0 initialDelayMs w)
    as (r & Hr & Hc).
  { rewrite Z.sub_0_r. exact Hfuel. }
  rewrite Z.sub_0_r in Hc.
  destruct (retry_loop_record elapse fn n factor fuel 0 initialDelayMs w r Hr)
    as (Hlen & _ & Hout).
  destruct (retry_loop_provenance fn n factor fuel 0 initialDelayMs w r Hr)
    as (Hprov & Hval & _).
  pose proof (retry_loop_calls_pos elapse fn n factor fuel 0
                initialDelayMs w r Hr) as Hpos.
  destruct (outcome r) as [v|e] eqn:Ho.
  - destruct (Hval v eq_refl) as (w0 & w1 & Hfn).
    destruct (Hall w0) as (e & w'' & Hrej & _). congruence.
  - destruct Hout as (Hl & Hlast & Hstop).
    exists r, e. split; [exact Hr|]. split; [exact Ho|]. split; [exact Hlast|].
    assert (Hre : isRetryableError e = true).
    { destruct (Hprov e) as (w0 & w1 & Hfn).
      - apply last_Some in Hlast. destruct Hlast as [l' ->].
        apply elem_of_app. right. apply list_elem_of_singleton. reflexivity.
      - destruct (Hall w0) as (e' & w'' & Hrej & Hre').
        rewrite Hfn in Hrej. injection Hrej as <- <-. exact Hre'. }
    destruct Hstop as [Hstop|Hstop]; [congruence|]. lia.
Qed.

(** X19.  When no caught error carries a positive suggested delay, the
    delays are the pure exponential backoff: the delay before retry number
    [i] (counted from 0) is [initialDelayMs x factor^(i+1)]. *)
Theorem retry_backoff_exponential (fn : Operation (World:=World) T) (fuel : nat)
        (maxRetries initialDelayMs factor : Z) (w : World) (r : Run T) :
  retry elapse fuel fn maxRetries initialDelayMs factor w = Some r ->
  (forall e, e ∈ caught r -> customRetryDelay e <= 0) ->
  forall i d, sleeps r !! i = Some d ->
              d = initialDelayMs * factor ^ Z.of_nat (S i).
Proof.
  intros Hr Hnone.
  destruct (retry_loop_record elapse fn maxRetries factor fuel 0 initialDelayMs w r Hr)
    as (Hlen & Hstep & Hout).
  pose proof (retry_loop_calls_pos elapse fn maxRetries factor fuel 0
                initialDelayMs w r Hr) as Hpos.
  assert (Hcaught : (length (sleeps r) <= length (caught r))%nat).
  { destruct (outcome r); [lia | destruct Hout; lia]. }
  induction i as [|i IH]; intros d Hd.
  - destruct (lookup_lt_is_Some_2 (caught r) 0) as [e He].
    { apply lookup_lt_Some in Hd. lia. }
    destruct (Hstep 0%nat e d He Hd) as [_ ->].
    unfold next_delay.
    pose proof (Hnone e (list_elem_of_lookup_2 _ _ _ He)) as Hc.
    destruct (Z.ltb_spec 0 (customRetryDelay e)); [lia|].
    change (Z.of_nat 1) with 1. rewrite Z.pow_1_r. reflexivity.
  - destruct (lookup_lt_is_Some_2 (caught r) (S i)) as [e He].
    { apply lookup_lt_Some in Hd. lia. }
    destruct (Hstep (S i) e d He Hd) as [_ ->].
    destruct (lookup_lt_is_Some_2 (sleeps r) i) as [d' Hd'].
    { apply lookup_lt_Some in Hd. lia. }
    rewrite Hd'. cbn [default from_option id]. rewrite (IH d' Hd').
    unfold next_delay.
    pose proof (Hnone e (list_elem_of_lookup_2 _ _ _ He)) as Hc.
    destruct (Z.ltb_spec 0 (customRetryDelay e)); [lia|].
    rewrite (Nat2Z.inj_succ (S i)), Z.pow_succ_r by lia. lia.
Qed.

(** X20.  With a positive initial delay and a positive factor every delay
    [retry] sleeps is positive, whatever the errors suggest. *)
Theorem retry_delays_positive (fn : Operation (World:=World) T) (fuel : nat)
        (maxRetries initialDelayMs factor : Z) (w : World) (r : Run T) :
  0 < initialDelayMs ->
  0 < factor ->
  retry elapse fuel fn maxRetries initialDelayMs factor w = Some r ->
  forall i d, sleeps r !! i = Some d -> 0 < d.
Proof.
  intros Hinit Hfactor Hr.
  destruct (retry_loop_record elapse fn maxRetries factor fuel 0 initialDelayMs w r Hr)
    as (Hlen & Hstep & Hout).
  pose proof (retry_loop_calls_pos elapse fn maxRetries factor fuel 0
                initialDelayMs w r Hr) as Hpos.
  assert (Hcaught : (length (sleeps r) <= length (caught r))%nat).
  { destruct (outcome r); [lia | destruct Hout; lia]. }
  assert (Hnext : forall e prev, 0 < prev -> 0 < next_delay e prev factor).
  { intros e prev Hp. unfold next_delay.
    destruct (Z.ltb_spec 0 (customRetryDelay e)); [assumption | nia]. }
  induction i as [|i IH]; intros d Hd.
  - destruct (lookup_lt_is_Some_2 (caught r) 0) as [e He].
    { apply lookup_lt_Some in Hd. lia. }
    destruct (Hstep 0%nat e d He Hd) as [_ ->]. apply Hnext, Hinit.
  - destruct (lookup_lt_is_Some_2 (caught r) (S i)) as [e He].
    { apply lookup_lt_Some in Hd. lia. }
    destruct (Hstep (S i) e d He Hd) as [_ ->].
    destruct (lookup_lt_is_Some_2 (sleeps r) i) as [d' Hd'].
    { apply lookup_lt_Some in Hd. lia. }
    rewrite Hd'. cbn [default from_option id]. apply Hnext, (IH d' Hd').
Qed.

End RetryMore.

(** ** More on the suggested delay *)

Section SuggestedDelayMore.
Import Js Retry.
Local Open Scope string_scope.

Lemma digit_run_then (digits : string) (c : ascii) (tail : string) :
  digits_only digits = true ->
  is_digit c = false ->
  digit_run (digits ++ String c tail) = (digits, String c tail).
Proof.
  intros Hd Hc. induction digits as [|a rest IH].
  - change (EmptyString ++ String c tail) with (String c tail).
    cbn [digit_run]. rewrite Hc. reflexivity.
  - cbn in Hd. apply andb_true_iff in Hd. destruct Hd as [Ha Hrest].
    change (String a rest ++ String c tail) with (String a (rest ++ String c tail)).
    cbn [digit_run]. rewrite Ha, (IH Hrest). reflexivity.
Qed.

(** The pattern finds nothing inside digits that are followed by a dot. *)
Lemma regex_skips_integer_part (whole tail : string) :
  digits_only whole = true ->
  regex_digits_s (whole ++ String "." tail) = regex_digits_s tail.
Proof.
  intros Hd. induction whole as [|a rest IH].
  - reflexivity.
  - pose proof Hd as Hd'. cbn in Hd'. apply andb_true_iff in Hd'.
    destruct Hd' as [Ha Hrest].
    change (String a rest ++ String "." tail)
      with (String a (rest ++ String "." tail)).
    cbn [regex_digits_s].
    assert (Hm : match_here (String a (rest ++ String "." tail)) = None).
    { unfold match_here.
      change (String a (rest ++ String "." tail))
        with (String a rest ++ String "." tail).
      rewrite (digit_run_then (String a rest) "." tail Hd eq_refl).
      reflexivity. }
    rewrite Hm. apply IH, Hrest.
Qed.

(** X21.  The pattern is not anchored: for a [retryDelay] written with a
    fraction, as in [1.5s] or [0.500s], the code takes the digits after the
    dot for the seconds (5 and 500), not the whole part. *)
Theorem suggested_seconds_of_fraction (e : JsError) (ds : list Detail)
        (info : Detail) (whole fraction : string) :
  details e = Some ds ->
  List.find is_retry_info ds = Some info ->
  retryDelay info = Some (whole ++ "." ++ fraction ++ "s") ->
  whole <> EmptyString ->
  digits_only whole = true ->
  fraction <> EmptyString ->
  digits_only fraction = true ->
  suggested_seconds e = Some (parseInt fraction)
  /\ customRetryDelay e = parseInt fraction * 1000.
Proof.
  intros Hds Hfind Hdelay Hw Hwd Hf Hfd.
  assert (Hs : suggested_seconds e = Some (parseInt fraction)).
  { unfold suggested_seconds. rewrite Hds, Hfind, Hdelay.
    pose proof (regex_skips_integer_part whole (fraction ++ "s") Hwd) as Hskip.
    change (whole ++ "." ++ fraction ++ "s")
      with (whole ++ String "." (fraction ++ "s")).
    rewrite (regex_whole_seconds fraction EmptyString Hf Hfd) in Hskip.
    destruct whole as [|c rest]; [congruence|].
    change (String c rest ++ String "." (fraction ++ "s"))
      with (String c (rest ++ String "." (fraction ++ "s"))) in *.
    cbv iota. rewrite Hskip. reflexivity. }
  split; [exact Hs|]. unfold customRetryDelay. rewrite Hs. reflexivity.
Qed.

End SuggestedDelayMore.

Section RetryMoreExamples.
Import Retry Scripted.
Local Open Scope string_scope.

Lemma retry_provenance_witness :
  exists w0 w1,
    scripted [Rejected overloaded] (Resolved 7%nat) w0 = (Resolved 7%nat, w1).
Proof.
  apply (proj1 (retry_provenance idle
                  (scripted [Rejected overloaded] (Resolved 7%nat))
                  5 3 1000 2 0%nat
                  {| outcome := Resolved 7%nat; calls := 2; caught := [overloaded];
                     sleeps := [2000]; world_after := 2%nat |} eq_refl)
          7%nat eq_refl).
Defined.

Lemma retry_accounting_witness :
  2%nat = S (length [2000]).
Proof.
  apply (proj1 (retry_accounting idle
                  (scripted [Rejected overloaded] (Resolved 7%nat))
                  5 3 1000 2 0%nat
                  {| outcome := Resolved 7%nat; calls := 2; caught := [overloaded];
                     sleeps := [2000]; world_after := 2%nat |} eq_refl)).
Defined.

Lemma retry_exhausts_witness :
  exists r e,
    retry idle 12 (scripted (T:=nat) [] (Rejected overloaded))
          API_MAX_RETRIES API_RETRY_INITIAL_DELAY_MS API_RETRY_BACKOFF_FACTOR 0%nat
    = Some r
    /\ outcome r = Rejected e
    /\ last (caught r) = Some e
    /\ Z.of_nat (calls r) = 10 + 1
    /\ Z.of_nat (length (sleeps r)) = 10.
Proof.
  apply (retry_exhausts idle (scripted (T:=nat) [] (Rejected overloaded)) 12
           API_MAX_RETRIES API_RETRY_INITIAL_DELAY_MS API_RETRY_BACKOFF_FACTOR 0%nat).
  - unfold API_MAX_RETRIES. lia.
  - apply Nat.ltb_lt. reflexivity.
  - intros w'. exists overloaded, (S w'). split; [|reflexivity].
    unfold scripted. destruct w'; reflexivity.
Defined.

(** Under the configured policy the third delay is 8000 ms. *)
Lemma retry_backoff_exponential_witness :
  8000 = API_RETRY_INITIAL_DELAY_MS * API_RETRY_BACKOFF_FACTOR ^ Z.of_nat 3.
Proof.
  apply (retry_backoff_exponential idle
           (scripted [Rejected overloaded; Rejected overloaded; Rejected overloaded]
                     (Resolved tt))
           12 API_MAX_RETRIES API_RETRY_INITIAL_DELAY_MS API_RETRY_BACKOFF_FACTOR
           0%nat
           {| outcome := Resolved tt; calls := 4;
              caught := [overloaded; overloaded; overloaded];
              sleeps := [2000; 4000; 8000]; world_after := 4%nat |}
           eq_refl).
  - intros e He. repeat (apply elem_of_cons in He; destruct He as [->|He]);
      [cbn; lia .. | inversion He].
  - reflexivity.
Defined.

Lemma retry_delays_positive_witness : 0 < 5000.
Proof.
  apply (retry_delays_positive idle
           (scripted [Rejected (quota "5s")] (Resolved tt))
           12 10 1000 2 0%nat
           {| outcome := Resolved tt; calls := 2; caught := [quota "5s"];
              sleeps := [5000]; world_after := 2%nat |}
           ltac:(lia) ltac:(lia) eq_refl 0%nat 5000 eq_refl).
Defined.

Lemma suggested_seconds_of_fraction_witness :
  suggested_seconds (quota "0.500s") = Some (parseInt "500")
  /\ customRetryDelay (quota "0.500s") = parseInt "500" * 1000.
Proof.
  apply (suggested_seconds_of_fraction (quota "0.500s")
           [ mkDetail (Some "type.googleapis.com/google.rpc.QuotaFailure") None;
             mkDetail (Some RETRY_INFO) (Some "0.500s") ]
           (mkDetail (Some RETRY_INFO) (Some "0.500s")) "0" "500");
    try reflexivity; discriminate.
Defined.

End RetryMoreExamples.

(** ** More on the remote operations *)

Section RemoteMore.
Import Js Retry Remote Counting.
Local Open Scope string_scope.

Lemma find_none {A} (f : A -> bool) (l : list A) :
  (forall x, In x l -> f x = false) -> List.find f l = None.
Proof.
  induction l as [|x l IH]; intros H; [reflexivity|].
  cbn. rewrite (H x (or_introl eq_refl)). apply IH.
  intros y Hy. apply H. right. exact Hy.
Qed.

(** X22.  [getLanguageNameFromCode] returns the name of every supported
    language for its code (no code occurs twice in the table with different
    names), and gives the code back for a code that is not in the table. *)
Theorem getLanguageNameFromCode_table :
  (forall l, In l SUPPORTED_TRANSLATION_LANGUAGES ->
             getLanguageNameFromCode (lang_code l) = lang_name l)
  /\ (forall code,
        (forall l, In l SUPPORTED_TRANSLATION_LANGUAGES -> lang_code l <> code) ->
        getLanguageNameFromCode code = code).
Proof.
  split.
  - apply List.Forall_forall. repeat constructor.
  - intros code Hnot. unfold getLanguageNameFromCode.
    rewrite find_none; [reflexivity|].
    intros l Hl. apply String.eqb_neq. apply Hnot, Hl.
Qed.

Context {World : Type}.
Variable elapse : Z -> World -> World.
Variable generateContent : Request -> Operation (World:=World) Response.
Variable read_detection : Response -> option Detected.

(** X23.  [generateSpeech] resolves with the empty string exactly when the
    text is blank, and then without calling the service; for any other text
    a resolved result is the non-empty audio string of a response, so a
    caller that gets a value gets audio. *)
Theorem generateSpeech_empty_iff_blank (fuel : nat) (text : string) (w w' : World)
        (s : string) :
  generateSpeech elapse generateContent fuel text w = Some (Resolved s, w') ->
  (s = EmptyString <-> blank text = true)
  /\ (blank text = true -> w' = w)
  /\ (blank text = false ->
      exists w0 w1 response,
        generateContent (speech_request text) w0 = (Resolved response, w1)
        /\ inlineAudio response = Some s).
Proof.
  unfold generateSpeech. destruct (blank text) eqn:Hb.
  - intros H. injection H as <- <-. repeat split; congruence.
  - destruct (retry elapse fuel (speech_attempt generateContent text)
                API_MAX_RETRIES API_RETRY_INITIAL_DELAY_MS
                API_RETRY_BACKOFF_FACTOR w) as [r|] eqn:Hr; [|discriminate].
    cbn. destruct (outcome r) as [v|e] eqn:Ho; intros H; [|discriminate].
    injection H as -> <-.
    destruct (retry_loop_provenance elapse (speech_attempt generateContent text)
                API_MAX_RETRIES API_RETRY_BACKOFF_FACTOR fuel 0
                API_RETRY_INITIAL_DELAY_MS w r Hr) as (_ & Hv & _).
    destruct (Hv s Ho) as (w0 & w1 & Hfn).
    unfold speech_attempt in Hfn.
    destruct (generateContent (speech_request text) w0) as [[response|e] w2] eqn:Hg;
      [|discriminate].
    destruct (inlineAudio response) as [[|c a]|] eqn:Ha; try discriminate.
    injection Hfn as <- <-.
    split; [split; congruence|]. split; [congruence|].
    intros _. exists w0, w2, response. split; [exact Hg | exact Ha].
Qed.

(** X24.  [detectLanguage] never throws: whatever the service does, above
    the retry ceiling it returns and resolves, with a detection or with
    [null]. *)
Theorem detectLanguage_always_resolves (fuel : nat) (text : string) (w : World) :
  (10 < fuel)%nat ->
  exists d w',
    detectLanguage elapse generateContent read_detection fuel text w
    = Some (Resolved d, w').
Proof.
  intros Hfuel.
  destruct (public_operations_return elapse generateContent read_detection
              fuel w Hfuel) as (Hdet & _ & _).
  destruct (Hdet text) as [[res w'] Hres]. rewrite Hres.
  unfold detectLanguage in Hres.
  destruct (retry _ _ _ _ _ _ _) as [r|]; [|discriminate].
  cbn in Hres. destruct (outcome r); injection Hres as <- <-; eauto.
Qed.

(** Running an operation with the counter changes nothing but the counter,
    which grows by one per invocation. *)
Lemma retry_loop_counted {T} (fn : Operation (World:=World) T)
      (maxRetries factor : Z) (fuel : nat) :
  forall (retries delay : Z) (w : World) (k : nat),
    retry_loop (elapse_counted elapse) fuel (counted fn) maxRetries factor
               retries delay (w, k)
    = r ← retry_loop elapse fuel fn maxRetries factor retries delay w;
      Some {| outcome := outcome r; calls := calls r; caught := caught r;
              sleeps := sleeps r;
              world_after := (world_after r, (k + calls r)%nat) |}.
Proof.
  induction fuel as [|fuel IH]; intros retries delay w k; [reflexivity|].
  cbn [retry_loop]. unfold counted at 1. cbn [fst snd].
  destruct (fn w) as [[v|e] w1].
  - cbn. do 2 f_equal. f_equal. lia.
  - destruct (negb (isRetryableError e) || (maxRetries <=? retries)%Z)%bool.
    + cbn. do 2 f_equal. f_equal. lia.
    + unfold elapse_counted at 2. cbn [fst snd]. rewrite IH.
      destruct (retry_loop elapse fuel fn maxRetries factor (retries + 1)
                  (next_delay e delay factor)
                  (elapse (next_delay e delay factor) w1)) as [r|];
        [|reflexivity].
      cbn. do 2 f_equal. f_equal. lia.
Qed.

Lemma retry_loop_ext {W T} (el : Z -> W -> W) (fn fn' : Operation (World:=W) T)
      (maxRetries factor : Z) (fuel : nat) :
  (forall w, fn w = fn' w) ->
  forall retries delay w,
    retry_loop el fuel fn maxRetries factor retries delay w
    = retry_loop el fuel fn' maxRetries factor retries delay w.
Proof.
  intros Hext. induction fuel as [|fuel IH]; intros retries delay w; [reflexivity|].
  cbn [retry_loop]. rewrite <- Hext. destruct (fn w) as [[v|e] w1]; [reflexivity|].
  destruct (_ || _)%bool; [reflexivity|]. rewrite IH. reflexivity.
Qed.

Lemma retry_loop_calls_bound {T} (fn : Operation (World:=World) T)
      (maxRetries factor : Z) (fuel : nat) :
  forall (retries delay : Z) (w : World) (r : Run T),
    retry_loop elapse fuel fn maxRetries factor retries delay w = Some r ->
    (1 <= calls r <= Z.to_nat (maxRetries - retries) + 1)%nat.
Proof.
  induction fuel as [|fuel IH]; intros retries delay w r Hr; [discriminate|].
  destruct (fn w) as [[v|e] w1] eqn:Hfn.
  - rewrite (retry_loop_resolved _ _ _ _ _ _ _ _ _ _ Hfn) in Hr.
    injection Hr as <-. cbn. lia.
  - destruct (isRetryableError e) eqn:Hre.
    + destruct (Z_lt_le_dec retries maxRetries) as [Hlt|Hge].
      * rewrite (retry_loop_again _ _ _ _ _ _ _ _ _ _ Hfn Hre Hlt) in Hr.
        destruct (retry_loop _ _ _ _ _ _ _ _) as [r'|] eqn:Hr'; [|discriminate].
        cbn in Hr. injection Hr as <-. cbn [calls].
        pose proof (IH _ _ _ _ Hr'). lia.
      * rewrite (retry_loop_give_up _ _ _ _ _ _ _ _ _ _ Hfn (or_intror Hge)) in Hr.
        injection Hr as <-. cbn. lia.
    + rewrite (retry_loop_give_up _ _ _ _ _ _ _ _ _ _ Hfn (or_introl Hre)) in Hr.
      injection Hr as <-. cbn. lia.
Qed.

(** The counter after a retried operation. *)
Lemma retry_counted_calls {T} (fn : Operation (World:=World) T) (fuel : nat)
      (w : World) (k : nat) (r' : Run (World:=World * nat) T) :
  retry (elapse_counted elapse) fuel (counted fn)
        API_MAX_RETRIES API_RETRY_INITIAL_DELAY_MS API_RETRY_BACKOFF_FACTOR (w, k)
  = Some r' ->
  (k + 1 <= snd (world_after r') <= k + 11)%nat.
Proof.
  unfold retry. rewrite retry_loop_counted.
  destruct (retry_loop elapse fuel fn _ _ _ _ w) as [r|] eqn:Hr; [|discriminate].
  cbn. intros H. injection H as <-. cbn [world_after snd].
  pose proof (retry_loop_calls_bound fn _ _ _ _ _ _ _ Hr) as Hb.
  change (Z.to_nat (API_MAX_RETRIES - 0)) with 10%nat in Hb. lia.
Qed.

Lemma speech_attempt_counted (text : string) (wn : World * nat) :
  speech_attempt (fun req => counted (generateContent req)) text wn
  = counted (speech_attempt generateContent text) wn.
Proof.
  destruct wn as [w k]. unfold speech_attempt, counted. cbn [fst snd].
  destruct (generateContent (speech_request text) w) as [[response|e] w1];
    [|reflexivity].
  destruct (inlineAudio response) as [[|c a]|]; reflexivity.
Qed.

(** X25.  Each public operation makes at most 11 remote calls: run against
    a service that counts its invocations, [translateText] and
    [detectLanguage] leave the counter between 1 and 11 higher, and
    [generateSpeech] between 0 and 11 higher (0 only for a blank text). *)
Theorem remote_calls_bounded (fuel : nat) (w w' : World) (k k' : nat) :
  (forall text target thinking source res,
      translateText (elapse_counted elapse) (fun req => counted (generateContent req))
                    fuel text target thinking source (w, k) = Some (res, (w', k')) ->
      (k + 1 <= k' <= k + 11)%nat)
  /\ (forall text res,
        detectLanguage (elapse_counted elapse) (fun req => counted (generateContent req))
                       read_detection fuel text (w, k) = Some (res, (w', k')) ->
        (k + 1 <= k' <= k + 11)%nat)
  /\ (forall text res,
        generateSpeech (elapse_counted elapse) (fun req => counted (generateContent req))
                       fuel text (w, k) = Some (res, (w', k')) ->
        (k <= k' <= k + 11)%nat /\ (blank text = false -> (k + 1 <= k')%nat)).
Proof.
  split; [|split].
  - intros text target thinking source res. unfold translateText.
    destruct (retry _ _ _ _ _ _ _) as [r|] eqn:Hr; [|discriminate].
    pose proof (retry_counted_calls _ _ _ _ _ Hr) as Hb.
    cbn. destruct (outcome r); intros H; injection H as _ Hw;
      rewrite Hw in Hb; cbn in Hb; lia.
  - intros text res. unfold detectLanguage.
    destruct (retry _ _ _ _ _ _ _) as [r|] eqn:Hr; [|discriminate].
    pose proof (retry_counted_calls _ _ _ _ _ Hr) as Hb.
    cbn. destruct (outcome r); intros H; injection H as _ Hw;
      rewrite Hw in Hb; cbn in Hb; lia.
  - intros text res. unfold generateSpeech. destruct (blank text).
    + intros H. injection H as _ _ Hk. split; [lia | discriminate].
    + unfold retry.
      rewrite (retry_loop_ext _ _ _ _ _ _ (speech_attempt_counted text)).
      fold (retry (elapse_counted elapse) fuel
                  (counted (speech_attempt generateContent text))
                  API_MAX_RETRIES API_RETRY_INITIAL_DELAY_MS
                  API_RETRY_BACKOFF_FACTOR (w, k)).
      destruct (retry _ _ _ _ _ _ _) as [r|] eqn:Hr; [|discriminate].
      pose proof (retry_counted_calls _ _ _ _ _ Hr) as Hb.
      cbn. destruct (outcome r); intros H; injection H as _ Hw;
        rewrite Hw in Hb; cbn in Hb; split; try lia; intros _; lia.
Qed.

End RemoteMore.

Section RemoteMoreExamples.
Import Retry Remote Scripted Counting.
Local Open Scope string_scope.

Lemma generateSpeech_empty_iff_blank_witness :
  (EmptyString = EmptyString <-> blank "  " = true).
Proof.
  apply (proj1 (generateSpeech_empty_iff_blank idle always_invalid 11 "  "
                  0%nat 0%nat EmptyString eq_refl)).
Defined.

Lemma detectLanguage_always_resolves_witness :
  exists d w',
    detectLanguage idle always_invalid (fun _ => None) 11 "hola" 0%nat
    = Some (Resolved d, w').
Proof.
  apply (detectLanguage_always_resolves idle always_invalid (fun _ => None)
           11 "hola" 0%nat). lia.
Defined.

(** A service that rejects every request makes [translateText] stop after
    one call. *)
Lemma remote_calls_bounded_witness : (0 + 1 <= 1 <= 0 + 11)%nat.
Proof.
  apply (proj1 (remote_calls_bounded idle always_invalid (fun _ => None)
                  11 0%nat 1%nat 0%nat 1%nat)
           "hola" "English" false None (Rejected invalid_argument)).
  reflexivity.
Defined.

End RemoteMoreExamples.

Section SchedulerMoreExamples.
Import Codec Playback.
Local Open Scope string_scope.

(** Two chunks scheduled around a failed call; their [ended] events arrive
    in reverse order. *)
Lemma all_ended_empties_active_set_witness :
  audioSources
    (fold_right on_ended
       (playAll Platform.atob
          [("AAD/fwCA", 0%Q); ("AAAA", 0%Q); ("AAD/fwCA", 0%Q)] initial)
       [1%nat; 0%nat])
  = ∅.
Proof.
  apply (proj1 (all_ended_empties_active_set Platform.atob
                  [("AAD/fwCA", 0%Q); ("AAAA", 0%Q); ("AAD/fwCA", 0%Q)]
                  [1%nat; 0%nat]
                  ltac:(intros s Hs;
                        change (s ∈ [0%nat; 1%nat]) in Hs;
                        rewrite !elem_of_cons in Hs; rewrite !elem_of_cons;
                        tauto))).
Defined.

Lemma stopAllAudio_then_play_witness :
  exists p' chunk,
    playAudio Platform.atob "AAD/fwCA" (3 # 2)
      (stopAllAudio (playAll Platform.atob [("AAD/fwCA", 0%Q)] initial))
    = (None, p')
    /\ last (started p') = Some chunk
    /\ (startAt chunk == 3 # 2)%Q.
Proof.
  destruct (stopAllAudio_then_play Platform.atob
              (playAll Platform.atob [("AAD/fwCA", 0%Q)] initial)
              "AAD/fwCA" (3 # 2) (3 # 24000) 0%nat)
    as (_ & _ & p' & chunk & H1 & H2 & H3 & _).
  - unfold Qle. cbn. lia.
  - reflexivity.
  - exists p', chunk. repeat split; assumption.
Defined.

End SchedulerMoreExamples.

(** ** The transcript *)

Section TranscriptProps.
Import Remote App.
Local Open Scope string_scope.

Lemma append_empty_r (s : string) : s ++ EmptyString = s.
Proof.
  induction s as [|c s IH]; [reflexivity|].
  change (String c (s ++ EmptyString) = String c s). rewrite IH. reflexivity.
Qed.

Lemma append_assoc (a b c : string) : (a ++ b) ++ c = a ++ (b ++ c).
Proof.
  induction a as [|x a IH]; [reflexivity|].
  change (String x ((a ++ b) ++ c) = String x (a ++ (b ++ c))).
  rewrite IH. reflexivity.
Qed.

(** What one message does to the two transcripts and to the live chunk. *)
Lemma handleLiveMessage_transcripts (m : LiveServerMessage) (st : Transcript) :
  accumulatedTranscription (handleLiveMessage true m st)
  = accumulatedTranscription st ++ input_text m
  /\ (exists tail,
        currentInputTranscription (handleLiveMessage true m st) = tail
        /\ (tail = EmptyString
            \/ tail = currentInputTranscription st ++ input_text m))
  /\ (currentTranscriptionChunk st = currentInputTranscription st ->
      currentTranscriptionChunk (handleLiveMessage true m st)
      = currentInputTranscription (handleLiveMessage true m st)).
Proof.
  unfold handleLiveMessage, input_text. cbn [negb].
  destruct (serverContent m) as [[[t|] [o|] [|]]|]; cbn;
    rewrite ?append_empty_r; repeat split; eauto.
Qed.

Lemma handleAll_cons (m : LiveServerMessage) (ms : list LiveServerMessage)
      (st : Transcript) :
  handleAll true (m :: ms) st = handleAll true ms (handleLiveMessage true m st).
Proof. reflexivity. Qed.

(** X26.  Over a whole session the accumulated transcript is the
    transcript at the start followed by the input texts of all messages in
    arrival order, whatever the turn boundaries; a message that arrives
    before the output audio is set up changes nothing. *)
Theorem accumulated_is_concatenation (ms : list LiveServerMessage) (st : Transcript) :
  accumulatedTranscription (handleAll true ms st)
  = accumulatedTranscription st ++ String.concat EmptyString (map input_text ms)
  /\ handleAll false ms st = st.
Proof.
  split.
  - revert st. induction ms as [|m ms IH]; intros st.
    + cbn. rewrite append_empty_r. reflexivity.
    + rewrite handleAll_cons, IH.
      rewrite (proj1 (handleLiveMessage_transcripts m st)), append_assoc.
      f_equal. cbn [map String.concat].
      destruct (map input_text ms) as [|x xs] eqn:E.
      * rewrite append_empty_r. reflexivity.
      * reflexivity.
  - induction ms as [|m ms IH]; [reflexivity|]. exact IH.
Qed.

(** X27.  From the start of a recording, after any sequence of messages,
    the text of the current turn is a suffix of the accumulated transcript,
    and the chunk shown live is the text of the current turn. *)
Theorem current_turn_is_suffix (ms : list LiveServerMessage) :
  is_suffix (currentInputTranscription (handleAll true ms fresh))
            (accumulatedTranscription (handleAll true ms fresh))
  /\ currentTranscriptionChunk (handleAll true ms fresh)
     = currentInputTranscription (handleAll true ms fresh).
Proof.
  enough (H : forall st,
             is_suffix (currentInputTranscription st) (accumulatedTranscription st)
             /\ currentTranscriptionChunk st = currentInputTranscription st ->
             is_suffix (currentInputTranscription (handleAll true ms st))
                       (accumulatedTranscription (handleAll true ms st))
             /\ currentTranscriptionChunk (handleAll true ms st)
                = currentInputTranscription (handleAll true ms st)).
  { apply H. split; [exists EmptyString; reflexivity | reflexivity]. }
  induction ms as [|m ms IH]; intros st Hst; [exact Hst|].
  rewrite handleAll_cons. apply IH.
  destruct Hst as [[front Hfront] Hchunk].
  destruct (handleLiveMessage_transcripts m st) as (Hacc & (tail & Hcur & Htail) & Hch).
  split; [|apply Hch, Hchunk].
  rewrite Hacc, Hcur. destruct Htail as [-> | ->].
  - exists (accumulatedTranscription st ++ input_text m).
    rewrite append_empty_r. reflexivity.
  - exists front. rewrite Hfront, append_assoc. reflexivity.
Qed.

Lemma trimStart_clean (s : string) : starts_clean (trimStart s).
Proof.
  induction s as [|c s IH]; [exact I|].
  cbn [trimStart]. destruct (is_space c) eqn:E; [exact IH | exact E].
Qed.

Lemma trimStart_of_clean (s : string) : starts_clean s -> trimStart s = s.
Proof.
  destruct s as [|c s]; [reflexivity|]. cbn. intros ->. reflexivity.
Qed.

Lemma trimEnd_clean (s : string) : starts_clean s -> starts_clean (trimEnd s).
Proof.
  destruct s as [|c s]; [intros _; exact I|].
  cbn [starts_clean trimEnd]. intros Hc.
  destruct (trimEnd s); [rewrite Hc|]; exact Hc.
Qed.

Lemma trimEnd_idempotent (s : string) : trimEnd (trimEnd s) = trimEnd s.
Proof.
  induction s as [|c s IH]; [reflexivity|].
  cbn [trimEnd]. destruct (trimEnd s) as [|d t] eqn:E.
  - destruct (is_space c) eqn:Hc; [reflexivity|].
    cbn [trimEnd]. rewrite Hc. reflexivity.
  - cbn [trimEnd]. cbn [trimEnd] in IH.
    destruct (trimEnd t) as [|d' t'] eqn:Et.
    + destruct (is_space d) eqn:Hd; [discriminate IH|].
      injection IH as <-. reflexivity.
    + injection IH as <-. reflexivity.
Qed.

Lemma trim_idempotent (s : string) : trim (trim s) = trim s.
Proof.
  unfold trim.
  rewrite (trimStart_of_clean (trimEnd (trimStart s)))
    by apply trimEnd_clean, trimStart_clean.
  apply trimEnd_idempotent.
Qed.

Lemma trimEnd_blank (s : string) : blank s = true -> trimEnd s = EmptyString.
Proof.
  induction s as [|c s IH]; [reflexivity|].
  cbn. intros H. apply andb_true_iff in H. destruct H as [Hc Hs].
  rewrite (IH Hs), Hc. reflexivity.
Qed.

Lemma trimEnd_not_blank (s : string) : blank s = false -> trimEnd s <> EmptyString.
Proof.
  induction s as [|c s IH]; [discriminate|].
  cbn. intros H. destruct (trimEnd s) eqn:E; [|discriminate].
  destruct (is_space c) eqn:Hc; [|discriminate].
  cbn in H. apply IH in H. congruence.
Qed.

Lemma blank_trimStart (s : string) : blank (trimStart s) = blank s.
Proof.
  induction s as [|c s IH]; [reflexivity|].
  cbn [trimStart]. destruct (is_space c) eqn:Hc.
  - rewrite IH. cbn. rewrite Hc. reflexivity.
  - reflexivity.
Qed.

Lemma trim_clean_entry (s : string) :
  trim s <> EmptyString -> clean_entry (trim s).
Proof.
  intros Hne. split; [exact Hne|]. split; [apply trim_idempotent|].
  destruct (blank (trim s)) eqn:E; [|reflexivity].
  exfalso. apply Hne. rewrite <- trim_idempotent. unfold trim at 1.
  apply trimEnd_blank. rewrite blank_trimStart. exact E.
Qed.

Lemma handleLiveMessage_history (ready : bool) (m : LiveServerMessage)
      (st : Transcript) :
  transcriptionHistory (handleLiveMessage ready m st) = transcriptionHistory st
  \/ exists entry,
       transcriptionHistory (handleLiveMessage ready m st)
       = (transcriptionHistory st ++ [entry])%list
       /\ clean_entry entry
       /\ entry = trim (currentInputTranscription st ++ input_text m).
Proof.
  unfold handleLiveMessage, input_text. destruct ready; cbn [negb]; [|left; reflexivity].
  destruct (serverContent m) as [[[t|] [o|] [|]]|]; cbn -[trim append];
    rewrite ?append_empty_r; try (left; reflexivity);
    match goal with
    | |- context [trim ?x] =>
        destruct (trim x) as [|c r] eqn:E; [left; reflexivity|];
        right; exists (String c r); split; [reflexivity|];
        split; [rewrite <- E; apply trim_clean_entry; rewrite E; discriminate
               | reflexivity]
    end.
Qed.

(** X28.  The history only grows, by at most one entry per message, and
    every entry added is trimmed text: not empty, not blank, and unchanged
    by a further [trim]. *)
Theorem history_entries_are_trimmed (ready : bool) (ms : list LiveServerMessage)
        (st : Transcript) :
  exists added : list string,
    transcriptionHistory (handleAll ready ms st)
    = (transcriptionHistory st ++ added)%list
    /\ (length added <= length ms)%nat
    /\ Forall clean_entry added.
Proof.
  revert st. induction ms as [|m ms IH]; intros st.
  - exists []. cbn. rewrite app_nil_r.
    split; [reflexivity|]. split; [lia | constructor].
  - change (handleAll ready (m :: ms) st)
      with (handleAll ready ms (handleLiveMessage ready m st)).
    destruct (IH (handleLiveMessage ready m st)) as (added & Hh & Hl & Hc).
    destruct (handleLiveMessage_history ready m st) as [E | (entry & E & Hclean & _)].
    + exists added. rewrite Hh, E.
      split; [reflexivity|]. split; [cbn; lia | exact Hc].
    + exists (entry :: added). rewrite Hh, E, <- app_assoc.
      split; [reflexivity|]. split; [cbn; lia | constructor; assumption].
Qed.

(** X29.  [TranscriptionDisplay] shows the most recent chunks only: at most
    [MAX_CHUNKS_FOR_DISPLAY] of them, all of them when there are no more
    than that, always the tail of the history in its order, so a chunk just
    added is the last one shown. *)
Theorem displayHistory_is_recent_tail (history : list string) :
  length (displayHistory history) = Nat.min (length history) MAX_CHUNKS_FOR_DISPLAY
  /\ (exists older, history = (older ++ displayHistory history)%list)
  /\ ((length history <= MAX_CHUNKS_FOR_DISPLAY)%nat -> displayHistory history = history)
  /\ (forall chunk, last (displayHistory (history ++ [chunk])%list) = Some chunk).
Proof.
  unfold displayHistory, MAX_CHUNKS_FOR_DISPLAY.
  split; [rewrite length_drop; lia|].
  split; [exists (take (length history - 10) history); symmetry; apply take_drop|].
  split.
  { intros Hle. replace (length history - 10)%nat with 0%nat by lia. reflexivity. }
  intros chunk.
  rewrite length_app. cbn [length].
  rewrite drop_app_le by lia. apply last_snoc.
Qed.

End TranscriptProps.
